(** * Duo party-room server: room state synchronisation and turn coordination

    A shallow embedding of the socket server ([src/unnamed/part_008], the
    version of [src/server/index.js] with the music session and the lobby
    notes): every event handler of the server is a function from the room
    to the room it leaves and the list of messages it emits, and the
    dispatch of an event is a function on the room registry.

    - Room ids, pins and socket ids are strings; a field that can be
      [null] is an [option], and the truthiness tests of the source are
      written out (the empty string is falsy).  The user key is whatever
      the client sends: the room page sends the stored key of the browser,
      which is [null] when the visitor has not passed through the home
      page, so a user key is a string or [null].
    - A string is a sequence of code units below 256, the Latin-1 range of
      a JavaScript string.  On these strings [trim] and [toLowerCase] are
      exactly the functions below: the white space of the language in that
      range is 9-13, 32 and 160, and the letters with a lower-case
      counterpart are 65-90 and 192-222 without 215.
    - The registry [rooms] is a finite map from room ids to rooms.
    - The results of [Math.random] and [Date.now], the fresh part of a new
      id and the answers of the music provider are inputs of a handler.
    - The server handles one event after the other.  In [run] the handler
      that awaits the music provider runs as one step, with the answers of
      the provider at hand; in [serveAll] it is suspended at each await and
      resumed when the answer arrives, other events being handled in
      between. *)

From Stdlib Require Import ZArith Lia Bool Ascii.
From stdpp Require Import gmap strings list fin_maps.

Local Open Scope string_scope.
Local Open Scope list_scope.
Local Open Scope Z_scope.

(** ** JavaScript strings and truthiness *)

Module Js.

Definition isSpace (c : ascii) : bool :=
  let n := nat_of_ascii c in
  ((9 <=? n)%nat && (n <=? 13)%nat) || (n =? 32)%nat || (n =? 160)%nat.

Definition lowerChar (c : ascii) : ascii :=
  let n := nat_of_ascii c in
  if ((65 <=? n)%nat && (n <=? 90)%nat)
     || ((192 <=? n)%nat && (n <=? 222)%nat && negb (n =? 215)%nat)
  then ascii_of_nat (n + 32) else c.

Fixpoint toLowerCase (s : string) : string :=
  match s with
  | EmptyString => EmptyString
  | String c r => String (lowerChar c) (toLowerCase r)
  end.

Fixpoint trimStart (s : string) : string :=
  match s with
  | EmptyString => EmptyString
  | String c r => if isSpace c then trimStart r else s
  end.

(** [trimEnd] keeps a character when it is not white space or when
    something is left after it. *)
Fixpoint trimEnd (s : string) : string :=
  match s with
  | EmptyString => EmptyString
  | String c r =>
      match trimEnd r with
      | EmptyString => if isSpace c then EmptyString else String c EmptyString
      | r' => String c r'
      end
  end.

Definition trim (s : string) : string := trimEnd (trimStart s).

(** [s.slice(0, n)] *)
Fixpoint slice0 (n : nat) (s : string) : string :=
  match n, s with
  | S k, String c r => String c (slice0 k r)
  | _, _ => EmptyString
  end.

Definition startsWith (s p : string) : bool := String.prefix p s.

(** A string is falsy exactly when it is empty; [null] and [undefined]
    are [None]. *)
Definition truthyS (s : string) : bool := negb (String.eqb s EmptyString).

Definition truthy (o : option string) : bool :=
  match o with
  | Some s => truthyS s
  | None => false
  end.

(** [o === s] for a nullable field [o] and a string [s]. *)
Definition eqs (o : option string) (s : string) : bool :=
  match o with
  | Some x => String.eqb x s
  | None => false
  end.

(** [a === b] for two nullable strings: [null === null] holds. *)
Definition eqo (a b : option string) : bool :=
  match a, b with
  | Some x, Some y => String.eqb x y
  | None, None => true
  | _, _ => false
  end.

(** [o || null] *)
Definition orNull (o : option string) : option string :=
  if truthy o then o else None.

(** [a || b] on nullable strings *)
Definition orElseO (a b : option string) : option string :=
  if truthy a then a else b.

(** [s || d] on strings *)
Definition orElse (s d : string) : string := if truthyS s then s else d.

End Js.

(** ** Data model *)

Inductive Status := WAITING | DRAWING | GUESSING | DISCONNECTED.

(** The values of [currentGame] that [SET_ACTIVE_GAME] lets through. *)
Inductive Tab := TabDrawing | TabWheel | TabMusic | TabLobby.

Definition parseTab (s : string) : option Tab :=
  if String.eqb s "DRAWING" then Some TabDrawing
  else if String.eqb s "WHEEL" then Some TabWheel
  else if String.eqb s "MUSIC" then Some TabMusic
  else if String.eqb s "LOBBY" then Some TabLobby
  else None.

Definition isWheel (t : Tab) : bool :=
  match t with TabWheel => true | _ => false end.

Record User := mkUser {
  userKey : option string;
  socketId : option string;
  name : string;
  color : string;
  status : Status;
  points : Z;
  currentGame : Tab
}.

(** A stroke segment is relayed and stored, never inspected. *)
Definition Stroke := string.

Record Game := mkGame {
  drawerId : option string;
  guesserId : option string;
  drawerUserKey : option string;
  guesserUserKey : option string;
  currentWord : option string;
  strokes : list Stroke;
  winnerUserKey : option string;
  wrongGuessCount : Z;
  wheelTurnUserKey : option string;
  wheelOptions : list string
}.

(** An absent token is the empty string (both are falsy). *)
Record Session := mkSession {
  accessToken : string;
  refreshToken : string;
  expiresAt : Z
}.

Record Track := mkTrack {
  t_id : string;
  t_uri : string;
  t_name : string;
  t_artists : string;
  t_albumImage : string
}.

Record Suggestion := mkSuggestion {
  suggestionId : string;
  sg_track : Track;
  sg_suggestedByUserKey : option string;
  sg_suggestedByName : string;
  sg_createdAt : Z
}.

Record QueueEntry := mkQueueEntry {
  queueId : string;
  q_track : Track;
  q_suggestedByUserKey : option string;
  q_suggestedByName : string;
  q_acceptedByUserKey : option string;
  q_acceptedAt : Z
}.

Record Music := mkMusic {
  hostUserKey : option string;
  hostSocketId : option string;
  hostName : option string;
  hostDeviceId : option string;
  hasHostSession : bool;
  clientId : option string;
  hostSession : option Session;
  suggestions : list Suggestion;
  queue : list QueueEntry
}.

Record Note := mkNote {
  n_id : string;
  n_userKey : option string;
  n_name : string;
  n_color : string;
  n_text : string;
  n_createdAt : Z
}.

Record Room := mkRoom {
  roomId : string;
  pin : string;
  users : list User;
  game : Game;
  music : Music;
  lobbyNotes : list Note
}.

(** ** Constants *)

Definition MAX_SCORE : Z := 5.
Definition MAX_WRONG_GUESSES : Z := 5.
Definition MAX_LOBBY_NOTES : nat := 50.
Definition MAX_MUSIC_SUGGESTIONS : nat := 100.
Definition MAX_MUSIC_QUEUE : nat := 200.

Definition DEFAULT_WHEEL_OPTIONS : list string :=
  [ "Movie night pick"; "Coffee date challenge"; "Sing one chorus";
    "Tell a fun memory" ].

(** ** Field updates *)

Definition setSocketId (v : option string) (u : User) : User :=
  mkUser (userKey u) v (name u) (color u) (status u) (points u) (currentGame u).
Definition setStatus (v : Status) (u : User) : User :=
  mkUser (userKey u) (socketId u) (name u) (color u) v (points u) (currentGame u).
Definition setPoints (v : Z) (u : User) : User :=
  mkUser (userKey u) (socketId u) (name u) (color u) (status u) v (currentGame u).
Definition setCurrentGame (v : Tab) (u : User) : User :=
  mkUser (userKey u) (socketId u) (name u) (color u) (status u) (points u) v.

Definition setDrawerId (v : option string) (g : Game) : Game :=
  mkGame v (guesserId g) (drawerUserKey g) (guesserUserKey g) (currentWord g)
    (strokes g) (winnerUserKey g) (wrongGuessCount g) (wheelTurnUserKey g)
    (wheelOptions g).
Definition setGuesserId (v : option string) (g : Game) : Game :=
  mkGame (drawerId g) v (drawerUserKey g) (guesserUserKey g) (currentWord g)
    (strokes g) (winnerUserKey g) (wrongGuessCount g) (wheelTurnUserKey g)
    (wheelOptions g).
Definition setStrokes (v : list Stroke) (g : Game) : Game :=
  mkGame (drawerId g) (guesserId g) (drawerUserKey g) (guesserUserKey g)
    (currentWord g) v (winnerUserKey g) (wrongGuessCount g)
    (wheelTurnUserKey g) (wheelOptions g).
Definition setWrongGuessCount (v : Z) (g : Game) : Game :=
  mkGame (drawerId g) (guesserId g) (drawerUserKey g) (guesserUserKey g)
    (currentWord g) (strokes g) (winnerUserKey g) v (wheelTurnUserKey g)
    (wheelOptions g).
Definition setWheelTurnUserKey (v : option string) (g : Game) : Game :=
  mkGame (drawerId g) (guesserId g) (drawerUserKey g) (guesserUserKey g)
    (currentWord g) (strokes g) (winnerUserKey g) (wrongGuessCount g) v
    (wheelOptions g).
Definition setWheelOptions (v : list string) (g : Game) : Game :=
  mkGame (drawerId g) (guesserId g) (drawerUserKey g) (guesserUserKey g)
    (currentWord g) (strokes g) (winnerUserKey g) (wrongGuessCount g)
    (wheelTurnUserKey g) v.

Definition setHostSession (v : option Session) (m : Music) : Music :=
  mkMusic (hostUserKey m) (hostSocketId m) (hostName m) (hostDeviceId m)
    (hasHostSession m) (clientId m) v (suggestions m) (queue m).
Definition setSuggestions (v : list Suggestion) (m : Music) : Music :=
  mkMusic (hostUserKey m) (hostSocketId m) (hostName m) (hostDeviceId m)
    (hasHostSession m) (clientId m) (hostSession m) v (queue m).
Definition setQueue (v : list QueueEntry) (m : Music) : Music :=
  mkMusic (hostUserKey m) (hostSocketId m) (hostName m) (hostDeviceId m)
    (hasHostSession m) (clientId m) (hostSession m) (suggestions m) v.

Definition setUsers (v : list User) (r : Room) : Room :=
  mkRoom (roomId r) (pin r) v (game r) (music r) (lobbyNotes r).
Definition setGame (v : Game) (r : Room) : Room :=
  mkRoom (roomId r) (pin r) (users r) v (music r) (lobbyNotes r).
Definition setMusic (v : Music) (r : Room) : Room :=
  mkRoom (roomId r) (pin r) (users r) (game r) v (lobbyNotes r).
Definition setLobbyNotes (v : list Note) (r : Room) : Room :=
  mkRoom (roomId r) (pin r) (users r) (game r) (music r) v.

(** ** Outbound messages *)

Inductive MusicError :=
  | RoomNotFound
  | UserNotFound
  | HostNotReady
  | TrackUriRequired
  | OnlyHostCanPlay
  | QueueIsEmpty
  | UnsupportedAction
  | SessionMissing          (* "Host Spotify session is missing." *)
  | RefreshFailed           (* "Spotify refresh failed." *)
  | ApiFailed (status : nat)  (* "Spotify API failed (status)." *)
  | Thrown (message : string). (* any other exception; an empty message reads
                                  "Music control failed." *)

(** What a successful control request hands back. *)
Inductive ReplyData :=
  | NoData
  | CurrentTrack (item : string) (isPlaying : bool)
  | SearchResults (items : list Track)
  | Dequeued (entry : QueueEntry).

Inductive Reply :=
  | ReplyOk (data : ReplyData)
  | ReplyFail (error : MusicError).

Inductive Msg :=
  | ROOM_STATE (snapshot : Room)
  | ASSIGN_WORD (word : option string)
  | JOIN_ERROR (message : string)
  | CANVAS_STATE (log : list Stroke)
  | DRAW_OUT (stroke : Stroke)
  | CLEAR_CANVAS
  | WRONG_GUESS (count maxWrong : Z)
  | ROUND_RESULT (word : option string) (scorerUserKey : option string)
      (scorerPoints maxScore : Z)
  | ROUND_SKIPPED (word : option string)
  | GAME_WINNER (winner : option string) (winnerName : string)
      (finalPoints maxScore : Z)
  | GAME_RESTARTED
  | WHEEL_RESULT (prompt : option string) (winnerIndex : nat)
      (spinnerUserKey : option string)
  | MUSIC_ERROR (message : string).

(** [Emit] is [socket.emit], [To x] is [io.to(x).emit] (x a room id or a
    socket id), [Others r] is [socket.to(r).emit] and [Ack] the callback of a
    request. *)
Inductive Out :=
  | Emit (m : Msg)
  | To (target : option string) (m : Msg)
  | Others (room : string) (m : Msg)
  | Ack (r : Reply).

(** ** Helpers of the server *)

Definition randomIndex (rnd n : nat) : nat :=
  if (n =? 0)%nat then 0%nat else (rnd mod n)%nat.

Fixpoint normLoop (options : list string) (seen : gset string)
    (result : list string) : list string :=
  match options with
  | [] => result
  | raw :: rest =>
      let value := Js.slice0 80 (Js.trim raw) in
      if negb (Js.truthyS value) then normLoop rest seen result
      else
        let key := Js.toLowerCase value in
        if bool_decide (key ∈ seen) then normLoop rest seen result
        else
          let result' := result ++ [value] in
          if (24 <=? length result')%nat then result'
          else normLoop rest ({[ key ]} ∪ seen) result'
  end.

Definition normalizeWheelOptions (options : list string) : list string :=
  normLoop options ∅ [].

Definition normalizeLobbyNote (text : string) : string :=
  Js.slice0 220 (Js.trim text).

Definition normalizeTrackCandidate (track : option Track) : option Track :=
  match track with
  | None => None
  | Some t =>
      let uri := Js.trim (t_uri t) in
      let nm := Js.slice0 160 (Js.trim (t_name t)) in
      if negb (Js.truthyS uri) || negb (Js.truthyS nm) then None
      else if negb (Js.startsWith uri "spotify:track:") then None
      else Some (mkTrack (Js.slice0 120 (Js.trim (t_id t))) uri nm
                   (Js.slice0 220 (Js.trim (t_artists t)))
                   (Js.slice0 500 (Js.trim (t_albumImage t))))
  end.

(** [arr.slice(-n)] *)
Definition sliceLast {A} (n : nat) (l : list A) : list A :=
  drop (length l - n) l.

(** [users.find(u => u.userKey === k)] *)
Definition findByKey (k : option string) (us : list User) : option User :=
  List.find (fun u => Js.eqo k (userKey u)) us.

(** [users.find(u => u.socketId === socket.id)] *)
Definition bySocket (sid : string) (u : User) : bool :=
  match socketId u with
  | Some s => String.eqb s sid
  | None => false
  end.

Definition findBySocket (sid : string) (us : list User) : option User :=
  List.find (bySocket sid) us.

(** The object that [find] returns is updated in place: the first element
    that satisfies [p]. *)
Fixpoint updFirst (p : User -> bool) (f : User -> User) (us : list User)
    : list User :=
  match us with
  | [] => []
  | u :: rest => if p u then f u :: rest else u :: updFirst p f rest
  end.

Definition connected (u : User) : bool := Js.truthy (socketId u).

Definition onWheel (u : User) : bool := connected u && isWheel (currentGame u).

Definition statusOf (g : Game) (u : User) : Status :=
  if Js.eqo (drawerUserKey g) (userKey u) then
    if connected u then DRAWING else DISCONNECTED
  else if Js.eqo (guesserUserKey g) (userKey u) then
    if connected u then GUESSING else DISCONNECTED
  else
    if connected u then WAITING else DISCONNECTED.

Definition syncStatuses (room : Room) : Room :=
  setUsers (map (fun u => setStatus (statusOf (game room) u) u) (users room))
    room.

Definition syncWheelTurn (room : Room) : Room :=
  let wheelUsers := List.filter onWheel (users room) in
  match wheelUsers with
  | [] => setGame (setWheelTurnUserKey None (game room)) room
  | first :: _ =>
      let hasCurrentTurn :=
        existsb (fun u => Js.eqo (wheelTurnUserKey (game room)) (userKey u))
          wheelUsers in
      if hasCurrentTurn then room
      else setGame (setWheelTurnUserKey (userKey first) (game room)) room
  end.

Section Server.

(** The word list of [./words], which is not part of this development. *)
Variable words : list string.

Definition randomWord (rnd : nat) : option string :=
  words !! randomIndex rnd (length words).

Definition rotateRoles (rnd : nat) (room : Room) : Room :=
  let g := game room in
  let nextDrawerUserKey := guesserUserKey g in
  let nextGuesserUserKey := drawerUserKey g in
  let nextDrawer := findByKey nextDrawerUserKey (users room) in
  let nextGuesser := findByKey nextGuesserUserKey (users room) in
  syncStatuses
    (setGame
       (mkGame (Js.orNull (nextDrawer ≫= socketId))
          (Js.orNull (nextGuesser ≫= socketId))
          nextDrawerUserKey nextGuesserUserKey (randomWord rnd) [] None 0
          (wheelTurnUserKey g) (wheelOptions g))
       room).

Definition startRound (rnd : nat) (room : Room) : Room :=
  let g := game room in
  let connectedUsers := List.filter connected (users room) in
  match connectedUsers with
  | u1 :: u2 :: _ =>
      syncStatuses
        (setGame
           (mkGame (socketId u1) (socketId u2) (userKey u1)
              (userKey u2) (randomWord rnd) [] None 0
              (wheelTurnUserKey g) (wheelOptions g))
           room)
  | _ =>
      syncStatuses
        (setGame
           (mkGame None None None None None [] None (wrongGuessCount g)
              (wheelTurnUserKey g) (wheelOptions g))
           room)
  end.

(** [if (room.game.drawerId) io.to(room.game.drawerId).emit(...)], the message
    being the word for the drawer *)
Definition assignWord (room : Room) : list Out :=
  if Js.truthy (drawerId (game room)) then
    [To (drawerId (game room)) (ASSIGN_WORD (currentWord (game room)))]
  else [].

(** The room a first join (or [CREATE_ROOM]) builds. *)
Definition newUser (sid : string) (ukey : option string)
    (uname ucolor : string) : User :=
  mkUser ukey (Some sid) uname ucolor WAITING 0 TabDrawing.

Definition newRoom (sid rid rpin uname ucolor : string)
    (ukey : option string) : Room :=
  mkRoom rid rpin [newUser sid ukey uname ucolor]
    (mkGame None None None None None [] None 0 None DEFAULT_WHEEL_OPTIONS)
    (mkMusic None None None None false None None [] [])
    [].

(** *** Handlers on an existing room

    Each takes the id of the calling socket and the payload, and returns the
    room after the handler with the messages it sent.  A handler that
    returns early leaves the room as it is and sends nothing. *)

Definition Handler := Room -> Room * list Out.

Definition onJoinExisting (sid rid rpin uname ucolor : string)
    (ukey : option string) (rnd : nat) : Handler := fun room =>
  if negb (String.eqb (pin room) rpin) then
    (room, [Emit (JOIN_ERROR "Invalid PIN for this room.")])
  else
    let admitted :=
      match List.find (fun u => Js.eqo (userKey u) ukey) (users room) with
      | Some user =>
          (* rejoin: rebind the socket and the live role ids *)
          let us := updFirst (fun u => Js.eqo (userKey u) ukey)
                      (setSocketId (Some sid)) (users room) in
          let g := game room in
          let g := if Js.eqo (drawerUserKey g) (userKey user)
                   then setDrawerId (Some sid) g else g in
          let g := if Js.eqo (guesserUserKey g) (userKey user)
                   then setGuesserId (Some sid) g else g in
          Some (setGame g (setUsers us room))
      | None =>
          if (2 <=? length (users room))%nat then None
          else Some (setUsers (users room ++ [newUser sid ukey uname ucolor])
                       room)
      end in
    match admitted with
    | None => (room, [Emit (JOIN_ERROR "Room is full.")])
    | Some room1 =>
        (* start game if ready *)
        let started :=
          match users room1 with
          | [u1; u2] =>
              if negb (Js.truthy (drawerUserKey (game room1))) then
                let g := game room1 in
                let g' := mkGame (socketId u1) (socketId u2)
                            (userKey u1) (userKey u2)
                            (randomWord rnd) (strokes g) None
                            (wrongGuessCount g) (wheelTurnUserKey g)
                            (wheelOptions g) in
                (setGame g' room1,
                 [To (socketId u1) (ASSIGN_WORD (randomWord rnd))])
              else (room1, [])
          | _ => (room1, [])
          end in
        let room2 := started.1 in
        let resend :=
          if Js.truthy (currentWord (game room2))
             && Js.eqo (drawerUserKey (game room2)) ukey
          then [To (Some sid) (ASSIGN_WORD (currentWord (game room2)))]
          else [] in
        let room3 := syncWheelTurn (syncStatuses room2) in
        (room3,
         started.2 ++ resend
           ++ [To (Some sid) (CANVAS_STATE (strokes (game room2)));
               Emit (ROOM_STATE room3); To (Some rid) (ROOM_STATE room3)])
    end.

Definition onDraw (sid rid : string) (stroke : Stroke) : Handler := fun room =>
  if negb (Js.eqs (drawerId (game room)) sid) then (room, [])
  else
    (setGame (setStrokes (strokes (game room) ++ [stroke]) (game room)) room,
     [Others rid (DRAW_OUT stroke)]).

Definition onClearCanvasRequest (sid rid : string) : Handler := fun room =>
  if negb (Js.eqs (drawerId (game room)) sid) then (room, [])
  else (setGame (setStrokes [] (game room)) room, [To (Some rid) CLEAR_CANVAS]).

(** The test of the GUESS handler:
    [guess.toLowerCase().trim() !== room.game.currentWord.toLowerCase()]. *)
Definition guessMatches (guess word : string) : bool :=
  String.eqb (Js.trim (Js.toLowerCase guess)) (Js.toLowerCase word).

(** The three guards GUESS and SKIP_ROUND share. *)
Definition guessAccepted (sid : string) (room : Room) : bool :=
  Js.truthy (currentWord (game room))
  && Js.truthy (drawerUserKey (game room))
  && Js.truthy (guesserUserKey (game room))
  && Js.eqs (guesserId (game room)) sid.

Definition skipOuts (rid : string) (skippedWord : option string)
    (room : Room) : list Out :=
  [To (Some rid) (ROUND_SKIPPED skippedWord)] ++ assignWord room
    ++ [To (Some rid) CLEAR_CANVAS; To (Some rid) (ROOM_STATE room)].

Definition onGuess (sid rid guess : string) (rnd : nat) : Handler := fun room =>
  let g := game room in
  if negb (guessAccepted sid room) then (room, [])
  else
    match currentWord g with
    | None => (room, [])
    | Some word =>
        if negb (guessMatches guess word) then
          let count := wrongGuessCount g + 1 in
          let room1 := setGame (setWrongGuessCount count g) room in
          if MAX_WRONG_GUESSES <=? count then
            let room2 := rotateRoles rnd room1 in
            (room2, skipOuts rid (Some word) room2)
          else
            (room1, [To (Some sid) (WRONG_GUESS count MAX_WRONG_GUESSES)])
        else
          match findByKey (guesserUserKey g) (users room) with
          | None => (room, [])
          | Some guesser =>
              let score := points guesser + 1 in
              let us := updFirst (fun u => Js.eqo (guesserUserKey g) (userKey u))
                          (setPoints score) (users room) in
              if MAX_SCORE <=? score then
                let g' := mkGame None None None None None []
                            (userKey guesser) 0 (wheelTurnUserKey g)
                            (wheelOptions g) in
                let us' := map (fun u => setStatus
                                 (if connected u then WAITING else DISCONNECTED) u)
                             us in
                let room' := setGame g' (setUsers us' room) in
                (room',
                 [To (Some rid) CLEAR_CANVAS;
                  To (Some rid) (GAME_WINNER (userKey guesser) (name guesser)
                                   score MAX_SCORE);
                  To (Some rid) (ROOM_STATE room')])
              else
                let room' := rotateRoles rnd (setUsers us room) in
                (room',
                 [To (Some rid) (ROUND_RESULT (Some word) (userKey guesser)
                                   score MAX_SCORE)]
                   ++ assignWord room'
                   ++ [To (Some rid) CLEAR_CANVAS;
                       To (Some rid) (ROOM_STATE room')])
          end
    end.

Definition onSkipRound (sid rid : string) (rnd : nat) : Handler := fun room =>
  if negb (guessAccepted sid room) then (room, [])
  else
    let room' := rotateRoles rnd room in
    (room', skipOuts rid (currentWord (game room)) room').

Definition onRestartGame (sid rid : string) (rnd : nat) : Handler := fun room =>
  match findBySocket sid (users room) with
  | None => (room, [])
  | Some requester =>
      let room1 := setUsers (map (setPoints 0) (users room)) room in
      let room' := syncWheelTurn (startRound rnd room1) in
      (room',
       assignWord room'
         ++ [To (Some rid) CLEAR_CANVAS; To (Some rid) GAME_RESTARTED;
             To (Some rid) (ROOM_STATE room')])
  end.

Definition onSetActiveGame (sid rid tab : string) : Handler := fun room =>
  match parseTab tab with
  | None => (room, [])
  | Some t =>
      match findBySocket sid (users room) with
      | None => (room, [])
      | Some user =>
          let us := updFirst (bySocket sid) (setCurrentGame t) (users room) in
          let room' := syncWheelTurn (setUsers us room) in
          (room', [To (Some rid) (ROOM_STATE room')])
      end
  end.

Definition onSetWheelOptions (sid rid : string) (options : list string)
    : Handler := fun room =>
  match findBySocket sid (users room) with
  | None => (room, [])
  | Some user =>
      match normalizeWheelOptions options with
      | [] => (room, [])
      | nextOptions =>
          let room' := setGame (setWheelOptions nextOptions (game room)) room in
          (room', [To (Some rid) (ROOM_STATE room')])
      end
  end.

Definition onSpinWheel (sid rid : string) (rnd : nat) : Handler := fun room =>
  match findBySocket sid (users room) with
  | None => (room, [])
  | Some spinner =>
      if negb (isWheel (currentGame spinner)) then (room, [])
      else
        let room1 := syncWheelTurn room in
        match normalizeWheelOptions (wheelOptions (game room1)) with
        | [] => (room1, [])
        | options =>
            let winnerIndex := randomIndex rnd (length options) in
            let wheelUsers := List.filter onWheel (users room1) in
            let turn :=
              if (2 <=? length wheelUsers)%nat then
                match List.find
                        (fun u => negb (Js.eqo (userKey u) (userKey spinner)))
                        wheelUsers with
                | Some nextSpinner =>
                    Js.orElseO (userKey nextSpinner) (userKey spinner)
                | None => userKey spinner
                end
              else userKey spinner in
            let room' :=
              setGame (setWheelTurnUserKey turn
                         (setWheelOptions options (game room1))) room1 in
            (room',
             [To (Some rid) (WHEEL_RESULT (options !! winnerIndex) winnerIndex
                               (userKey spinner));
              To (Some rid) (ROOM_STATE room')])
        end
  end.

(** *** Music host *)

(** [!!room.music.hostSession?.accessToken] *)
Definition hasToken (s : option Session) : bool :=
  match s with
  | Some x => Js.truthyS (accessToken x)
  | None => false
  end.

(** The holder that blocks a claim: a host other than the claimant who is
    registered and connected. *)
Definition blockingHost (user : User) (room : Room) : option User :=
  let currentHostKey := hostUserKey (music room) in
  if Js.truthy currentHostKey && negb (Js.eqo currentHostKey (userKey user))
  then
    match findByKey currentHostKey (users room) with
    | Some currentHost =>
        if connected currentHost then Some currentHost else None
    | None => None
    end
  else None.

Definition alreadyHosting (currentHost : User) : string :=
  String.append (Js.orElse (name currentHost) "Current host")
    " is already hosting Spotify.".

Definition onClaimMusicHost (sid rid : string) : Handler := fun room =>
  match findBySocket sid (users room) with
  | None => (room, [])
  | Some user =>
      match blockingHost user room with
      | Some currentHost =>
          (room, [Emit (MUSIC_ERROR (alreadyHosting currentHost))])
      | None =>
          let m := music room in
          let m' := mkMusic (userKey user) (Some sid)
                      (Some (name user)) None (hasToken (hostSession m))
                      (clientId m) (hostSession m) (suggestions m) (queue m) in
          let room' := setMusic m' room in
          (room', [To (Some rid) (ROOM_STATE room')])
      end
  end.

Definition isHost (user : User) (room : Room) : bool :=
  Js.eqo (hostUserKey (music room)) (userKey user).

Definition onReleaseMusicHost (sid rid : string) : Handler := fun room =>
  match findBySocket sid (users room) with
  | None => (room, [])
  | Some user =>
      if negb (isHost user room) then (room, [])
      else
        let m := music room in
        let m' := mkMusic None None None None false None None
                    (suggestions m) (queue m) in
        let room' := setMusic m' room in
        (room', [To (Some rid) (ROOM_STATE room')])
  end.

(** [makeId(prefix)]: the time stamp and the random suffix are the [fresh]
    input. *)
Definition makeId (prefix fresh : string) : string :=
  String.append prefix (String.append "-" fresh).

Definition onMusicSuggestTrack (sid rid : string) (track : option Track)
    (fresh : string) (now : Z) : Handler := fun room =>
  match findBySocket sid (users room) with
  | None => (room, [])
  | Some user =>
      match normalizeTrackCandidate track with
      | None => (room, [])
      | Some normalized =>
          let m := music room in
          let pushed := suggestions m
                        ++ [mkSuggestion (makeId "sg" fresh) normalized
                              (userKey user) (name user) now] in
          let bounded :=
            if (MAX_MUSIC_SUGGESTIONS <? length pushed)%nat
            then sliceLast MAX_MUSIC_SUGGESTIONS pushed else pushed in
          let room' := setMusic (setSuggestions bounded m) room in
          (room', [To (Some rid) (ROOM_STATE room')])
      end
  end.

Definition pushQueue (entry : QueueEntry) (q : list QueueEntry)
    : list QueueEntry :=
  let pushed := q ++ [entry] in
  if (MAX_MUSIC_QUEUE <? length pushed)%nat
  then sliceLast MAX_MUSIC_QUEUE pushed else pushed.

Definition onMusicAcceptSuggestion (sid rid suggestion fresh : string)
    (now : Z) : Handler := fun room =>
  match findBySocket sid (users room) with
  | None => (room, [])
  | Some user =>
      if negb (isHost user room) then (room, [])
      else
        let m := music room in
        match list_find (fun s => suggestionId s = suggestion)
                (suggestions m) with
        | None => (room, [])
        | Some (idx, sg) =>
            let entry := mkQueueEntry (makeId "q" fresh) (sg_track sg)
                           (sg_suggestedByUserKey sg) (sg_suggestedByName sg)
                           (userKey user) now in
            let m' := setQueue (pushQueue entry (queue m))
                        (setSuggestions (delete idx (suggestions m)) m) in
            let room' := setMusic m' room in
            (room', [To (Some rid) (ROOM_STATE room')])
        end
  end.

Definition onMusicRejectSuggestion (sid rid suggestion : string)
    : Handler := fun room =>
  match findBySocket sid (users room) with
  | None => (room, [])
  | Some user =>
      if negb (isHost user room) then (room, [])
      else
        let m := music room in
        let kept := List.filter
                      (fun s => negb (String.eqb (suggestionId s) suggestion))
                      (suggestions m) in
        let room' := setMusic (setSuggestions kept m) room in
        (room', [To (Some rid) (ROOM_STATE room')])
  end.

Definition onMusicAddToQueue (sid rid : string) (track : option Track)
    (fresh : string) (now : Z) : Handler := fun room =>
  match findBySocket sid (users room) with
  | None => (room, [])
  | Some user =>
      if negb (isHost user room) then (room, [])
      else
        match normalizeTrackCandidate track with
        | None => (room, [])
        | Some normalized =>
            let m := music room in
            let entry := mkQueueEntry (makeId "q" fresh) normalized
                           (userKey user) (name user) (userKey user) now in
            let room' := setMusic (setQueue (pushQueue entry (queue m)) m)
                           room in
            (room', [To (Some rid) (ROOM_STATE room')])
        end
  end.

(** [String(a || b || empty)], with the empty string as the last resort *)
Definition firstTruthy (a b : option string) : string :=
  if Js.truthy a then default EmptyString a
  else if Js.truthy b then default EmptyString b else EmptyString.

Definition onSpotifyHostSessionUpdate (sid rid : string)
    (client : option string) (session : option Session)
    : Handler := fun room =>
  match findBySocket sid (users room) with
  | None => (room, [])
  | Some user =>
      if negb (isHost user room) then (room, [])
      else
        let m := music room in
        let m' :=
          if negb (hasToken session) then
            mkMusic (hostUserKey m) (Some sid) (hostName m) None false
              (Some (firstTruthy client (clientId m))) None
              (suggestions m) (queue m)
          else
            mkMusic (hostUserKey m) (Some sid) (hostName m) (hostDeviceId m)
              true (Some (firstTruthy client None)) session
              (suggestions m) (queue m) in
        let room' := setMusic m' room in
        (room', [To (Some rid) (ROOM_STATE room')])
  end.

Definition onSpotifyHostDeviceUpdate (sid rid : string)
    (device : option string) : Handler := fun room =>
  match findBySocket sid (users room) with
  | None => (room, [])
  | Some user =>
      if negb (isHost user room) then (room, [])
      else
        let m := music room in
        let m' := mkMusic (hostUserKey m) (Some sid) (hostName m)
                    (Js.orNull device) (hasHostSession m) (clientId m)
                    (hostSession m) (suggestions m) (queue m) in
        let room' := setMusic m' room in
        (room', [To (Some rid) (ROOM_STATE room')])
  end.

(** *** Lobby notes *)

Definition onAddLobbyNote (sid rid text fresh : string) (now : Z)
    : Handler := fun room =>
  match findBySocket sid (users room) with
  | None => (room, [])
  | Some user =>
      let content := normalizeLobbyNote text in
      if negb (Js.truthyS content) then (room, [])
      else
        let pushed := lobbyNotes room
                      ++ [mkNote fresh (userKey user) (name user) (color user)
                            content now] in
        let bounded :=
          if (MAX_LOBBY_NOTES <? length pushed)%nat
          then sliceLast MAX_LOBBY_NOTES pushed else pushed in
        let room' := setLobbyNotes bounded room in
        (room', [To (Some rid) (ROOM_STATE room')])
  end.

Definition onDeleteLobbyNote (sid rid note : string) : Handler := fun room =>
  match findBySocket sid (users room) with
  | None => (room, [])
  | Some user =>
      let kept := List.filter
                    (fun n => negb (String.eqb (n_id n) note
                                    && Js.eqo (n_userKey n) (userKey user)))
                    (lobbyNotes room) in
      let room' := setLobbyNotes kept room in
      (room', [To (Some rid) (ROOM_STATE room')])
  end.

(** *** Disconnect: run on every room that holds the socket *)

Definition onDisconnectRoom (sid : string) : Handler := fun room =>
  match findBySocket sid (users room) with
  | None => (room, [])
  | Some user =>
      let g := game room in
      let g := if Js.eqs (drawerId g) sid then setDrawerId None g else g in
      let g := if Js.eqs (guesserId g) sid then setGuesserId None g else g in
      let us := updFirst (bySocket sid) (setSocketId None) (users room) in
      let m := music room in
      let m' :=
        if Js.eqo (hostUserKey m) (userKey user) then
          mkMusic (hostUserKey m) None (hostName m) None false None None
            (suggestions m) (queue m)
        else m in
      let room' :=
        syncWheelTurn
          (syncStatuses (setMusic m' (setGame g (setUsers us room)))) in
      (room', [To (Some (roomId room')) (ROOM_STATE room')])
  end.

(** *** Music control requests

    The handler awaits the music provider.  The provider's answers are an
    input: the outcomes of the token refreshes and of the API calls, in the
    order in which the handler makes them.  The handler runs in a state and
    exception monad over the room and the answers not yet consumed; what is
    written to the room before a [throw] stays written, as in the source,
    where the [catch] only reports the failure. *)

Inductive RefreshRes :=
  | RefreshRejected                       (* [!res.ok] *)
  | RefreshGranted (access_token refresh_token : string) (expires_in : Z).

Record Body := mkBody {
  item : option string;
  is_playing : bool;
  tracks : list Track
}.

Inductive FetchRes :=
  | NoContent                             (* status 204 *)
  | NotOk (status : nat)                  (* [!res.ok] *)
  | Json (body : Body)
  | NetworkError (message : string).      (* [fetch] itself throws *)

Record World := mkWorld {
  w_room : Room;
  w_refreshes : list RefreshRes;
  w_fetches : list FetchRes
}.

Definition M (A : Type) : Type := World -> (MusicError + A) * World.

Definition ret {A} (a : A) : M A := fun w => (inr a, w).
Definition throw {A} (e : MusicError) : M A := fun w => (inl e, w).
Definition bind {A B} (m : M A) (k : A -> M B) : M B := fun w =>
  match m w with
  | (inl e, w') => (inl e, w')
  | (inr a, w') => k a w'
  end.
Definition getRoom : M Room := fun w => (inr (w_room w), w).
Definition putRoom (r : Room) : M unit := fun w =>
  (inr tt, mkWorld r (w_refreshes w) (w_fetches w)).

Notation "x <- m ;; k" := (bind m (fun x => k))
  (at level 100, m at next level, right associativity).
Notation "m ;;; k" := (bind m (fun _ => k))
  (at level 100, right associativity).

Definition nextRefresh : M RefreshRes := fun w =>
  match w_refreshes w with
  | r :: rest => (inr r, mkWorld (w_room w) rest (w_fetches w))
  | [] => (inl (Thrown "fetch failed"), w)
  end.

Definition nextFetch : M FetchRes := fun w =>
  match w_fetches w with
  | r :: rest => (inr r, mkWorld (w_room w) (w_refreshes w) rest)
  | [] => (inl (Thrown "fetch failed"), w)
  end.

Definition refreshSpotifySession (now : Z) (client : option string)
    (refresh : string) : M (option Session) :=
  if negb (Js.truthy client) || negb (Js.truthyS refresh) then ret None
  else
    res <- nextRefresh ;;
    match res with
    | RefreshRejected => throw RefreshFailed
    | RefreshGranted a r e =>
        ret (Some (mkSession a (Js.orElse r refresh) (now + e * 1000)))
    end.

Definition ensureRoomSpotifySession (now : Z) : M (option Session) :=
  room <- getRoom ;;
  match hostSession (music room) with
  | None => ret None
  | Some session =>
      if negb (Js.truthyS (accessToken session)) then ret None
      else if now <=? expiresAt session - 30000 then ret (Some session)
      else
        next <- refreshSpotifySession now (clientId (music room))
                  (refreshToken session) ;;
        match next with
        | None => ret None
        | Some n =>
            (* [room.music.hostSession = next] on the room as it is now *)
            cur <- getRoom ;;
            putRoom (setMusic (setHostSession (Some n) (music cur)) cur) ;;;
            ret (Some n)
        end
  end.

Definition spotifyHostFetch (now : Z) : M (option Body) :=
  session <- ensureRoomSpotifySession now ;;
  if negb (hasToken session) then throw SessionMissing
  else
    res <- nextFetch ;;
    match res with
    | NoContent => ret None
    | NotOk st => throw (ApiFailed st)
    | Json b => ret (Some b)
    | NetworkError msg => throw (Thrown msg)
    end.

Record Payload := mkPayload { p_query : string; p_uri : string }.

(** The body of the [try] block. *)
Definition musicControl (rid action : string) (payload : Payload) (now : Z)
    (user : User) : M (list Out) :=
  if String.eqb action "CURRENT_TRACK" then
    data <- spotifyHostFetch now ;;
    match data with
    | Some (mkBody (Some it) playing _) =>
        ret [Ack (ReplyOk (CurrentTrack it playing))]
    | _ => ret [Ack (ReplyOk NoData)]
    end
  else if String.eqb action "SEARCH" then
    if negb (Js.truthyS (Js.trim (p_query payload))) then
      ret [Ack (ReplyOk (SearchResults []))]
    else
      data <- spotifyHostFetch now ;;
      ret [Ack (ReplyOk (SearchResults (from_option tracks [] data)))]
  else if String.eqb action "PLAY_URI" then
    if negb (Js.truthyS (p_uri payload)) then
      ret [Ack (ReplyFail TrackUriRequired)]
    else
      spotifyHostFetch now ;;; ret [Ack (ReplyOk NoData)]
  else if String.eqb action "PLAY_QUEUED_NEXT" then
    room <- getRoom ;;
    if negb (isHost user room) then ret [Ack (ReplyFail OnlyHostCanPlay)]
    else
      match queue (music room) with
      | [] => ret [Ack (ReplyFail QueueIsEmpty)]
      | next :: rest =>
          (* [room.music.queue.shift()] comes before the awaited call *)
          putRoom (setMusic (setQueue rest (music room)) room) ;;;
          spotifyHostFetch now ;;;
          room' <- getRoom ;;
          ret [To (Some rid) (ROOM_STATE room'); Ack (ReplyOk (Dequeued next))]
      end
  else if String.eqb action "TOGGLE_PLAY_PAUSE" then
    spotifyHostFetch now ;;;
    spotifyHostFetch now ;;;
    ret [Ack (ReplyOk NoData)]
  else if String.eqb action "NEXT" || String.eqb action "PREV" then
    spotifyHostFetch now ;;; ret [Ack (ReplyOk NoData)]
  else ret [Ack (ReplyFail UnsupportedAction)].

Definition onMusicControlRequest (sid rid action : string)
    (payload : Payload) (now : Z) (refreshes : list RefreshRes)
    (fetches : list FetchRes) : Handler := fun room =>
  match findBySocket sid (users room) with
  | None => (room, [Ack (ReplyFail UserNotFound)])
  | Some user =>
      if negb (Js.truthy (hostUserKey (music room)))
         || negb (hasHostSession (music room))
      then (room, [Ack (ReplyFail HostNotReady)])
      else
        match musicControl rid action payload now user
                (mkWorld room refreshes fetches) with
        | (inr outs, w) => (w_room w, outs)
        | (inl err, w) => (w_room w, [Ack (ReplyFail err)])   (* catch *)
        end
  end.

(** ** The registry and the dispatch of events *)

Inductive Event :=
  | CREATE_ROOM (rid rpin uname ucolor : string) (ukey : option string)
  | JOIN_ROOM (rid rpin uname ucolor : string) (ukey : option string)
  | DRAW (rid : string) (stroke : Stroke)
  | CLEAR_CANVAS_REQUEST (rid : string)
  | GUESS (rid guess : string)
  | SKIP_ROUND (rid : string)
  | RESTART_GAME (rid : string)
  | SET_ACTIVE_GAME (rid tab : string)
  | CLAIM_MUSIC_HOST (rid : string)
  | RELEASE_MUSIC_HOST (rid : string)
  | MUSIC_SUGGEST_TRACK (rid : string) (track : option Track)
  | MUSIC_ACCEPT_SUGGESTION (rid suggestion : string)
  | MUSIC_REJECT_SUGGESTION (rid suggestion : string)
  | MUSIC_ADD_TO_QUEUE (rid : string) (track : option Track)
  | SPOTIFY_HOST_SESSION_UPDATE (rid : string) (client : option string)
      (session : option Session)
  | SPOTIFY_HOST_DEVICE_UPDATE (rid : string) (device : option string)
  | MUSIC_CONTROL_REQUEST (rid action : string) (payload : Payload)
  | SET_WHEEL_OPTIONS (rid : string) (options : list string)
  | ADD_LOBBY_NOTE (rid text : string)
  | DELETE_LOBBY_NOTE (rid note : string)
  | SPIN_WHEEL (rid : string)
  | DISCONNECT.

(** What the environment supplies to one handler run. *)
Record Oracle := mkOracle {
  rnd : nat;                       (* [Math.random] *)
  now : Z;                         (* [Date.now] *)
  fresh : string;                  (* the suffix of a new id *)
  refreshes : list RefreshRes;
  fetches : list FetchRes
}.

(** The room id an event names; a disconnect names none. *)
Definition target (e : Event) : option string :=
  match e with
  | CREATE_ROOM rid _ _ _ _ | JOIN_ROOM rid _ _ _ _ | DRAW rid _
  | CLEAR_CANVAS_REQUEST rid | GUESS rid _ | SKIP_ROUND rid
  | RESTART_GAME rid | SET_ACTIVE_GAME rid _ | CLAIM_MUSIC_HOST rid
  | RELEASE_MUSIC_HOST rid | MUSIC_SUGGEST_TRACK rid _
  | MUSIC_ACCEPT_SUGGESTION rid _ | MUSIC_REJECT_SUGGESTION rid _
  | MUSIC_ADD_TO_QUEUE rid _ | SPOTIFY_HOST_SESSION_UPDATE rid _ _
  | SPOTIFY_HOST_DEVICE_UPDATE rid _ | MUSIC_CONTROL_REQUEST rid _ _
  | SET_WHEEL_OPTIONS rid _ | ADD_LOBBY_NOTE rid _ | DELETE_LOBBY_NOTE rid _
  | SPIN_WHEEL rid => Some rid
  | DISCONNECT => None
  end.

(** What an event does to a room that exists. *)
Definition handler (sid : string) (o : Oracle) (e : Event) : Handler :=
  match e with
  | CREATE_ROOM _ _ _ _ _ => fun room => (room, [])
  | JOIN_ROOM rid rpin uname ucolor ukey =>
      onJoinExisting sid rid rpin uname ucolor ukey (rnd o)
  | DRAW rid stroke => onDraw sid rid stroke
  | CLEAR_CANVAS_REQUEST rid => onClearCanvasRequest sid rid
  | GUESS rid guess => onGuess sid rid guess (rnd o)
  | SKIP_ROUND rid => onSkipRound sid rid (rnd o)
  | RESTART_GAME rid => onRestartGame sid rid (rnd o)
  | SET_ACTIVE_GAME rid tab => onSetActiveGame sid rid tab
  | CLAIM_MUSIC_HOST rid => onClaimMusicHost sid rid
  | RELEASE_MUSIC_HOST rid => onReleaseMusicHost sid rid
  | MUSIC_SUGGEST_TRACK rid track =>
      onMusicSuggestTrack sid rid track (fresh o) (now o)
  | MUSIC_ACCEPT_SUGGESTION rid suggestion =>
      onMusicAcceptSuggestion sid rid suggestion (fresh o) (now o)
  | MUSIC_REJECT_SUGGESTION rid suggestion =>
      onMusicRejectSuggestion sid rid suggestion
  | MUSIC_ADD_TO_QUEUE rid track =>
      onMusicAddToQueue sid rid track (fresh o) (now o)
  | SPOTIFY_HOST_SESSION_UPDATE rid client session =>
      onSpotifyHostSessionUpdate sid rid client session
  | SPOTIFY_HOST_DEVICE_UPDATE rid device =>
      onSpotifyHostDeviceUpdate sid rid device
  | MUSIC_CONTROL_REQUEST rid action payload =>
      onMusicControlRequest sid rid action payload (now o) (refreshes o)
        (fetches o)
  | SET_WHEEL_OPTIONS rid options => onSetWheelOptions sid rid options
  | ADD_LOBBY_NOTE rid text => onAddLobbyNote sid rid text (fresh o) (now o)
  | DELETE_LOBBY_NOTE rid note => onDeleteLobbyNote sid rid note
  | SPIN_WHEEL rid => onSpinWheel sid rid (rnd o)
  | DISCONNECT => onDisconnectRoom sid
  end.

(** What an event does when [rooms[roomId]] is missing: the two joining
    events create the room, a control request answers, the others return. *)
Definition onMissing (sid : string) (e : Event) : option Room * list Out :=
  match e with
  | CREATE_ROOM rid rpin uname ucolor ukey =>
      let room := newRoom sid rid rpin uname ucolor ukey in
      (Some room, [To (Some rid) (ROOM_STATE room)])
  | JOIN_ROOM rid rpin uname ucolor ukey =>
      let room := newRoom sid rid rpin uname ucolor ukey in
      (Some room, [Emit (ROOM_STATE room); To (Some rid) (ROOM_STATE room)])
  | MUSIC_CONTROL_REQUEST _ _ _ => (None, [Ack (ReplyFail RoomNotFound)])
  | _ => (None, [])
  end.

(** The registry [rooms] is a finite map from room ids to rooms.  A
    disconnect visits every room; the order of its broadcasts to
    different rooms is that of [map_to_list]. *)
Definition step (sid : string) (o : Oracle) (e : Event)
    (rooms : gmap string Room) : gmap string Room * list Out :=
  match target e with
  | Some rid =>
      match rooms !! rid with
      | Some room =>
          let res := handler sid o e room in (<[rid := res.1]> rooms, res.2)
      | None =>
          match onMissing sid e with
          | (Some room, outs) => (<[rid := room]> rooms, outs)
          | (None, outs) => (rooms, outs)
          end
      end
  | None =>
      ((fun room => (handler sid o e room).1) <$> rooms,
       concat ((fun kv => (handler sid o e kv.2).2) <$> map_to_list rooms))
  end.

(** One inbound event: the socket it comes from, what the environment
    answers while it is handled, and the event. *)
Record Input := mkInput {
  i_socket : string;
  i_oracle : Oracle;
  i_event : Event
}.

(** The server handles the events one after the other. *)
Fixpoint run (inputs : list Input) (rooms : gmap string Room)
    : gmap string Room * list Out :=
  match inputs with
  | [] => (rooms, [])
  | i :: rest =>
      let res := step (i_socket i) (i_oracle i) (i_event i) rooms in
      let res' := run rest res.1 in
      (res'.1, res.2 ++ res'.2)
  end.

End Server.

(** ** Control requests, one provider answer at a time

    [onMusicControlRequest] runs a control request with the provider's
    answers at hand.  On the server the handler is suspended at every
    awaited [fetch], and other events are handled before the answer
    arrives.  Here the handler is cut at these points: [startMusicControl]
    is the part that runs when the event arrives, [resume] the part that
    runs when an answer arrives, on the room as it is then and with the
    clock of then. *)

(** What the handler does with the data of an API call. *)
Inductive Purpose :=
  | ForCurrentTrack                 (* CURRENT_TRACK *)
  | ForSearch                       (* SEARCH *)
  | ForPlay                         (* PLAY_URI, NEXT, PREV, and the second
                                       call of TOGGLE_PLAY_PAUSE *)
  | ForQueued (next : QueueEntry)   (* PLAY_QUEUED_NEXT, [next] shifted *)
  | ForToggle.                      (* the first call of TOGGLE_PLAY_PAUSE *)

(** A suspended request: in [refreshSpotifySession], at the [fetch] of the
    token endpoint, with the refresh token it was called with; or in
    [spotifyHostFetch], at the [fetch] of the API. *)
Inductive Pending :=
  | AwaitsToken (rid refresh : string) (purpose : Purpose)
  | AwaitsApi (rid : string) (purpose : Purpose).

Definition p_room (p : Pending) : string :=
  match p with AwaitsToken rid _ _ | AwaitsApi rid _ => rid end.

(** The outcome of an awaited [fetch]. *)
Inductive Answer :=
  | Token (res : RefreshRes)        (* the token endpoint answered *)
  | Api (res : FetchRes)            (* the API answered *)
  | Failed.                         (* the [fetch] threw: "fetch failed" *)

(** One run of the handler between two suspensions: the room as it leaves
    it, what it sent, and the suspension it ends in, if any. *)
Definition Segment : Type := Room * list Out * option Pending.

Definition failWith (e : MusicError) (room : Room) : Segment :=
  (room, [Ack (ReplyFail e)], None).                       (* [catch] *)

Definition replyWith (d : ReplyData) (room : Room) : Segment :=
  (room, [Ack (ReplyOk d)], None).

(** [spotifyHostFetch(room, ...)] up to its first awaited [fetch]. *)
Definition callApi (rid : string) (now : Z) (purpose : Purpose)
    (room : Room) : Segment :=
  match hostSession (music room) with
  | None => failWith SessionMissing room
  | Some session =>
      if negb (Js.truthyS (accessToken session)) then
        failWith SessionMissing room
      else if now <=? expiresAt session - 30000 then
        (room, [], Some (AwaitsApi rid purpose))
      else if negb (Js.truthy (clientId (music room)))
              || negb (Js.truthyS (refreshToken session)) then
        failWith SessionMissing room      (* the refresh returns [null] *)
      else (room, [], Some (AwaitsToken rid (refreshToken session) purpose))
  end.

(** The handler from the return of [spotifyHostFetch]. *)
Definition finish (rid : string) (now : Z) (purpose : Purpose)
    (data : option Body) (room : Room) : Segment :=
  match purpose with
  | ForCurrentTrack =>
      match data with
      | Some (mkBody (Some it) playing _) =>
          replyWith (CurrentTrack it playing) room
      | _ => replyWith NoData room
      end
  | ForSearch => replyWith (SearchResults (from_option tracks [] data)) room
  | ForPlay => replyWith NoData room
  | ForQueued next =>
      (room, [To (Some rid) (ROOM_STATE room); Ack (ReplyOk (Dequeued next))],
       None)
  | ForToggle => callApi rid now ForPlay room
  end.

(** The handler from the arrival of the event to its first suspension. *)
Definition startMusicControl (sid rid action : string) (payload : Payload)
    (now : Z) (room : Room) : Segment :=
  match findBySocket sid (users room) with
  | None => failWith UserNotFound room
  | Some user =>
      if negb (Js.truthy (hostUserKey (music room)))
         || negb (hasHostSession (music room))
      then failWith HostNotReady room
      else if String.eqb action "CURRENT_TRACK" then
        callApi rid now ForCurrentTrack room
      else if String.eqb action "SEARCH" then
        if negb (Js.truthyS (Js.trim (p_query payload))) then
          replyWith (SearchResults []) room
        else callApi rid now ForSearch room
      else if String.eqb action "PLAY_URI" then
        if negb (Js.truthyS (p_uri payload)) then
          failWith TrackUriRequired room
        else callApi rid now ForPlay room
      else if String.eqb action "PLAY_QUEUED_NEXT" then
        if negb (isHost user room) then failWith OnlyHostCanPlay room
        else
          match queue (music room) with
          | [] => failWith QueueIsEmpty room
          | next :: rest =>
              callApi rid now (ForQueued next)
                (setMusic (setQueue rest (music room)) room)
          end
      else if String.eqb action "TOGGLE_PLAY_PAUSE" then
        callApi rid now ForToggle room
      else if String.eqb action "NEXT" || String.eqb action "PREV" then
        callApi rid now ForPlay room
      else failWith UnsupportedAction room
  end.

(** The handler from the arrival of an answer to its next suspension, on
    the room as it is when the answer arrives; [None] when the answer is
    not of the kind that the request awaits. *)
Definition resume (p : Pending) (a : Answer) (now : Z) (room : Room)
    : option Segment :=
  match p, a with
  | AwaitsToken rid refresh purpose, Token RefreshRejected =>
      Some (failWith RefreshFailed room)
  | AwaitsToken rid refresh purpose, Token (RefreshGranted acc r e) =>
      let next := mkSession acc (Js.orElse r refresh) (now + e * 1000) in
      (* [room.music.hostSession = next] *)
      let room' := setMusic (setHostSession (Some next) (music room)) room in
      if negb (Js.truthyS acc) then Some (failWith SessionMissing room')
      else Some (room', [], Some (AwaitsApi rid purpose))
  | AwaitsApi rid purpose, Api NoContent =>
      Some (finish rid now purpose None room)
  | AwaitsApi rid purpose, Api (Json b) =>
      Some (finish rid now purpose (Some b) room)
  | AwaitsApi rid purpose, Api (NotOk st) =>
      Some (failWith (ApiFailed st) room)
  | AwaitsApi rid purpose, Api (NetworkError msg) =>
      Some (failWith (Thrown msg) room)
  | AwaitsToken _ _ _, Failed | AwaitsApi _ _, Failed =>
      Some (failWith (Thrown "fetch failed") room)
  | _, _ => None
  end.

(** The answers at hand: the next answer for a suspended request is taken
    from the lists, and a list that is used up means a [fetch] that threw. *)
Fixpoint drain (fuel : nat) (now : Z) (refreshes : list RefreshRes)
    (fetches : list FetchRes) (seg : Segment) : Room * list Out :=
  match seg with
  | (room, outs, None) => (room, outs)
  | (room, outs, Some p) =>
      match fuel with
      | O => (room, outs)
      | S fuel' =>
          let '(a, refreshes', fetches') :=
            match p, refreshes, fetches with
            | AwaitsToken _ _ _, r :: rest, _ => (Token r, rest, fetches)
            | AwaitsApi _ _, _, r :: rest => (Api r, refreshes, rest)
            | _, _, _ => (Failed, refreshes, fetches)
            end in
          match resume p a now room with
          | Some (room', outs', next) =>
              drain fuel' now refreshes' fetches'
                (room', outs ++ outs', next)
          | None => (room, outs)
          end
      end
  end.

(** *** The server with suspended requests *)

(** The registry and the requests that await an answer. *)
Record ServerState := mkServer {
  s_rooms : gmap string Room;
  s_pending : list Pending
}.

(** What the server handles next: an event of a socket, or the answer to
    its [n]-th suspended request, with the clock at that moment. *)
Inductive Arrival :=
  | Arrives (i : Input)
  | Answers (n : nat) (a : Answer) (now : Z).

Definition suspended (p : option Pending) : list Pending :=
  match p with Some q => [q] | None => [] end.

Section Interleaved.
Variable words : list string.

Definition serve (x : Arrival) (s : ServerState) : ServerState * list Out :=
  match x with
  | Arrives i =>
      match i_event i with
      | MUSIC_CONTROL_REQUEST rid action payload =>
          match s_rooms s !! rid with
          | None => (s, [Ack (ReplyFail RoomNotFound)])
          | Some room =>
              let '(room', outs, p) :=
                startMusicControl (i_socket i) rid action payload
                  (now (i_oracle i)) room in
              (mkServer (<[rid := room']> (s_rooms s))
                 (s_pending s ++ suspended p), outs)
          end
      | e =>
          let res := step words (i_socket i) (i_oracle i) e (s_rooms s) in
          (mkServer res.1 (s_pending s), res.2)
      end
  | Answers n a now =>
      match s_pending s !! n with
      | None => (s, [])
      | Some p =>
          match s_rooms s !! p_room p with
          | None => (s, [])
          | Some room =>
              match resume p a now room with
              | None => (s, [])
              | Some (room', outs, next) =>
                  (mkServer (<[p_room p := room']> (s_rooms s))
                     (delete n (s_pending s) ++ suspended next), outs)
              end
          end
      end
  end.

Fixpoint serveAll (xs : list Arrival) (s : ServerState) : ServerState * list Out :=
  match xs with
  | [] => (s, [])
  | x :: rest =>
      let res := serve x s in
      let res' := serveAll rest res.1 in
      (res'.1, res.2 ++ res'.2)
  end.

End Interleaved.

Definition idle : ServerState := mkServer ∅ [].

(** * Specification *)

(** ** Snapshots and the invariant of a room *)

(** The room that a [ROOM_STATE] message carries. *)
Definition snapshotOf (o : Out) : option Room :=
  match o with
  | Emit (ROOM_STATE r) | To _ (ROOM_STATE r) | Others _ (ROOM_STATE r) => Some r
  | _ => None
  end.

Definition snapshotsAre (final : Room) (outs : list Out) : Prop :=
  Forall (fun o => ∀ r, snapshotOf o = Some r → r = final) outs.

Definition snapshotsSatisfy (P : Room → Prop) (outs : list Out) : Prop :=
  Forall (fun o => ∀ room, snapshotOf o = Some room → P room) outs.

(** The keys of the members, in the order of their registration; a member
    who joined without a key has the key [null]. *)
Definition keys (room : Room) : list (option string) :=
  map userKey (users room).

(** The property of C1, on one room. *)
Definition rolesOk (room : Room) : Prop :=
  let g := game room in
  ((drawerUserKey g = None ∧ guesserUserKey g = None)
   ∨ (∃ d k, drawerUserKey g = Some d ∧ guesserUserKey g = Some k
             ∧ d ≠ k ∧ Some d ∈ keys room ∧ Some k ∈ keys room))
  ∧ (currentWord g ≠ None →
     drawerUserKey g ≠ None ∧ guesserUserKey g ≠ None).

(** An event that registers a member carries a key. *)
Definition keyed (e : Event) : Prop :=
  match e with
  | CREATE_ROOM _ _ _ _ ukey | JOIN_ROOM _ _ _ _ ukey => ukey ≠ None
  | _ => True
  end.

(** The invariant of the runs in which every member has a key: the member
    keys are pairwise distinct, and a room without roles has no word. *)
Definition Inv (room : Room) : Prop :=
  NoDup (keys room)
  ∧ (None ∉ keys room)
  ∧ ((drawerUserKey (game room) = None ∧ guesserUserKey (game room) = None
      ∧ currentWord (game room) = None)
     ∨ (∃ d k, drawerUserKey (game room) = Some d
               ∧ guesserUserKey (game room) = Some k
               ∧ d ≠ k ∧ Some d ∈ keys room ∧ Some k ∈ keys room)).

(** What the invariant reads of a room. *)
Definition view (room : Room)
    : list (option string) * option string * option string * option string :=
  (keys room, drawerUserKey (game room), guesserUserKey (game room),
   currentWord (game room)).

(** What a control request leaves alone. *)
Definition sameTable (r r' : Room) : Prop :=
  users r' = users r ∧ game r' = game r.

(** ** Scores, rounds and connections *)

Definition scores (room : Room) : list (option string * Z) :=
  map (fun u => (userKey u, points u)) (users room).

Definition pointsOf (k : option string) (room : Room) : option Z :=
  points <$> findByKey k (users room).

Definition roundCleared (room : Room) : Prop :=
  let g := game room in
  drawerId g = None ∧ guesserId g = None ∧ drawerUserKey g = None
  ∧ guesserUserKey g = None ∧ currentWord g = None ∧ strokes g = []
  ∧ wrongGuessCount g = 0.

(** A guess is judged correct when the handler announces a scorer. *)
Definition isScoreMsg (o : Out) : bool :=
  match o with
  | To _ (ROUND_RESULT _ _ _ _) | To _ (GAME_WINNER _ _ _ _) => true
  | _ => false
  end.

Definition judgedCorrect (outs : list Out) : bool := existsb isScoreMsg outs.

Definition connectedCount (room : Room) : nat :=
  length (List.filter connected (users room)).

Definition gameOf (rooms : gmap string Room) (rid : string) : option Game :=
  game <$> rooms !! rid.

Definition queueOf (rooms : gmap string Room) (rid : string)
    : option (list QueueEntry) :=
  (fun room => queue (music room)) <$> rooms !! rid.

(** ** The music host *)

(** What a granted claim writes. *)
Definition grantedTo (sid : string) (user : User) (room : Room) : Room :=
  setMusic
    (mkMusic (userKey user) (Some sid) (Some (name user)) None
       (hasToken (hostSession (music room))) (clientId (music room))
       (hostSession (music room)) (suggestions (music room))
       (queue (music room)))
    room.

(** The music state after the host's connection has dropped: the identity
    stays, the session is gone. *)
Definition hostDropped (m : Music) : Music :=
  mkMusic (hostUserKey m) None (hostName m) None false None None
    (suggestions m) (queue m).

(** The music state after an explicit release. *)
Definition hostReleased (m : Music) : Music :=
  mkMusic None None None None false None None (suggestions m) (queue m).

(** ** The comparison of a guess with the word

    White space and letter case among the code units below 256, written
    down from the language standard and not from the functions of the
    server. *)

Definition blank (c : ascii) : bool :=
  existsb (Nat.eqb (nat_of_ascii c)) [9; 10; 11; 12; 13; 32; 160]%nat.

(** The capital letters: A-Z, and the accented capitals 192-222 without the
    multiplication sign.  The small letter of a capital is 32 code units
    above it. *)
Definition capital (c : ascii) : bool :=
  let n := nat_of_ascii c in
  ((65 <=? n)%nat && (n <=? 90)%nat)
  || ((192 <=? n)%nat && (n <=? 214)%nat)
  || ((216 <=? n)%nat && (n <=? 222)%nat).

Definition smallOf (c d : ascii) : bool :=
  capital c && (nat_of_ascii d =? nat_of_ascii c + 32)%nat.

(** Two characters that are the same letter: equal, or a capital and its
    small letter. *)
Definition sameLetter (c d : ascii) : bool :=
  Ascii.eqb c d || smallOf c d || smallOf d c.

Fixpoint sameUpToCase (s t : string) : bool :=
  match s, t with
  | EmptyString, EmptyString => true
  | String c s', String d t' => sameLetter c d && sameUpToCase s' t'
  | _, _ => false
  end.

Fixpoint allBlank (s : string) : bool :=
  match s with
  | EmptyString => true
  | String c r => blank c && allBlank r
  end.

(** [core] is [s] without the white space at its two ends: white space
    only is cut off, and [core] neither starts nor ends with white space. *)
Definition trimmedTo (s core : string) : Prop :=
  (∃ l r, s = String.append l (String.append core r)
          ∧ allBlank l = true ∧ allBlank r = true)
  ∧ (∀ c rest, core = String c rest → blank c = false)
  ∧ (∀ init c, core = String.append init (String c EmptyString) →
               blank c = false).

(** The guess matches the word: trimmed, it is the word up to the case of
    the letters. *)
Definition matchesWord (guess word : string) : Prop :=
  ∃ core, trimmedTo guess core ∧ sameUpToCase core word = true.

(** ** Two statements of the specification, as it words them *)

(** C7: in a reachable room whose host is connected, every claim by a
    member fails with the error that names the holder. *)
Definition claimFailsWhileHostConnected (words : list string) : Prop :=
  ∀ inputs sid rid room holder,
    (run words inputs ∅).1 !! rid = Some room →
    is_Some (findBySocket sid (users room)) →
    findByKey (hostUserKey (music room)) (users room) = Some holder →
    connected holder = true →
    onClaimMusicHost sid rid room
    = (room, [Emit (MUSIC_ERROR (alreadyHosting holder))]).

(** C9: every broadcast snapshot with fewer than two connected users has
    both role keys null. *)
Definition rolesNullWhenShort (words : list string) : Prop :=
  ∀ inputs,
    snapshotsSatisfy
      (fun room =>
         (connectedCount room < 2)%nat →
         drawerUserKey (game room) = None ∧ guesserUserKey (game room) = None)
      (run words inputs ∅).2.

(** ** Concrete runs and rooms *)

Definition someWords : list string := ["cat"; "dog"].

(** An environment whose random numbers and clock are 0 and which is never
    asked for a provider answer. *)
Definition quiet : Oracle := mkOracle 0 0 "id" [] [].

Definition from (sid : string) (e : Event) : Input := mkInput sid quiet e.

Definition joinAnn (sid : string) : Input :=
  from sid (JOIN_ROOM "R1" "1234" "Ann" "red" (Some "A")).

Definition joinBob (sid : string) : Input :=
  from sid (JOIN_ROOM "R1" "1234" "Bob" "blue" (Some "B")).

(** Ann and Bob join, then guess right in turn until Bob has five points. *)
Definition bobWins : list Input :=
  [ joinAnn "s1"; joinBob "s2";
    from "s2" (GUESS "R1" "cat"); from "s1" (GUESS "R1" "cat");
    from "s2" (GUESS "R1" "cat"); from "s1" (GUESS "R1" "cat");
    from "s2" (GUESS "R1" "cat"); from "s1" (GUESS "R1" "cat");
    from "s2" (GUESS "R1" "cat"); from "s1" (GUESS "R1" "cat");
    from "s2" (GUESS "R1" "cat") ].

(** A visitor who opens the link of the room without a stored key joins
    Ann's room: the room page sends the key [null]. *)
Definition guestJoins : list Input :=
  [ joinAnn "s1"; from "s2" (JOIN_ROOM "R1" "1234" "Guest" "blue" None) ].

(** Bob has won; Ann's page joins again and Bob guesses the word. *)
Definition afterTheWin : list Input :=
  [ joinAnn "s3"; from "s2" (GUESS "R1" "cat") ].

(** Three wrong guesses, the drawer leaves, the guesser restarts alone, the
    drawer comes back: the join starts a round. *)
Definition staleCount : list Input :=
  [ joinAnn "s1"; joinBob "s2";
    from "s2" (GUESS "R1" "bird"); from "s2" (GUESS "R1" "bird");
    from "s2" (GUESS "R1" "bird");
    from "s1" DISCONNECT;
    from "s2" (RESTART_GAME "R1");
    joinAnn "s3" ].

(** Both members open the wheel tab; the turn is Ann's. *)
Definition bothOnWheel : list Input :=
  [ joinAnn "s1"; joinBob "s2";
    from "s1" (SET_ACTIVE_GAME "R1" "WHEEL");
    from "s2" (SET_ACTIVE_GAME "R1" "WHEEL") ].

Definition song : Track :=
  mkTrack "t1" "spotify:track:t1" "Song" "Band" EmptyString.

Definition longSession : Session := mkSession "token" "refresh" 1000000.

(** Ann hosts with a token that is good for long, and queues one track. *)
Definition hostWithQueue : list Input :=
  [ joinAnn "s1";
    from "s1" (CLAIM_MUSIC_HOST "R1");
    from "s1" (SPOTIFY_HOST_SESSION_UPDATE "R1" (Some "client")
                 (Some longSession));
    from "s1" (MUSIC_ADD_TO_QUEUE "R1" (Some song)) ].

(** The provider refuses the play call (no active device). *)
Definition playRefused : Input :=
  mkInput "s1" (mkOracle 0 0 "id" [] [NotOk 404])
    (MUSIC_CONTROL_REQUEST "R1" "PLAY_QUEUED_NEXT"
       (mkPayload EmptyString EmptyString)).

(** Ann and Bob join, Ann claims the host, pushes a session and a device. *)
Definition annHosts : list Input :=
  [ joinAnn "s1"; joinBob "s2";
    from "s1" (CLAIM_MUSIC_HOST "R1");
    from "s1" (SPOTIFY_HOST_SESSION_UPDATE "R1" (Some "client")
                 (Some longSession));
    from "s1" (SPOTIFY_HOST_DEVICE_UPDATE "R1" (Some "device")) ].

(** Bob hosts with a stored session; then his connection joins as Ann too,
    so that both members are bound to it, and closes. *)
Definition sharedSocket : list Input :=
  [ joinAnn "s1"; joinBob "s2";
    from "s2" (CLAIM_MUSIC_HOST "R1");
    from "s2" (SPOTIFY_HOST_SESSION_UPDATE "R1" (Some "client")
                 (Some longSession));
    joinAnn "s2" ].

Definition hostSharesSocket : list Input :=
  sharedSocket ++ [from "s2" DISCONNECT].

(** The room after Ann and Bob have joined: Ann draws "cat", Bob guesses. *)
Definition roundRoom : Room :=
  mkRoom "R1" "1234"
    [ mkUser (Some "A") (Some "s1") "Ann" "red" DRAWING 0 TabDrawing;
      mkUser (Some "B") (Some "s2") "Bob" "blue" GUESSING 0 TabDrawing ]
    (mkGame (Some "s1") (Some "s2") (Some "A") (Some "B") (Some "cat") [] None
       0 None DEFAULT_WHEEL_OPTIONS)
    (mkMusic None None None None false None None [] [])
    [].

(** The same room with Ann as the music host. *)
Definition hostedRoom : Room :=
  setMusic
    (mkMusic (Some "A") (Some "s1") (Some "Ann") (Some "device") true
       (Some "client") (Some longSession) [] [])
    roundRoom.

(** The round room once Ann's connection has dropped. *)
Definition aloneRoom : Room := (onDisconnectRoom "s1" roundRoom).1.

(** ** Capacities, bindings and the other notions of the further
    properties *)

(** What [normalizeWheelOptions] makes of one raw option. *)
Definition normalizeOption (raw : string) : string :=
  Js.slice0 80 (Js.trim raw).

(** The capacities that the server enforces. *)
Definition Bounded (room : Room) : Prop :=
  (1 ≤ length (users room) ≤ 2)%nat
  ∧ (length (lobbyNotes room) ≤ MAX_LOBBY_NOTES)%nat
  ∧ (length (suggestions (music room)) ≤ MAX_MUSIC_SUGGESTIONS)%nat
  ∧ (length (queue (music room)) ≤ MAX_MUSIC_QUEUE)%nat
  ∧ (1 ≤ length (wheelOptions (game room)) ≤ 24)%nat.

(** What a control request can change of the music state: the session, by
    a refresh, and the queue, by taking its head. *)
Definition sameButSessionAndQueue (r r' : Room) : Prop :=
  roomId r' = roomId r ∧ pin r' = pin r ∧ users r' = users r
  ∧ game r' = game r ∧ lobbyNotes r' = lobbyNotes r
  ∧ hostUserKey (music r') = hostUserKey (music r)
  ∧ hostSocketId (music r') = hostSocketId (music r)
  ∧ hostName (music r') = hostName (music r)
  ∧ hostDeviceId (music r') = hostDeviceId (music r)
  ∧ hasHostSession (music r') = hasHostSession (music r)
  ∧ clientId (music r') = clientId (music r)
  ∧ suggestions (music r') = suggestions (music r)
  ∧ (hostSession (music r') = hostSession (music r)
     ∨ is_Some (hostSession (music r)) ∧ is_Some (hostSession (music r')))
  ∧ (queue (music r') = queue (music r)
     ∨ ∃ next, queue (music r) = next :: queue (music r')).

Definition isAck (o : Out) : bool :=
  match o with Ack _ => true | _ => false end.

(** A later state of a room: same id and pin, the members of before, in
    their order, possibly followed by new ones. *)
Definition extends (room room' : Room) : Prop :=
  roomId room' = roomId room ∧ pin room' = pin room
  ∧ keys room `prefix_of` keys room'.

(** The keys of the members who may hold the wheel turn: connected and on
    the WHEEL tab. *)
Definition wheelKeys (room : Room) : list (option string) :=
  map userKey (List.filter onWheel (users room)).

(** The turn is nobody's when nobody is eligible, and an eligible member's
    otherwise. *)
Definition turnValid (room : Room) : Prop :=
  match wheelKeys room with
  | [] => wheelTurnUserKey (game room) = None
  | _ => wheelTurnUserKey (game room) ∈ wheelKeys room
  end.

(** What [turnValid] reads of a room. *)
Definition wheelView (room : Room)
    : list (option string * option string * Tab) * option string :=
  (map (fun u => (userKey u, socketId u, currentGame u)) (users room),
   wheelTurnUserKey (game room)).

(** The status each member shows, by connection and role: without a
    connection DISCONNECTED; with one, DRAWING when the member's key is the
    drawer key, else GUESSING when it is the guesser key, else WAITING.  The
    keys are compared as nullable values. *)
Definition shows (room : Room) (u : User) : Prop :=
  match status u with
  | DISCONNECTED => socketId u = None
  | DRAWING => socketId u ≠ None ∧ drawerUserKey (game room) = userKey u
  | GUESSING =>
      socketId u ≠ None ∧ drawerUserKey (game room) ≠ userKey u
      ∧ guesserUserKey (game room) = userKey u
  | WAITING =>
      socketId u ≠ None ∧ drawerUserKey (game room) ≠ userKey u
      ∧ guesserUserKey (game room) ≠ userKey u
  end.

Definition statusOk (room : Room) : Prop := Forall (shows room) (users room).

(** The statuses are those of the last synchronisation, and no member is
    bound to an empty connection id. *)
Definition statusSynced (room : Room) : Prop :=
  Forall (fun u => status u = statusOf (game room) u
                   ∧ socketId u ≠ Some EmptyString) (users room).

(** What [statusSynced] reads of a room. *)
Definition statusView (room : Room)
    : list (option string * option string * Status)
      * option string * option string :=
  (map (fun u => (userKey u, socketId u, status u)) (users room),
   drawerUserKey (game room), guesserUserKey (game room)).

(** The host-scoped fields hang together: a ready flag needs a stored
    session and a host connection, and a host key is a member's key. *)
Definition hostOk (room : Room) : Prop :=
  (hasHostSession (music room) = true →
   is_Some (hostSession (music room)) ∧ is_Some (hostSocketId (music room)))
  ∧ (∀ k, hostUserKey (music room) = Some k → Some k ∈ keys room).

(** [content] is [core] cut to its first [n] characters. *)
Definition cutTo (n : nat) (core content : string) : Prop :=
  ∃ rest, core = String.append content rest
          ∧ (rest = EmptyString ∨ String.length content = n).

(** The answer of a control request that played the head of the queue. *)
Definition dequeuedIn (outs : list Out) : option QueueEntry :=
  match List.find isAck outs with
  | Some (Ack (ReplyOk (Dequeued next))) => Some next
  | _ => None
  end.

(** The queue entry that accepting a suggestion builds. *)
Definition acceptedEntry (fresh : string) (now : Z) (host : User)
    (sg : Suggestion) : QueueEntry :=
  mkQueueEntry (makeId "q" fresh) (sg_track sg) (sg_suggestedByUserKey sg)
    (sg_suggestedByName sg) (userKey host) now.

(** A session whose token is good for more than half a minute. *)
Definition freshAt (now : Z) (s : Session) : Prop :=
  accessToken s ≠ EmptyString ∧ now ≤ expiresAt s - 30000.

(** The session that a granted refresh of [old] yields. *)
Definition refreshed (now : Z) (old : Session) (res : RefreshRes)
    : option Session :=
  match res with
  | RefreshRejected => None
  | RefreshGranted a r e =>
      Some (mkSession a (Js.orElse r (refreshToken old)) (now + e * 1000))
  end.

(** Which connection each member is bound to. *)
Definition bindings (room : Room) : list (option string * option string) :=
  map (fun u => (userKey u, socketId u)) (users room).

(** A live role id is the connection of a member who holds the role. *)
Definition boundTo (role live : option string) (room : Room) : Prop :=
  ∀ s, live = Some s → (role, Some s) ∈ bindings room.

Definition liveOk (room : Room) : Prop :=
  boundTo (drawerUserKey (game room)) (drawerId (game room)) room
  ∧ boundTo (guesserUserKey (game room)) (guesserId (game room)) room.

(** What [liveOk] reads of a room. *)
Definition liveView (room : Room)
    : list (option string * option string) * option string * option string
      * option string * option string :=
  (bindings room, drawerUserKey (game room), drawerId (game room),
   guesserUserKey (game room), guesserId (game room)).

(** The round as a reconnecting member should find it. *)
Definition roundOf (room : Room)
    : option string * option string * option string * list Stroke * Z :=
  (drawerUserKey (game room), guesserUserKey (game room),
   currentWord (game room), strokes (game room),
   wrongGuessCount (game room)).

(** Ann and Bob, connected, both on the WHEEL tab. *)
Definition wheelRoom : Room :=
  setUsers (map (setCurrentGame TabWheel) (users roundRoom)) roundRoom.

(** Without a drawer the canvas log is empty. *)
Definition canvasOk (room : Room) : Prop :=
  drawerUserKey (game room) = None → strokes (game room) = [].

(** A room without a round holds nothing of a round. *)
Definition idleClean (room : Room) : Prop :=
  drawerUserKey (game room) = None →
  guesserUserKey (game room) = None ∧ currentWord (game room) = None
  ∧ strokes (game room) = [] ∧ drawerId (game room) = None
  ∧ guesserId (game room) = None.

(** The messages that carry the word of a round. *)
Definition isAssign (o : Out) : bool :=
  match o with
  | Emit (ASSIGN_WORD _) | To _ (ASSIGN_WORD _) | Others _ (ASSIGN_WORD _) =>
      true
  | _ => false
  end.

(** The one way in which a handler tells the word: to the live id of the
    drawer, the word being the one that the room holds. *)
Definition wordToDrawer (room : Room) (outs : list Out) : Prop :=
  Forall (fun out =>
            isAssign out = true →
            out = To (drawerId (game room))
                    (ASSIGN_WORD (currentWord (game room)))) outs.

(** While a word is held, the two role keys are keys of members. *)
Definition wordHeld (room : Room) : Prop :=
  currentWord (game room) ≠ None →
  drawerUserKey (game room) ∈ keys room
  ∧ guesserUserKey (game room) ∈ keys room.

(** The room and the messages of a segment. *)
Definition settled (seg : Segment) : Room * list Out := (seg.1.1, seg.1.2).

(** What a segment of a control request can change of a room: it can store
    a session, and take the head of the queue. *)
Definition onlySessionAndQueue (r r' : Room) : Prop :=
  roomId r' = roomId r ∧ pin r' = pin r ∧ users r' = users r
  ∧ game r' = game r ∧ lobbyNotes r' = lobbyNotes r
  ∧ hostUserKey (music r') = hostUserKey (music r)
  ∧ hostSocketId (music r') = hostSocketId (music r)
  ∧ hostName (music r') = hostName (music r)
  ∧ hostDeviceId (music r') = hostDeviceId (music r)
  ∧ hasHostSession (music r') = hasHostSession (music r)
  ∧ clientId (music r') = clientId (music r)
  ∧ suggestions (music r') = suggestions (music r)
  ∧ (hostSession (music r') = hostSession (music r)
     ∨ is_Some (hostSession (music r')))
  ∧ (queue (music r') = queue (music r)
     ∨ ∃ next, queue (music r) = next :: queue (music r')).

(** Ann hosts with a session that has run out, and asks for the current
    track: the server asks the provider for a new token. *)
Definition staleSession : Session := mkSession "old" "refresh" 0.

Definition refreshUnderWay : list Arrival :=
  [ Arrives (joinAnn "s1"); Arrives (joinBob "s2");
    Arrives (from "s1" (CLAIM_MUSIC_HOST "R1"));
    Arrives (from "s1" (SPOTIFY_HOST_SESSION_UPDATE "R1" (Some "client")
                          (Some staleSession)));
    Arrives (mkInput "s1" (mkOracle 0 100000 "id" [] [])
               (MUSIC_CONTROL_REQUEST "R1" "CURRENT_TRACK"
                  (mkPayload EmptyString EmptyString))) ].

(** Before the provider answers, Ann gives up the host role; then the
    token arrives; then Bob claims the role. *)
Definition tokenAfterRelease : list Arrival :=
  refreshUnderWay
  ++ [ Arrives (from "s1" (RELEASE_MUSIC_HOST "R1"));
       Answers 0 (Token (RefreshGranted "new" EmptyString 3600)) 200000;
       Arrives (from "s2" (CLAIM_MUSIC_HOST "R1")) ].

(** An arrival whose socket id is not empty and which carries no null
    user key; the answers of the provider are not restricted. *)
Definition wellFormed (x : Arrival) : Prop :=
  match x with
  | Arrives i => i_socket i ≠ EmptyString ∧ keyed (i_event i)
  | Answers _ _ _ => True
  end.

(** * Proofs *)

(** ** The invariant of a room *)

Lemma eqo_true a b : Js.eqo a b = true ↔ a = b.
Proof.
  destruct a as [x|], b as [y|]; simpl; try done.
  rewrite String.eqb_eq. split; [by intros -> | by intros [= ->]].
Qed.

Lemma eqo_false a b : Js.eqo a b = false ↔ a ≠ b.
Proof. rewrite <- eqo_true. by destruct (Js.eqo a b). Qed.

Lemma eqo_refl a : Js.eqo a a = true.
Proof. by apply eqo_true. Qed.

Lemma Inv_rolesOk room : Inv room → rolesOk room.
Proof.
  intros (_ & _ & [(Hd & Hg & Hw) | (d & k & Hd & Hg & Hne & Hin)]); split.
  - by left.
  - by intros [].
  - right. by exists d, k.
  - intros _. by rewrite Hd, Hg.
Qed.

Lemma Inv_view room room' : view room' = view room → Inv room → Inv room'.
Proof.
  unfold view, Inv. intros [= Hk Hd Hg Hw]. rewrite Hk, Hd, Hg, Hw. done.
Qed.

Lemma keys_map_users f room :
  (∀ u, userKey (f u) = userKey u) →
  map userKey (map f (users room)) = keys room.
Proof.
  intros Hf. unfold keys. rewrite map_map. apply map_ext. done.
Qed.

Lemma map_updFirst {B} (proj : User → B) p f us :
  (∀ u, proj (f u) = proj u) →
  map proj (updFirst p f us) = map proj us.
Proof.
  intros Hf. induction us as [|u us IH]; simpl; [done|].
  destruct (p u); simpl; by rewrite ?Hf, ?IH.
Qed.

Lemma view_syncStatuses room : view (syncStatuses room) = view room.
Proof.
  unfold view, syncStatuses, keys. simpl. rewrite map_map. simpl. done.
Qed.

Lemma view_syncWheelTurn room : view (syncWheelTurn room) = view room.
Proof.
  unfold syncWheelTurn. destruct (List.filter onWheel (users room)); [done|].
  by destruct (existsb _ _).
Qed.

Lemma users_syncWheelTurn room : users (syncWheelTurn room) = users room.
Proof.
  unfold syncWheelTurn. destruct (List.filter onWheel (users room)); [done|].
  by destruct (existsb _ _).
Qed.

Lemma roles_syncWheelTurn room :
  drawerUserKey (game (syncWheelTurn room)) = drawerUserKey (game room)
  ∧ guesserUserKey (game (syncWheelTurn room)) = guesserUserKey (game room)
  ∧ currentWord (game (syncWheelTurn room)) = currentWord (game room).
Proof.
  unfold syncWheelTurn. destruct (List.filter onWheel (users room)); [done|].
  by destruct (existsb _ _).
Qed.

Lemma drawerUserKey_syncWheelTurn room :
  drawerUserKey (game (syncWheelTurn room)) = drawerUserKey (game room).
Proof. apply roles_syncWheelTurn. Qed.

Lemma guesserUserKey_syncWheelTurn room :
  guesserUserKey (game (syncWheelTurn room)) = guesserUserKey (game room).
Proof. apply roles_syncWheelTurn. Qed.

Lemma currentWord_syncWheelTurn room :
  currentWord (game (syncWheelTurn room)) = currentWord (game room).
Proof. apply roles_syncWheelTurn. Qed.

Lemma game_syncStatuses room : game (syncStatuses room) = game room.
Proof. done. Qed.

Lemma keys_syncStatuses room :
  map userKey (users (syncStatuses room)) = map userKey (users room).
Proof. unfold syncStatuses. simpl. by rewrite map_map. Qed.

Create Rewrite HintDb roomview.
#[export] Hint Rewrite view_syncWheelTurn view_syncStatuses users_syncWheelTurn
  drawerUserKey_syncWheelTurn guesserUserKey_syncWheelTurn
  currentWord_syncWheelTurn game_syncStatuses keys_syncStatuses : roomview.

Lemma truthy_Some o : Js.truthy o = true → ∃ s, o = Some s.
Proof. destruct o; [eauto | done]. Qed.

Lemma find_key_None ukey us :
  List.find (fun u => Js.eqo (userKey u) ukey) us = None →
  ukey ∉ map userKey us.
Proof.
  induction us as [|u us IH]; simpl; [intros _; apply not_elem_of_nil|].
  destruct (Js.eqo (userKey u) ukey) eqn:He; [done|].
  apply eqo_false in He.
  intros Hf. apply not_elem_of_cons. split; [congruence | by apply IH].
Qed.

Lemma key_is_Some (k : option string) (ks : list (option string)) :
  None ∉ ks → k ∈ ks → ∃ s, k = Some s.
Proof. destruct k as [s|]; [by exists s | done]. Qed.

Lemma filter_first_two p (us : list User) u1 u2 rest :
  NoDup (map userKey us) →
  List.filter p us = u1 :: u2 :: rest →
  userKey u1 ≠ userKey u2
  ∧ userKey u1 ∈ map userKey us ∧ userKey u2 ∈ map userKey us.
Proof.
  induction us as [|x us IH]; simpl; [done|].
  intros [Hx Hnd]%NoDup_cons. destruct (p x).
  - intros [= -> Hrest].
    assert (Hin : userKey u2 ∈ map userKey us).
    { apply list_elem_of_In, in_map, (proj1 (filter_In p u2 us)).
      rewrite Hrest. by left. }
    split_and!; [congruence | by left | by right].
  - intros Hf. destruct (IH Hnd Hf) as (? & ? & ?).
    split_and!; [done | by right | by right].
Qed.

Section Preservation.
Variable words : list string.

Lemma Inv_rotateRoles rnd room :
  Inv room → Js.truthy (drawerUserKey (game room)) = true →
  Inv (rotateRoles words rnd room).
Proof.
  intros (Hnd & Hnone & Hroles) Ht. unfold rotateRoles.
  eapply Inv_view; [apply view_syncStatuses|].
  split_and!; [done | done |]. right; simpl.
  destruct Hroles as [(Hd & _) | (d & k & Hd & Hg & Hne & Hdin & Hkin)].
  - by rewrite Hd in Ht.
  - exists k, d. by rewrite Hd, Hg.
Qed.

Lemma Inv_startRound rnd room : Inv room → Inv (startRound words rnd room).
Proof.
  intros (Hnd & Hnone & Hroles). unfold startRound.
  destruct (List.filter connected (users room)) as [|u1 [|u2 rest]] eqn:Hf;
    (eapply Inv_view; [apply view_syncStatuses|]); split_and!; simpl;
    try done; try (by left).
  right. destruct (filter_first_two _ _ _ _ _ Hnd Hf) as (Hne & H1 & H2).
  destruct (key_is_Some _ _ Hnone H1) as [d Hd].
  destruct (key_is_Some _ _ Hnone H2) as [k Hk].
  exists d, k. rewrite Hd, Hk in *. split_and!; try done. congruence.
Qed.

Ltac framed Hinv :=
  eapply Inv_view; [|exact Hinv];
  autorewrite with roomview; unfold view, keys; simpl;
  autorewrite with roomview; rewrite ?map_updFirst by done; done.

Ltac frame_handler h :=
  let Hinv := fresh "Hinv" in
  intros Hinv; unfold h;
  repeat (case_match; simpl; try assumption); framed Hinv.

Lemma Inv_onDraw sid rid stroke room :
  Inv room → Inv (onDraw sid rid stroke room).1.
Proof. frame_handler onDraw. Qed.

Lemma Inv_onClearCanvasRequest sid rid room :
  Inv room → Inv (onClearCanvasRequest sid rid room).1.
Proof. frame_handler onClearCanvasRequest. Qed.

Lemma Inv_onSetActiveGame sid rid tab room :
  Inv room → Inv (onSetActiveGame sid rid tab room).1.
Proof. frame_handler onSetActiveGame. Qed.

Lemma Inv_onSetWheelOptions sid rid options room :
  Inv room → Inv (onSetWheelOptions sid rid options room).1.
Proof. frame_handler onSetWheelOptions. Qed.

Lemma Inv_onSpinWheel sid rid rnd room :
  Inv room → Inv (onSpinWheel sid rid rnd room).1.
Proof. frame_handler onSpinWheel. Qed.

Lemma Inv_onClaimMusicHost sid rid room :
  Inv room → Inv (onClaimMusicHost sid rid room).1.
Proof. frame_handler onClaimMusicHost. Qed.

Lemma Inv_onReleaseMusicHost sid rid room :
  Inv room → Inv (onReleaseMusicHost sid rid room).1.
Proof. frame_handler onReleaseMusicHost. Qed.

Lemma Inv_onMusicSuggestTrack sid rid track fresh now room :
  Inv room → Inv (onMusicSuggestTrack sid rid track fresh now room).1.
Proof. frame_handler onMusicSuggestTrack. Qed.

Lemma Inv_onMusicAcceptSuggestion sid rid sg fresh now room :
  Inv room → Inv (onMusicAcceptSuggestion sid rid sg fresh now room).1.
Proof. frame_handler onMusicAcceptSuggestion. Qed.

Lemma Inv_onMusicRejectSuggestion sid rid sg room :
  Inv room → Inv (onMusicRejectSuggestion sid rid sg room).1.
Proof. frame_handler onMusicRejectSuggestion. Qed.

Lemma Inv_onMusicAddToQueue sid rid track fresh now room :
  Inv room → Inv (onMusicAddToQueue sid rid track fresh now room).1.
Proof. frame_handler onMusicAddToQueue. Qed.

Lemma Inv_onSpotifyHostSessionUpdate sid rid client session room :
  Inv room → Inv (onSpotifyHostSessionUpdate sid rid client session room).1.
Proof. frame_handler onSpotifyHostSessionUpdate. Qed.

Lemma Inv_onSpotifyHostDeviceUpdate sid rid device room :
  Inv room → Inv (onSpotifyHostDeviceUpdate sid rid device room).1.
Proof. frame_handler onSpotifyHostDeviceUpdate. Qed.

Lemma Inv_onAddLobbyNote sid rid text fresh now room :
  Inv room → Inv (onAddLobbyNote sid rid text fresh now room).1.
Proof. frame_handler onAddLobbyNote. Qed.

Lemma Inv_onDeleteLobbyNote sid rid note room :
  Inv room → Inv (onDeleteLobbyNote sid rid note room).1.
Proof. frame_handler onDeleteLobbyNote. Qed.

Lemma Inv_onDisconnectRoom sid room :
  Inv room → Inv (onDisconnectRoom sid room).1.
Proof. frame_handler onDisconnectRoom. Qed.

Lemma guessAccepted_roles sid room :
  guessAccepted sid room = true →
  Js.truthy (currentWord (game room)) = true
  ∧ Js.truthy (drawerUserKey (game room)) = true
  ∧ Js.truthy (guesserUserKey (game room)) = true
  ∧ guesserId (game room) = Some sid.
Proof.
  unfold guessAccepted. rewrite !andb_true_iff. intros [[[? ?] ?] He].
  split_and!; try done.
  unfold Js.eqs in He. destruct (guesserId (game room)); [|done].
  by apply String.eqb_eq in He as ->.
Qed.

Lemma Inv_onSkipRound sid rid rnd room :
  Inv room → Inv (onSkipRound words sid rid rnd room).1.
Proof.
  intros Hinv. unfold onSkipRound.
  destruct (guessAccepted sid room) eqn:Hacc; simpl; [|done].
  apply Inv_rotateRoles; [done|].
  by apply guessAccepted_roles in Hacc as (_ & ? & _).
Qed.

Lemma Inv_onRestartGame sid rid rnd room :
  Inv room → Inv (onRestartGame words sid rid rnd room).1.
Proof.
  intros Hinv. unfold onRestartGame.
  destruct (findBySocket sid (users room)); cbn [fst]; [|done].
  eapply Inv_view; [apply view_syncWheelTurn|].
  apply Inv_startRound. eapply Inv_view; [|exact Hinv].
  unfold view, keys; simpl. by rewrite map_map.
Qed.

Lemma Inv_onGuess sid rid guess rnd room :
  Inv room → Inv (onGuess words sid rid guess rnd room).1.
Proof.
  intros Hinv. unfold onGuess.
  destruct (guessAccepted sid room) eqn:Hacc; simpl; [|done].
  apply guessAccepted_roles in Hacc as (_ & Hd & _ & _).
  destruct (currentWord (game room)) as [word|] eqn:Hw; [|done].
  destruct (guessMatches guess word); simpl.
  - destruct (findByKey _ _) as [guesser|]; [|done].
    destruct (MAX_SCORE <=? _); simpl.
    + destruct Hinv as (Hnd & Hnone & _).
      assert (keys (setGame
                      (mkGame None None None None None [] (userKey guesser) 0
                         (wheelTurnUserKey (game room))
                         (wheelOptions (game room)))
                      (setUsers
                         (map (fun u => setStatus
                                 (if connected u then WAITING
                                  else DISCONNECTED) u)
                            (updFirst
                               (fun u => Js.eqo (guesserUserKey (game room))
                                           (userKey u))
                               (setPoints (points guesser + 1))
                               (users room))) room)) = keys room) as Hk.
      { unfold keys; simpl. rewrite map_map; simpl. by rewrite map_updFirst. }
      split_and!; [by rewrite Hk | by rewrite Hk | by left].
    + apply Inv_rotateRoles; [|done]. framed Hinv.
  - destruct (MAX_WRONG_GUESSES <=? _); simpl.
    + apply Inv_rotateRoles; [|done]. framed Hinv.
    + framed Hinv.
Qed.

Lemma Inv_onJoinExisting sid rid rpin uname ucolor ukey rnd room :
  ukey ≠ None →
  Inv room →
  Inv (onJoinExisting words sid rid rpin uname ucolor ukey rnd room).1.
Proof.
  intros Hkey Hinv. unfold onJoinExisting.
  destruct (negb (String.eqb (pin room) rpin)); [done|].
  match goal with
  | |- context [match ?a with Some _ => _ | None => (room, _) end] =>
      assert (Hadm : ∀ room1, a = Some room1 → Inv room1); [|destruct a as [room1|]]
  end.
  { intros room1.
    destruct (List.find _ _) as [user|] eqn:Hfind.
    - intros [= <-]. repeat case_match; framed Hinv.
    - destruct (2 <=? length (users room))%nat; [done|]. intros [= <-].
      destruct Hinv as (Hnd & Hnone & Hroles). apply find_key_None in Hfind.
      split_and!; unfold keys; simpl; rewrite map_app; simpl.
      + apply NoDup_app. split_and!; [done| |apply NoDup_singleton].
        intros k Hk ->%list_elem_of_singleton. done.
      + intros [?|Hin%list_elem_of_singleton]%elem_of_app; [done|].
        by destruct Hkey.
      + destruct Hroles as [?|(d & k & ? & ? & ? & ? & ?)]; [by left|].
        right. exists d, k. split_and!; try done; apply elem_of_app; by left. }
  2: done.
  specialize (Hadm room1 eq_refl). simpl.
  eapply Inv_view; [apply view_syncWheelTurn|].
  eapply Inv_view; [apply view_syncStatuses|].
  destruct (users room1) as [|u1 [|u2 [|]]] eqn:Hus; simpl; try done.
  destruct (negb (Js.truthy (drawerUserKey (game room1)))); simpl; [|done].
  destruct Hadm as (Hnd & Hnone & _). unfold Inv, keys in *; simpl.
  rewrite Hus in *. simpl in *.
  split_and!; [done | done |]. right.
  destruct (userKey u1) as [d|] eqn:H1; [|by destruct Hnone; left].
  destruct (userKey u2) as [k|] eqn:H2;
    [|by destruct Hnone; right; left].
  exists d, k. apply NoDup_cons in Hnd as [Hn1 _].
  split_and!; try done.
  - intros ->. apply Hn1. by left.
  - by left.
  - right; by left.
Qed.

End Preservation.

(** ** Control requests keep members and game *)

Ltac run_monad :=
  unfold musicControl, spotifyHostFetch, ensureRoomSpotifySession,
    refreshSpotifySession, nextFetch, nextRefresh, bind, ret, throw, getRoom,
    putRoom.

Lemma musicControl_frame rid action payload now user w :
  let res := musicControl rid action payload now user w in
  sameTable (w_room w) (w_room res.2)
  ∧ ∀ outs, res.1 = inr outs → snapshotsAre (w_room res.2) outs.
Proof.
  destruct w as [room rs fs]. run_monad. cbn [w_room w_refreshes w_fetches].
  repeat (case_match; simplify_eq; cbn [w_room w_refreshes w_fetches fst snd]).
  all: split; [done|].
  all: intros outs [= <-]; repeat constructor; simpl; intros; by simplify_eq.
Qed.

Section Handlers.
Variable words : list string.

Lemma Inv_onMusicControlRequest sid rid action payload now rs fs room :
  Inv room →
  Inv (onMusicControlRequest sid rid action payload now rs fs room).1.
Proof.
  intros Hinv. unfold onMusicControlRequest.
  destruct (findBySocket sid (users room)) as [user|]; [|done].
  destruct (_ || _); [done|].
  destruct (musicControl_frame rid action payload now user
              (mkWorld room rs fs)) as [[Hu Hg] _].
  destruct (musicControl _ _ _ _ _ _) as [[err|outs] w]; simpl in *;
    (eapply Inv_view; [|exact Hinv]); unfold view, keys; by rewrite Hu, Hg.
Qed.

Lemma Inv_handler sid o e room :
  keyed e → Inv room → Inv (handler words sid o e room).1.
Proof.
  destruct e; simpl; intros Hkey;
    eauto using Inv_onJoinExisting, Inv_onDraw, Inv_onClearCanvasRequest,
      Inv_onGuess, Inv_onSkipRound, Inv_onRestartGame, Inv_onSetActiveGame,
      Inv_onClaimMusicHost, Inv_onReleaseMusicHost, Inv_onMusicSuggestTrack,
      Inv_onMusicAcceptSuggestion, Inv_onMusicRejectSuggestion,
      Inv_onMusicAddToQueue, Inv_onSpotifyHostSessionUpdate,
      Inv_onSpotifyHostDeviceUpdate, Inv_onMusicControlRequest,
      Inv_onSetWheelOptions, Inv_onAddLobbyNote, Inv_onDeleteLobbyNote,
      Inv_onSpinWheel, Inv_onDisconnectRoom.
Qed.

Ltac snaps :=
  repeat (case_match; cbn [fst snd]);
  unfold snapshotsAre, skipOuts, assignWord; rewrite ?Forall_app;
  repeat case_match; repeat split; repeat constructor; simpl; intros;
  by simplify_eq.

(** Every snapshot a handler broadcasts is the room as the handler leaves
    it. *)
Lemma handler_snapshots sid o e room :
  snapshotsAre (handler words sid o e room).1 (handler words sid o e room).2.
Proof.
  destruct e; cbn [handler].
  all: try (unfold onJoinExisting, onDraw, onClearCanvasRequest, onGuess,
            onSkipRound, onRestartGame, onSetActiveGame, onClaimMusicHost,
            onReleaseMusicHost, onMusicSuggestTrack, onMusicAcceptSuggestion,
            onMusicRejectSuggestion, onMusicAddToQueue,
            onSpotifyHostSessionUpdate, onSpotifyHostDeviceUpdate,
            onSetWheelOptions, onAddLobbyNote, onDeleteLobbyNote, onSpinWheel,
            onDisconnectRoom; snaps).
  unfold onMusicControlRequest.
  destruct (findBySocket sid (users room)) as [user|]; [|snaps].
  destruct (_ || _); [snaps|].
  destruct (musicControl_frame rid action payload (now o) user
              (mkWorld room (refreshes o) (fetches o))) as [_ Hs].
  destruct (musicControl _ _ _ _ _ _) as [[err|outs] w]; simpl in *;
    [snaps | by apply Hs].
Qed.
End Handlers.

(** ** The roles in the runs in which every member has a key *)

Section Runs.
Variable words : list string.

Lemma Inv_newRoom sid rid rpin uname ucolor ukey :
  ukey ≠ None → Inv (newRoom sid rid rpin uname ucolor ukey).
Proof.
  intros Hkey. split_and!; [| |by left]; unfold keys; simpl.
  - apply NoDup_singleton.
  - by intros ?%list_elem_of_singleton.
Qed.

Lemma snapshotsAre_satisfy (P : Room → Prop) final outs :
  P final → snapshotsAre final outs → snapshotsSatisfy P outs.
Proof.
  intros HP Hf. eapply Forall_impl; [exact Hf|].
  intros o Ho room Hs. by rewrite (Ho _ Hs).
Qed.

Lemma step_Inv sid o e (rooms : gmap string Room) :
  keyed e →
  map_Forall (fun _ room => Inv room) rooms →
  map_Forall (fun _ room => Inv room) (step words sid o e rooms).1
  ∧ snapshotsSatisfy Inv (step words sid o e rooms).2.
Proof.
  intros Hkey Hall. unfold step. destruct (target e) as [rid|] eqn:Ht.
  - destruct (rooms !! rid) as [room|] eqn:Hroom; cbn [fst snd].
    + pose proof (Inv_handler words sid o e room Hkey (Hall _ _ Hroom)) as Hi.
      split; [by apply map_Forall_insert_2|].
      eapply snapshotsAre_satisfy; [exact Hi | apply handler_snapshots].
    + destruct e; cbn [onMissing fst snd];
        (split; [first [done | apply map_Forall_insert_2;
                               [by apply Inv_newRoom | done]]|]);
        unfold snapshotsSatisfy; repeat apply Forall_cons_2;
        try apply Forall_nil_2; simpl; intros ? [= <-]; by apply Inv_newRoom.
  - cbn [fst snd]. split.
    + apply map_Forall_fmap. intros k room Hk. simpl.
      by apply Inv_handler, (Hall _ _ Hk).
    + apply Forall_concat, Forall_fmap, Forall_forall.
      intros [k room] Hk%elem_of_map_to_list. simpl.
      eapply snapshotsAre_satisfy; [|apply handler_snapshots].
      by apply Inv_handler, (Hall _ _ Hk).
Qed.

Lemma run_Inv inputs (rooms : gmap string Room) :
  Forall (fun i => keyed (i_event i)) inputs →
  map_Forall (fun _ room => Inv room) rooms →
  map_Forall (fun _ room => Inv room) (run words inputs rooms).1
  ∧ snapshotsSatisfy Inv (run words inputs rooms).2.
Proof.
  revert rooms. induction inputs as [|i inputs IH]; intros rooms Hkeys Hall.
  - split; [done | constructor].
  - apply Forall_cons in Hkeys as [Hkey Hkeys]. cbn [run fst snd].
    destruct (step_Inv (i_socket i) (i_oracle i) (i_event i) rooms Hkey Hall)
      as [Hall1 Hout1].
    destruct (IH _ Hkeys Hall1) as [Hall2 Hout2].
    split; [done|]. by apply Forall_app.
Qed.

Lemma run_rolesOk inputs :
  Forall (fun i => keyed (i_event i)) inputs →
  snapshotsSatisfy rolesOk (run words inputs ∅).2.
Proof.
  intros Hkeys.
  destruct (run_Inv inputs ∅ Hkeys) as [_ Hs]; [apply map_Forall_empty|].
  eapply Forall_impl; [exact Hs|]. intros o Ho room Hr.
  by apply Inv_rolesOk, Ho.
Qed.
End Runs.

(** ** C1: a member without a key *)

(** C1, at the failing run. Ann has created the room; a visitor whose
    browser holds no key joins, and the room page sends the key [null].  The
    round starts with the visitor as guesser: the snapshot that is broadcast
    has the drawer key of Ann, no guesser key, and a word. *)
Theorem C1_guest_without_key :
  ∃ room,
    last (run someWords guestJoins ∅).2
    = Some (To (Some "R1") (ROOM_STATE room))
    ∧ keys room = [Some "A"; None]
    ∧ drawerUserKey (game room) = Some "A"
    ∧ guesserUserKey (game room) = None
    ∧ currentWord (game room) = Some "cat"
    ∧ guesserId (game room) = Some "s2"
    ∧ ¬ rolesOk room.
Proof.
  eexists. split; [vm_compute; reflexivity|]. cbn.
  split_and!; try reflexivity.
  intros [[[[=] _] | (d & k & _ & [=] & _)] _].
Qed.

(** ** C2: scores *)

(** C2, at the failing run. Bob has reached the cap of five points and the
    round state is cleared.  Ann's page joins again: the join finds two
    members and no drawer, so it starts a round, with the scores as they
    are; Bob's next correct guess is scored, and he is announced as the
    winner with six points, no restart having taken place. *)
Theorem C2_score_passes_cap :
  (pointsOf (Some "B") <$> (run someWords bobWins ∅).1 !! "R1")
  = Some (Some 5)
  ∧ (currentWord <$> gameOf (run someWords bobWins ∅).1 "R1") = Some None
  ∧ (currentWord
       <$> gameOf (run someWords [joinAnn "s3"] (run someWords bobWins ∅).1).1
             "R1") = Some (Some "cat")
  ∧ (pointsOf (Some "B")
       <$> (run someWords afterTheWin (run someWords bobWins ∅).1).1 !! "R1")
    = Some (Some 6)
  ∧ To (Some "R1") (GAME_WINNER (Some "B") "Bob" 6 MAX_SCORE)
    ∈ (run someWords afterTheWin (run someWords bobWins ∅).1).2.
Proof.
  split_and!; try (vm_compute; reflexivity).
  apply list_elem_of_In. vm_compute. tauto.
Qed.

(** ** How the points of a member move *)

Lemma step_room words sid o e (rooms : gmap string Room) rid room room' :
  rooms !! rid = Some room →
  (step words sid o e rooms).1 !! rid = Some room' →
  room' = room
  ∨ (room' = (handler words sid o e room).1
     ∧ (target e = Some rid ∨ target e = None)).
Proof.
  intros Hroom. unfold step. destruct (target e) as [rid'|] eqn:Ht.
  - destruct (decide (rid' = rid)) as [->|Hne].
    + rewrite Hroom. cbn [fst]. rewrite lookup_insert_eq.
      intros [= <-]. right. eauto.
    + destruct (rooms !! rid') as [other|]; cbn [fst].
      * rewrite lookup_insert_ne by done. rewrite Hroom. intros [= <-]. by left.
      * destruct (onMissing sid e) as [[created|] outs]; cbn [fst].
        -- rewrite lookup_insert_ne by done. rewrite Hroom.
           intros [= <-]. by left.
        -- rewrite Hroom. intros [= <-]. by left.
  - cbn [fst]. rewrite lookup_fmap, Hroom. simpl. intros [= <-]. right. eauto.
Qed.

Lemma pointsOf_scores k room room' :
  scores room' = scores room → pointsOf k room' = pointsOf k room.
Proof.
  unfold pointsOf, findByKey, scores.
  generalize (users room) (users room'). clear.
  induction l as [|u us IH]; intros [|u' us']; simpl; try done.
  intros [= Hk Hp Hrest]. rewrite Hk.
  destruct (Js.eqo k (userKey u)); simpl; [by rewrite Hp | by apply IH].
Qed.

Lemma scores_syncStatuses room : scores (syncStatuses room) = scores room.
Proof. unfold scores, syncStatuses. simpl. by rewrite map_map. Qed.

Lemma scores_syncWheelTurn room : scores (syncWheelTurn room) = scores room.
Proof. unfold scores. by rewrite users_syncWheelTurn. Qed.

Lemma scores_rotateRoles words rnd room :
  scores (rotateRoles words rnd room) = scores room.
Proof. unfold rotateRoles. by rewrite scores_syncStatuses. Qed.

#[export] Hint Rewrite scores_syncStatuses scores_syncWheelTurn
  scores_rotateRoles : roomview.

Lemma find_app_Some {A} (p : A → bool) l l' x :
  List.find p l = Some x → List.find p (l ++ l') = Some x.
Proof.
  induction l as [|a l IH]; simpl; [done|]. destruct (p a); [done|apply IH].
Qed.

Lemma findByKey_updFirst_same g f us :
  (∀ u, userKey (f u) = userKey u) →
  findByKey g (updFirst (fun u => Js.eqo g (userKey u)) f us)
  = f <$> findByKey g us.
Proof.
  intros Hf. unfold findByKey. induction us as [|u us IH]; simpl; [done|].
  destruct (Js.eqo g (userKey u)) eqn:He; simpl.
  - by rewrite Hf, He.
  - by rewrite He.
Qed.

Lemma findByKey_updFirst_other k gk f us :
  (∀ u, userKey (f u) = userKey u) → gk ≠ k →
  findByKey k (updFirst (fun u => Js.eqo gk (userKey u)) f us)
  = findByKey k us.
Proof.
  intros Hf Hne. unfold findByKey. induction us as [|u us IH]; simpl; [done|].
  destruct (Js.eqo gk (userKey u)) eqn:He; simpl.
  - rewrite Hf. destruct (Js.eqo k (userKey u)) eqn:Hk; [|done].
    apply eqo_true in He, Hk. congruence.
  - destruct (Js.eqo k (userKey u)); [done | exact IH].
Qed.

Section Scores.
Variable words : list string.

Ltac same_scores h :=
  unfold h; repeat (case_match; cbn [fst]; try done);
  autorewrite with roomview; unfold scores; simpl;
  autorewrite with roomview; rewrite ?map_updFirst by done; done.

(** Handlers other than GUESS, RESTART_GAME and JOIN_ROOM leave every
    member's key and score alone. *)
Lemma scores_handler sid o e room :
  (∀ rid guess, e ≠ GUESS rid guess) → (∀ rid, e ≠ RESTART_GAME rid) →
  (∀ rid rpin uname ucolor ukey, e ≠ JOIN_ROOM rid rpin uname ucolor ukey) →
  scores (handler words sid o e room).1 = scores room.
Proof.
  intros Hg Hr Hj. destruct e; cbn [handler]; try done;
    try (exfalso; first [by eapply Hg | by eapply Hr | by eapply Hj]).
  - same_scores onDraw.
  - same_scores onClearCanvasRequest.
  - same_scores onSkipRound.
  - same_scores onSetActiveGame.
  - same_scores onClaimMusicHost.
  - same_scores onReleaseMusicHost.
  - same_scores onMusicSuggestTrack.
  - same_scores onMusicAcceptSuggestion.
  - same_scores onMusicRejectSuggestion.
  - same_scores onMusicAddToQueue.
  - same_scores onSpotifyHostSessionUpdate.
  - same_scores onSpotifyHostDeviceUpdate.
  - unfold onMusicControlRequest.
    destruct (findBySocket sid (users room)) as [user|]; [|done].
    destruct (_ || _); [done|].
    destruct (musicControl_frame rid action payload (now o) user
                (mkWorld room (refreshes o) (fetches o))) as [[Hu _] _].
    destruct (musicControl _ _ _ _ _ _) as [[err|outs] w]; simpl in *;
      unfold scores; by rewrite Hu.
  - same_scores onSetWheelOptions.
  - same_scores onAddLobbyNote.
  - same_scores onDeleteLobbyNote.
  - same_scores onSpinWheel.
  - same_scores onDisconnectRoom.
Qed.

Lemma pointsOf_onJoinExisting sid rid rpin uname ucolor ukey rnd room k p :
  pointsOf k room = Some p →
  pointsOf k (onJoinExisting words sid rid rpin uname ucolor ukey rnd room).1
  = Some p.
Proof.
  intros Hp. unfold onJoinExisting.
  destruct (negb (String.eqb (pin room) rpin)); [done|].
  match goal with
  | |- context [match ?a with Some _ => _ | None => (room, _) end] =>
      assert (Hadm : ∀ room1, a = Some room1 → pointsOf k room1 = Some p);
      [|destruct a as [room1|]; [|done]]
  end.
  { intros room1. destruct (List.find _ _) as [user|].
    - intros [= <-]. rewrite <- Hp. apply pointsOf_scores.
      unfold scores. repeat case_match; simpl; rewrite map_updFirst by done;
        done.
    - destruct (2 <=? length (users room))%nat; [done|]. intros [= <-].
      unfold pointsOf in *. simpl.
      destruct (findByKey k (users room)) as [u|] eqn:Hf; [|done].
      unfold findByKey in *. by rewrite (find_app_Some _ _ _ _ Hf). }
  specialize (Hadm room1 eq_refl). cbn [fst]. rewrite <- Hadm.
  apply pointsOf_scores. autorewrite with roomview.
  unfold scores. repeat (case_match; simpl);
    by match goal with H : users room1 = _ |- _ => rewrite H end.
Qed.

Lemma pointsOf_onRestartGame sid rid rnd room k p :
  pointsOf k room = Some p →
  pointsOf k (onRestartGame words sid rid rnd room).1 = Some p
  ∨ pointsOf k (onRestartGame words sid rid rnd room).1 = Some 0.
Proof.
  intros Hp. unfold onRestartGame.
  destruct (findBySocket sid (users room)) as [requester|]; cbn [fst];
    [right|by left].
  transitivity (pointsOf k (setUsers (map (setPoints 0) (users room)) room)).
  { apply pointsOf_scores. autorewrite with roomview. unfold startRound.
    repeat case_match; by autorewrite with roomview. }
  unfold pointsOf, findByKey in *. simpl.
  induction (users room) as [|x xs IH]; simpl in *; [done|].
  destruct (Js.eqo k (userKey x)); [done | by apply IH].
Qed.

Lemma pointsOf_onGuess sid rid guess rnd room k p :
  pointsOf k room = Some p →
  let room' := (onGuess words sid rid guess rnd room).1 in
  pointsOf k room' = Some p
  ∨ (pointsOf k room' = Some (p + 1)
     ∧ guesserUserKey (game room) = k
     ∧ guesserId (game room) = Some sid
     ∧ (∃ word, currentWord (game room) = Some word
                ∧ guessMatches guess word = true)
     ∧ (MAX_SCORE ≤ p + 1 →
        roundCleared room' ∧ winnerUserKey (game room') = k)).
Proof.
  intros Hp. cbn zeta. unfold onGuess.
  destruct (guessAccepted sid room) eqn:Hacc; cbn [negb fst]; [|by left].
  apply guessAccepted_roles in Hacc as (_ & _ & Hgk & Hgid).
  destruct (currentWord (game room)) as [word|] eqn:Hw; [|by left].
  destruct (guessMatches guess word) eqn:Hm; cbn [negb].
  2: { left. rewrite <- Hp. apply pointsOf_scores.
       destruct (MAX_WRONG_GUESSES <=? _); cbn [fst];
         by autorewrite with roomview. }
  destruct (findByKey _ _) as [guesser|] eqn:Hfind; [|by left].
  clear Hgk. set (g := guesserUserKey (game room)) in *.
  assert (Hscore : ∀ us',
    scores (setUsers us' room)
    = scores (setUsers (updFirst (fun u => Js.eqo g (userKey u))
                          (setPoints (points guesser + 1)) (users room)) room) →
    pointsOf k (setUsers us' room)
    = if decide (g = k) then Some (p + 1) else Some p).
  { intros us' ->%(pointsOf_scores k). unfold pointsOf in *.
    cbn [users setUsers]. case_decide as Hgk; subst.
    - rewrite findByKey_updFirst_same by done.
      rewrite Hfind in *. simpl in *. by simplify_eq.
    - rewrite findByKey_updFirst_other by done. done. }
  destruct (MAX_SCORE <=? points guesser + 1) eqn:Hcap; cbn [fst].
  - match goal with
    | |- context [setGame ?g' (setUsers ?us' room)] =>
        assert (Hpts : pointsOf k (setGame g' (setUsers us' room))
                       = if decide (g = k) then Some (p + 1) else Some p)
    end.
    { rewrite <- Hscore at 1; [reflexivity|].
      unfold scores. simpl. by rewrite map_map. }
    rewrite Hpts. case_decide as Hgk; [subst; right | by left].
    split_and!; eauto.
    intros _. split; [by repeat split|]. simpl.
    unfold findByKey in Hfind. apply find_some in Hfind as [_ He].
    by apply eqo_true in He.
  - assert (Hpts : ∀ r, scores r = scores (setUsers
                (updFirst (fun u => Js.eqo g (userKey u))
                   (setPoints (points guesser + 1)) (users room)) room) →
              pointsOf k r = if decide (g = k) then Some (p + 1) else Some p).
    { intros r Hr. rewrite (pointsOf_scores k _ _ Hr). by apply Hscore. }
    rewrite Hpts by by autorewrite with roomview.
    case_decide as Hgk; [subst; right | by left].
    split_and!; eauto. intros Hle. apply Z.leb_gt in Hcap.
    unfold pointsOf in Hp. rewrite Hfind in Hp. simpl in Hp. simplify_eq. lia.
Qed.

End Scores.

(** ** C3: the wrong-guess counter *)

(** The wrong-guess branch as it is meant to work: below the cap only the
    counter moves and only the guesser is told; at the cap the roles are
    swapped and the counter is back at 0; no score changes either way. *)
Lemma onGuess_wrong words sid rid guess rnd room word :
  guessAccepted sid room = true →
  currentWord (game room) = Some word →
  guessMatches guess word = false →
  scores (onGuess words sid rid guess rnd room).1 = scores room
  ∧ (wrongGuessCount (game room) + 1 < MAX_WRONG_GUESSES →
     onGuess words sid rid guess rnd room
     = (setGame (setWrongGuessCount (wrongGuessCount (game room) + 1)
                   (game room)) room,
        [To (Some sid)
           (WRONG_GUESS (wrongGuessCount (game room) + 1) MAX_WRONG_GUESSES)]))
  ∧ (MAX_WRONG_GUESSES ≤ wrongGuessCount (game room) + 1 →
     drawerUserKey (game (onGuess words sid rid guess rnd room).1)
     = guesserUserKey (game room)
     ∧ guesserUserKey (game (onGuess words sid rid guess rnd room).1)
       = drawerUserKey (game room)
     ∧ wrongGuessCount (game (onGuess words sid rid guess rnd room).1) = 0).
Proof.
  intros Hacc Hw Hm. unfold onGuess. rewrite Hacc, Hw, Hm. cbn [negb].
  destruct (Z.leb_spec MAX_WRONG_GUESSES (wrongGuessCount (game room) + 1));
    cbn [fst]; split_and!; try done; try lia.
  by autorewrite with roomview.
Qed.

(** Every round boundary of the claim goes through [rotateRoles] or the
    winning branch, and both put the counter at 0. *)
Lemma rotateRoles_resets_count words rnd room :
  wrongGuessCount (game (rotateRoles words rnd room)) = 0.
Proof. done. Qed.

(** C3, at the failing run. The round that Ann's return starts inherits the
    three wrong guesses of the round before the restart, so the second wrong
    guess of the new round already skips it. *)
Theorem C3_stale_count_skips_early :
  gameOf (run someWords staleCount ∅).1 "R1"
  = Some (mkGame (Some "s3") (Some "s2") (Some "A") (Some "B") (Some "cat") []
            None 3 None DEFAULT_WHEEL_OPTIONS)
  ∧ take 2 (run someWords
              [from "s2" (GUESS "R1" "bird"); from "s2" (GUESS "R1" "bird")]
              (run someWords staleCount ∅).1).2
    = [ To (Some "s2") (WRONG_GUESS 4 5);
        To (Some "R1") (ROUND_SKIPPED (Some "cat")) ].
Proof. split; vm_compute; reflexivity. Qed.

(** ** C5: spinning the wheel *)

(** C5, at the failing run. The turn is Ann's, Bob spins, and the server
    broadcasts a result for Bob's spin. *)
Theorem C5_spin_without_turn :
  (wheelTurnUserKey <$> gameOf (run someWords bothOnWheel ∅).1 "R1")
  = Some (Some "A")
  ∧ (step someWords "s2" quiet (SPIN_WHEEL "R1")
       (run someWords bothOnWheel ∅).1).2 !! 0%nat
    = Some (To (Some "R1")
              (WHEEL_RESULT (Some "Movie night pick") 0 (Some "B"))).
Proof. split; vm_compute; reflexivity. Qed.

(** ** C6: playing the head of the queue *)

(** C6, at the failing run. The play call fails, the caller gets the
    failure, and the queued track is gone. *)
Theorem C6_failed_play_loses_entry :
  (length <$> queueOf (run someWords hostWithQueue ∅).1 "R1") = Some 1%nat
  ∧ (run someWords [playRefused] (run someWords hostWithQueue ∅).1).2
    = [Ack (ReplyFail (ApiFailed 404))]
  ∧ queueOf (run someWords [playRefused] (run someWords hostWithQueue ∅).1).1
      "R1" = Some [].
Proof. split_and!; vm_compute; reflexivity. Qed.

(** ** The concrete rooms are states of the server *)

Lemma roundRoom_reachable :
  (run someWords [joinAnn "s1"; joinBob "s2"] ∅).1 !! "R1" = Some roundRoom.
Proof. vm_compute. reflexivity. Qed.

Lemma hostedRoom_reachable :
  (run someWords annHosts ∅).1 !! "R1" = Some hostedRoom.
Proof. vm_compute. reflexivity. Qed.

Lemma aloneRoom_reachable :
  (run someWords [joinAnn "s1"; joinBob "s2"; from "s1" DISCONNECT] ∅).1
    !! "R1" = Some aloneRoom.
Proof. vm_compute. reflexivity. Qed.

Lemma judgedCorrect_skipOuts rid w room :
  judgedCorrect (skipOuts rid w room) = false.
Proof. unfold skipOuts, assignWord. by destruct (Js.truthy _). Qed.

(** ** White space and letter case *)

(** Every character, for the facts that are checked character by
    character. *)
Lemma ascii_cases (p : ascii → bool) :
  forallb p (map ascii_of_nat (seq 0 256)) = true → ∀ c, p c = true.
Proof.
  intros Hall c. rewrite forallb_forall in Hall. apply Hall.
  rewrite <- (ascii_nat_embedding c). apply in_map, in_seq.
  pose proof (nat_ascii_bounded c). lia.
Qed.

Lemma isSpace_blank c : Js.isSpace c = blank c.
Proof.
  apply Bool.eqb_prop.
  apply (ascii_cases (fun c => Bool.eqb (Js.isSpace c) (blank c))).
  vm_compute. reflexivity.
Qed.

Lemma blank_lowerChar c : blank (Js.lowerChar c) = blank c.
Proof.
  apply Bool.eqb_prop.
  apply (ascii_cases (fun c => Bool.eqb (blank (Js.lowerChar c)) (blank c))).
  vm_compute. reflexivity.
Qed.

Lemma sameLetter_lowerChar c d :
  sameLetter c d = Ascii.eqb (Js.lowerChar c) (Js.lowerChar d).
Proof.
  apply Bool.eqb_prop. revert d.
  apply (ascii_cases
           (fun d => Bool.eqb (sameLetter c d)
                       (Ascii.eqb (Js.lowerChar c) (Js.lowerChar d)))).
  revert c.
  apply (ascii_cases
           (fun c => forallb
                       (fun d => Bool.eqb (sameLetter c d)
                                   (Ascii.eqb (Js.lowerChar c)
                                      (Js.lowerChar d)))
                       (map ascii_of_nat (seq 0 256)))).
  vm_compute. reflexivity.
Qed.

Lemma sameUpToCase_toLowerCase s t :
  sameUpToCase s t = true ↔ Js.toLowerCase s = Js.toLowerCase t.
Proof.
  revert t. induction s as [|c s IH]; intros [|d t]; simpl; try done.
  rewrite andb_true_iff, sameLetter_lowerChar, Ascii.eqb_eq, IH.
  split; [by intros [-> ->] | by intros [= -> ->]].
Qed.

Lemma trimStart_toLowerCase s :
  Js.trimStart (Js.toLowerCase s) = Js.toLowerCase (Js.trimStart s).
Proof.
  induction s as [|c s IH]; simpl; [done|].
  rewrite !isSpace_blank, blank_lowerChar. by destruct (blank c).
Qed.

Lemma trimEnd_toLowerCase s :
  Js.trimEnd (Js.toLowerCase s) = Js.toLowerCase (Js.trimEnd s).
Proof.
  induction s as [|c s IH]; simpl; [done|].
  rewrite IH, !isSpace_blank, blank_lowerChar.
  destruct (Js.trimEnd s); simpl; [by destruct (blank c) | done].
Qed.

Lemma trim_toLowerCase s :
  Js.trim (Js.toLowerCase s) = Js.toLowerCase (Js.trim s).
Proof.
  unfold Js.trim. by rewrite trimStart_toLowerCase, trimEnd_toLowerCase.
Qed.

(** *** What [trim] cuts off *)

Lemma allBlank_app l r :
  allBlank (String.append l r) = allBlank l && allBlank r.
Proof. induction l as [|c l IH]; simpl; [done|]. by rewrite IH, andb_assoc. Qed.

Lemma trimStart_cut s :
  ∃ l, s = String.append l (Js.trimStart s) ∧ allBlank l = true.
Proof.
  induction s as [|c s (l & Hs & Hl)]; [by exists EmptyString|].
  cbn [Js.trimStart]. rewrite isSpace_blank. destruct (blank c) eqn:Hc.
  - exists (String c l). split; [exact (f_equal (String c) Hs)|].
    cbn [allBlank]. by rewrite Hc.
  - by exists EmptyString.
Qed.

Lemma trimStart_head s c rest :
  Js.trimStart s = String c rest → blank c = false.
Proof.
  induction s as [|d s IH]; simpl; [done|].
  rewrite isSpace_blank. destruct (blank d) eqn:Hd; [done|].
  by intros [= <- _].
Qed.

Lemma trimEnd_cut s :
  ∃ r, s = String.append (Js.trimEnd s) r ∧ allBlank r = true.
Proof.
  induction s as [|c s (r & Hs & Hr)]; [by exists EmptyString|].
  cbn [Js.trimEnd]. destruct (Js.trimEnd s) as [|d t] eqn:Ht.
  - rewrite isSpace_blank. destruct (blank c) eqn:Hc.
    + exists (String c r). split; [exact (f_equal (String c) Hs)|].
      cbn [allBlank]. by rewrite Hc.
    + exists r. split; [exact (f_equal (String c) Hs) | done].
  - exists r. split; [exact (f_equal (String c) Hs) | done].
Qed.

Lemma trimEnd_head s c rest :
  Js.trimEnd s = String c rest → ∃ rest', s = String c rest'.
Proof.
  destruct s as [|d s]; simpl; [done|].
  destruct (Js.trimEnd s); [destruct (Js.isSpace d)|]; intros [= <- _];
    by eexists.
Qed.

Lemma trimEnd_last s init c :
  Js.trimEnd s = String.append init (String c EmptyString) → blank c = false.
Proof.
  revert init. induction s as [|d s IH]; intros init; simpl.
  { by destruct init. }
  destruct (Js.trimEnd s) as [|e t] eqn:Ht.
  - rewrite isSpace_blank. destruct (blank d) eqn:Hd; [by destruct init|].
    destruct init as [|i [|]]; simpl; [|done|done]. by intros [= <-].
  - destruct init as [|i init]; simpl; [done|].
    intros [= _ Hrest]. by apply (IH init).
Qed.

Lemma trim_trimmedTo s : trimmedTo s (Js.trim s).
Proof.
  unfold Js.trim. split_and!.
  - destruct (trimStart_cut s) as (l & Hs & Hl).
    destruct (trimEnd_cut (Js.trimStart s)) as (r & Ht & Hr).
    exists l, r. split_and!; [|done|done]. by rewrite <- Ht.
  - intros c rest [rest' Hh]%trimEnd_head. by eapply trimStart_head.
  - intros init c. apply trimEnd_last.
Qed.

Lemma trimStart_blank l x :
  allBlank l = true → Js.trimStart (String.append l x) = Js.trimStart x.
Proof.
  induction l as [|c l IH]; simpl; [done|].
  rewrite isSpace_blank. by intros [-> ?]%andb_true_iff; apply IH.
Qed.

Lemma trimEnd_blank r : allBlank r = true → Js.trimEnd r = EmptyString.
Proof.
  induction r as [|c r IH]; simpl; [done|].
  intros [Hc Hr]%andb_true_iff. by rewrite (IH Hr), isSpace_blank, Hc.
Qed.

Lemma trimStart_id core :
  (∀ c rest, core = String c rest → blank c = false) →
  Js.trimStart core = core.
Proof.
  destruct core as [|c rest]; simpl; [done|]. intros H.
  by rewrite isSpace_blank, (H c rest eq_refl).
Qed.

Lemma trimEnd_core core r :
  (∀ init c, core = String.append init (String c EmptyString) →
             blank c = false) →
  allBlank r = true →
  Js.trimEnd (String.append core r) = core.
Proof.
  intros Hlast Hr. induction core as [|c core IH]; simpl.
  { by apply trimEnd_blank. }
  rewrite IH.
  - destruct core as [|d core]; [|done].
    by rewrite isSpace_blank, (Hlast EmptyString c eq_refl).
  - intros init d ->. by apply (Hlast (String c init) d).
Qed.

Lemma trimStart_allBlank r : allBlank r = true → Js.trimStart r = EmptyString.
Proof.
  induction r as [|c r IH]; simpl; [done|].
  rewrite isSpace_blank. by intros [-> ?]%andb_true_iff; apply IH.
Qed.

Lemma trimmedTo_trim s core : trimmedTo s core → Js.trim s = core.
Proof.
  intros ((l & r & -> & Hl & Hr) & Hhead & Hlast). unfold Js.trim.
  rewrite trimStart_blank by done.
  destruct core as [|c rest].
  - change (String.append EmptyString r) with r.
    by rewrite (trimStart_allBlank r Hr).
  - rewrite trimStart_id.
    + by apply trimEnd_core.
    + change (String.append (String c rest) r)
        with (String c (String.append rest r)).
      intros d rest' [= <- _]. by apply (Hhead c rest).
Qed.

(** The test of the server is the comparison of the specification. *)
Lemma guessMatches_matchesWord guess word :
  guessMatches guess word = true ↔ matchesWord guess word.
Proof.
  unfold guessMatches, matchesWord.
  rewrite String.eqb_eq, trim_toLowerCase, <- sameUpToCase_toLowerCase.
  split.
  - intros Hsame. exists (Js.trim guess). split; [apply trim_trimmedTo | done].
  - intros (core & Hcore & Hsame). by rewrite (trimmedTo_trim _ _ Hcore).
Qed.

(** ** C7: claiming the music host *)

Lemma eqs_true o s : Js.eqs o s = true ↔ o = Some s.
Proof.
  destruct o as [x|]; simpl; [|done]. rewrite String.eqb_eq.
  split; [by intros -> | by intros [= ->]].
Qed.

Lemma eqs_false o s : Js.eqs o s = false ↔ o ≠ Some s.
Proof.
  rewrite <- eqs_true. by destruct (Js.eqs o s).
Qed.

(** C7, counterexample. Ann is the connected host and claims again: the
    claim is granted, no error is sent. *)
Lemma C7_host_may_claim_again : ¬ claimFailsWhileHostConnected someWords.
Proof.
  intros H.
  pose (inputs := [joinAnn "s1"; from "s1" (CLAIM_MUSIC_HOST "R1")]).
  destruct ((run someWords inputs ∅).1 !! "R1") as [room|] eqn:Hroom;
    [|by vm_compute in Hroom].
  specialize (H inputs "s1" "R1" room
                (mkUser (Some "A") (Some "s1") "Ann" "red" WAITING 0 TabDrawing)
                Hroom).
  vm_compute in Hroom. injection Hroom as <-.
  discriminate H; [by eexists | reflexivity | reflexivity].
Qed.

(** C7, amended. The host is the one field [hostUserKey].  A claim by a
    member other than the current host, while that host (with a non-empty
    key) is registered and connected, fails with the error that names the
    holder and changes nothing.  Every other claim by a member is granted:
    there is no current host, or the claimant is the host, or the host is
    not a connected member. *)
Theorem C7_claim_host sid rid room user :
  findBySocket sid (users room) = Some user →
  (∀ hk holder,
     hostUserKey (music room) = Some hk → hk ≠ EmptyString →
     Some hk ≠ userKey user →
     findByKey (Some hk) (users room) = Some holder →
     connected holder = true →
     onClaimMusicHost sid rid room
     = (room, [Emit (MUSIC_ERROR (alreadyHosting holder))]))
  ∧ (onClaimMusicHost sid rid room
     = (grantedTo sid user room,
        [To (Some rid) (ROOM_STATE (grantedTo sid user room))]) →
     Js.truthy (hostUserKey (music room)) = false
     ∨ hostUserKey (music room) = userKey user
     ∨ ∀ holder,
         findByKey (hostUserKey (music room)) (users room) = Some holder →
         connected holder = false).
Proof.
  intros Huser. unfold onClaimMusicHost. rewrite Huser. split.
  - intros hk holder Hhost Hne Hother Hfind Hconn.
    unfold blockingHost. rewrite Hhost, Hfind, Hconn.
    apply eqo_false in Hother. rewrite Hother.
    unfold Js.truthy, Js.truthyS.
    destruct (String.eqb_spec hk EmptyString) as [|_]; [done|]. done.
  - unfold blockingHost.
    destruct (Js.truthy (hostUserKey (music room))) eqn:Ht; [|by left].
    destruct (Js.eqo (hostUserKey (music room)) (userKey user)) eqn:He.
    { intros _. right; left. by apply eqo_true. }
    cbn [andb negb].
    destruct (findByKey _ _) as [holder|]; [|intros _; right; right; done].
    destruct (connected holder) eqn:Hc; [done|].
    intros _. right; right. by intros ? [= <-].
Qed.

(** The theorem at Bob's claim while Ann hosts. *)
Lemma C7_claim_host_witness :
  onClaimMusicHost "s2" "R1" hostedRoom
  = (hostedRoom, [Emit (MUSIC_ERROR "Ann is already hosting Spotify.")]).
Proof.
  apply (proj1 (C7_claim_host "s2" "R1" hostedRoom
                  (mkUser (Some "B") (Some "s2") "Bob" "blue" GUESSING 0
                     TabDrawing)
                  eq_refl)
           "A" (mkUser (Some "A") (Some "s1") "Ann" "red" DRAWING 0
                  TabDrawing));
    done.
Defined.

(** ** C8, C9: the host and the roles across a disconnect *)

Lemma music_syncWheelTurn room : music (syncWheelTurn room) = music room.
Proof.
  unfold syncWheelTurn. destruct (List.filter onWheel (users room)); [done|].
  by destruct (existsb _ _).
Qed.

Lemma lobbyNotes_syncWheelTurn room :
  lobbyNotes (syncWheelTurn room) = lobbyNotes room.
Proof.
  unfold syncWheelTurn. destruct (List.filter onWheel (users room)); [done|].
  by destruct (existsb _ _).
Qed.

Lemma liveIds_syncWheelTurn room :
  drawerId (game (syncWheelTurn room)) = drawerId (game room)
  ∧ guesserId (game (syncWheelTurn room)) = guesserId (game room).
Proof.
  unfold syncWheelTurn. destruct (List.filter onWheel (users room)); [done|].
  by destruct (existsb _ _).
Qed.

(** C8, failing run. Bob is the music host on connection s2 with a stored
    session; the same connection then joins as Ann, who comes first in the
    member list, and closes.  The disconnect handler takes the first member
    bound to the connection, Ann, and compares the host key with hers: no
    host field is cleared.  The snapshot it broadcasts still has the
    session, the client id, the ready flag and the host socket of the
    closed connection, and Bob still counts as connected. *)
Theorem C8_host_closes_session_kept :
  ∃ before after,
    (run someWords sharedSocket ∅).1 !! "R1" = Some before
    ∧ (run someWords hostSharesSocket ∅).1 !! "R1" = Some after
    ∧ last (run someWords hostSharesSocket ∅).2
      = Some (To (Some "R1") (ROOM_STATE after))
    ∧ hostUserKey (music before) = Some "B"
    ∧ hostSocketId (music before) = Some "s2"
    ∧ (socketId <$> findByKey (Some "B") (users before)) = Some (Some "s2")
    ∧ music after = music before
    ∧ hostSession (music after) = Some longSession
    ∧ hasHostSession (music after) = true
    ∧ clientId (music after) = Some "client"
    ∧ (socketId <$> findByKey (Some "B") (users after)) = Some (Some "s2")
    ∧ music after ≠ hostDropped (music before).
Proof.
  destruct ((run someWords sharedSocket ∅).1 !! "R1") as [before|] eqn:Hb;
    [|by vm_compute in Hb].
  destruct ((run someWords hostSharesSocket ∅).1 !! "R1") as [after|] eqn:Ha;
    [|by vm_compute in Ha].
  exists before, after.
  vm_compute in Hb. injection Hb as <-.
  vm_compute in Ha. injection Ha as <-.
  split_and!; try reflexivity. discriminate.
Qed.

(** X25. The disconnect handler acts on the first member bound to the
    closed connection.  When that member is the music host, the session,
    the client id, the device id and the host socket are cleared and the
    ready flag is false, while [hostUserKey] and [hostName] stay; an
    explicit release by the host clears the identity too.  Neither touches
    the scores, the member keys, the notes or the two queues; a release
    changes nothing but the music state. *)
Theorem host_disconnect_and_release sid rid room user :
  findBySocket sid (users room) = Some user →
  isHost user room = true →
  (music (onDisconnectRoom sid room).1 = hostDropped (music room)
   ∧ hostUserKey (music (onDisconnectRoom sid room).1) = userKey user
   ∧ scores (onDisconnectRoom sid room).1 = scores room
   ∧ lobbyNotes (onDisconnectRoom sid room).1 = lobbyNotes room)
  ∧ (onReleaseMusicHost sid rid room).1
    = setMusic (hostReleased (music room)) room.
Proof.
  intros Huser Hhost. unfold onDisconnectRoom, onReleaseMusicHost.
  rewrite Huser, Hhost. unfold isHost in Hhost. rewrite Hhost. cbn [fst negb].
  rewrite music_syncWheelTurn, lobbyNotes_syncWheelTurn.
  autorewrite with roomview.
  split_and!; try done.
  - by apply eqo_true in Hhost.
  - unfold scores. cbn [users setUsers setGame setMusic].
    by rewrite map_updFirst.
Qed.

(** The theorem at Ann's disconnect and at her release in [hostedRoom]. *)
Lemma host_disconnect_and_release_witness :
  music (onDisconnectRoom "s1" hostedRoom).1
  = mkMusic (Some "A") None (Some "Ann") None false None None [] []
  ∧ music (onReleaseMusicHost "s1" "R1" hostedRoom).1
    = mkMusic None None None None false None None [] [].
Proof.
  destruct (host_disconnect_and_release "s1" "R1" hostedRoom
              (mkUser (Some "A") (Some "s1") "Ann" "red" DRAWING 0 TabDrawing)
              eq_refl eq_refl) as [(Hdrop & _) Hrel].
  split; [exact Hdrop | by rewrite Hrel].
Defined.

Lemma roomId_syncWheelTurn room : roomId (syncWheelTurn room) = roomId room.
Proof.
  unfold syncWheelTurn. destruct (List.filter onWheel (users room)); [done|].
  by destruct (existsb _ _).
Qed.

(** C9, counterexample. Ann and Bob join and Bob's connection drops: the
    snapshot of the disconnect has one connected user and both role keys
    set. *)
Lemma C9_roles_kept_on_disconnect : ¬ rolesNullWhenShort someWords.
Proof.
  intros H.
  pose (inputs := [joinAnn "s1"; joinBob "s2"; from "s2" DISCONNECT]).
  specialize (H inputs).
  destruct ((run someWords inputs ∅).2 !! 6%nat) as [o|] eqn:Ho;
    [|by vm_compute in Ho].
  pose proof (Forall_lookup_1 _ _ _ _ H Ho) as Hsnap.
  vm_compute in Ho. injection Ho as <-.
  destruct (Hsnap _ eq_refl) as [Hd _]; [vm_compute; lia | discriminate Hd].
Qed.

(** C9, amended. A disconnect clears only the live connection ids that
    were bound to the closed connection and broadcasts the room it leaves:
    the drawer and guesser keys stay as they were, whatever the number of
    connected users; a live id bound to the closed connection becomes null,
    a live id bound to another connection (or null) stays.  Both keys are
    null in the snapshot of a restart that finds fewer than two connected
    users. *)
Theorem C9_roles_and_connections words sid rid rnd room user :
  findBySocket sid (users room) = Some user →
  ((onDisconnectRoom sid room).2
   = [To (Some (roomId room)) (ROOM_STATE (onDisconnectRoom sid room).1)]
   ∧ drawerUserKey (game (onDisconnectRoom sid room).1)
     = drawerUserKey (game room)
   ∧ guesserUserKey (game (onDisconnectRoom sid room).1)
     = guesserUserKey (game room)
   ∧ (drawerId (game room) = Some sid →
      drawerId (game (onDisconnectRoom sid room).1) = None)
   ∧ (drawerId (game room) ≠ Some sid →
      drawerId (game (onDisconnectRoom sid room).1) = drawerId (game room))
   ∧ (guesserId (game room) = Some sid →
      guesserId (game (onDisconnectRoom sid room).1) = None)
   ∧ (guesserId (game room) ≠ Some sid →
      guesserId (game (onDisconnectRoom sid room).1)
      = guesserId (game room)))
  ∧ ((connectedCount room < 2)%nat →
     drawerUserKey (game (onRestartGame words sid rid rnd room).1) = None
     ∧ guesserUserKey (game (onRestartGame words sid rid rnd room).1) = None
     ∧ To (Some rid) (ROOM_STATE (onRestartGame words sid rid rnd room).1)
       ∈ (onRestartGame words sid rid rnd room).2).
Proof.
  intros Huser. split.
  - unfold onDisconnectRoom. rewrite Huser. cbn [fst snd].
    destruct (liveIds_syncWheelTurn
      (syncStatuses
         (setMusic
            (if Js.eqo (hostUserKey (music room)) (userKey user)
             then hostDropped (music room) else music room)
            (setGame
               (let g := game room in
                let g := if Js.eqs (drawerId g) sid then setDrawerId None g
                         else g in
                if Js.eqs (guesserId g) sid then setGuesserId None g else g)
               (setUsers (updFirst (bySocket sid) (setSocketId None)
                            (users room)) room))))) as [Hd Hg].
    unfold hostDropped in *. rewrite Hd, Hg, roomId_syncWheelTurn.
    autorewrite with roomview.
    cbn [game setGame setMusic setUsers roomId syncStatuses].
    destruct (Js.eqs (drawerId (game room)) sid) eqn:H1;
      destruct (Js.eqs (guesserId _) sid) eqn:H2; simpl in *;
      rewrite ?H2;
      first [apply eqs_true in H1 | apply eqs_false in H1];
      first [apply eqs_true in H2 | apply eqs_false in H2];
      split_and!; try done.
  - intros Hshort. unfold onRestartGame. rewrite Huser. cbn [fst snd].
    autorewrite with roomview. unfold startRound.
    unfold connectedCount in Hshort.
    assert (Hsame : List.filter connected
                      (users (setUsers (map (setPoints 0) (users room)) room))
                    = map (setPoints 0) (List.filter connected (users room))).
    { cbn [users setUsers]. clear.
      induction (users room) as [|u us IH]; simpl; [done|].
      change (connected (setPoints 0 u)) with (connected u).
      destruct (connected u); simpl; by rewrite IH. }
    rewrite Hsame.
    destruct (List.filter connected (users room)) as [|u1 [|u2 rest]];
      simpl in Hshort; try lia; (split_and!; [done | done |]);
      rewrite elem_of_app; right; do 2 right; by left.
Qed.

(** The theorem at the disconnect of Bob, the guesser of [roundRoom], and
    at his restart while Ann is away. *)
Lemma C9_roles_and_connections_witness :
  (drawerUserKey (game (onDisconnectRoom "s2" roundRoom).1) = Some "A"
   ∧ guesserUserKey (game (onDisconnectRoom "s2" roundRoom).1) = Some "B"
   ∧ drawerId (game (onDisconnectRoom "s2" roundRoom).1) = Some "s1"
   ∧ guesserId (game (onDisconnectRoom "s2" roundRoom).1) = None)
  ∧ (connectedCount aloneRoom < 2)%nat
  ∧ drawerUserKey (game aloneRoom) = Some "A"
  ∧ drawerUserKey (game (onRestartGame someWords "s2" "R1" 0 aloneRoom).1)
    = None
  ∧ guesserUserKey (game (onRestartGame someWords "s2" "R1" 0 aloneRoom).1)
    = None.
Proof.
  assert (Hshort : (connectedCount aloneRoom < 2)%nat) by (vm_compute; lia).
  destruct (C9_roles_and_connections someWords "s2" "R1" 0 aloneRoom _ eq_refl)
    as [_ Hrestart].
  destruct (Hrestart Hshort) as (Hd & Hg & _).
  destruct (C9_roles_and_connections someWords "s2" "R1" 0 roundRoom _ eq_refl)
    as [(_ & Hdk & Hgk & _ & Hdi & Hgi & _) _].
  split_and!;
    [ exact Hdk | exact Hgk | by apply Hdi | by apply Hgi
    | exact Hshort | reflexivity | exact Hd | exact Hg ].
Defined.

(** ** C10: the first join *)

(** C10. A JOIN_ROOM that names a room id with no room always succeeds,
    whatever the pin: it creates the room with the joiner as its only member
    and stores the pin it was given; only later joins are checked, against
    that stored pin. *)
Theorem C10_first_join_creates words sid o rid rpin uname ucolor ukey
    (rooms : gmap string Room) :
  rooms !! rid = None →
  step words sid o (JOIN_ROOM rid rpin uname ucolor ukey) rooms
  = (<[rid := newRoom sid rid rpin uname ucolor ukey]> rooms,
     [Emit (ROOM_STATE (newRoom sid rid rpin uname ucolor ukey));
      To (Some rid) (ROOM_STATE (newRoom sid rid rpin uname ucolor ukey))])
  ∧ pin (newRoom sid rid rpin uname ucolor ukey) = rpin
  ∧ users (newRoom sid rid rpin uname ucolor ukey)
    = [mkUser ukey (Some sid) uname ucolor WAITING 0 TabDrawing]
  ∧ ∀ sid' o' rpin' uname' ucolor' ukey',
      rpin' ≠ rpin →
      step words sid' o' (JOIN_ROOM rid rpin' uname' ucolor' ukey')
        (<[rid := newRoom sid rid rpin uname ucolor ukey]> rooms)
      = (<[rid := newRoom sid rid rpin uname ucolor ukey]> rooms,
         [Emit (JOIN_ERROR "Invalid PIN for this room.")]).
Proof.
  intros Hnone. split_and!; try done.
  - unfold step. cbn [target]. by rewrite Hnone.
  - intros sid' o' rpin' uname' ucolor' ukey' Hpin.
    unfold step. cbn [target]. rewrite lookup_insert_eq.
    cbn [handler]. unfold onJoinExisting. cbn [pin newRoom].
    destruct (String.eqb_spec rpin rpin') as [|_]; [done|].
    cbn [negb fst snd]. by rewrite insert_insert_eq.
Qed.

(** The theorem at Ann's join on the empty registry. *)
Lemma C10_first_join_creates_witness :
  step someWords "s1" quiet (JOIN_ROOM "R1" "0000" "Ann" "red" (Some "A")) ∅
  = ({[ "R1" := newRoom "s1" "R1" "0000" "Ann" "red" (Some "A") ]},
     [Emit (ROOM_STATE (newRoom "s1" "R1" "0000" "Ann" "red" (Some "A")));
      To (Some "R1") (ROOM_STATE (newRoom "s1" "R1" "0000" "Ann" "red" (Some "A")))]).
Proof.
  apply (C10_first_join_creates someWords "s1" quiet "R1" "0000" "Ann" "red"
           (Some "A") ∅).
  reflexivity.
Defined.

(** * Further properties of the server *)

Lemma slice0_length n s : (String.length (Js.slice0 n s) ≤ n)%nat.
Proof.
  revert s. induction n as [|n IH]; intros [|c s]; simpl; try lia.
  specialize (IH s). lia.
Qed.

Arguments Js.slice0 : simpl never.
Arguments Js.trim : simpl never.
Arguments Js.toLowerCase : simpl never.

Lemma truthyS_true s : Js.truthyS s = true ↔ s ≠ EmptyString.
Proof.
  unfold Js.truthyS. destruct (String.eqb_spec s EmptyString); simpl;
    split; congruence.
Qed.

Lemma normLoop_cons raw rest (seen : gset string) result :
  normLoop (raw :: rest) seen result
  = if negb (Js.truthyS (normalizeOption raw)) then normLoop rest seen result
    else if bool_decide (Js.toLowerCase (normalizeOption raw) ∈ seen)
         then normLoop rest seen result
         else if (24 <=? length (result ++ [normalizeOption raw]))%nat
              then result ++ [normalizeOption raw]
              else normLoop rest ({[Js.toLowerCase (normalizeOption raw)]} ∪ seen)
                     (result ++ [normalizeOption raw]).
Proof. done. Qed.

Lemma normLoop_spec options (seen : gset string) result :
  (length result < 24)%nat →
  NoDup (map Js.toLowerCase result) →
  (∀ k, k ∈ seen ↔ k ∈ map Js.toLowerCase result) →
  ∃ extra,
    normLoop options seen result = result ++ extra
    ∧ extra `sublist_of` map normalizeOption options
    ∧ Forall (fun v => v ≠ EmptyString) extra
    ∧ (length (result ++ extra) ≤ 24)%nat
    ∧ NoDup (map Js.toLowerCase (result ++ extra)).
Proof.
  revert seen result.
  induction options as [|raw rest IH]; intros seen result Hlen Hnd Hseen.
  - exists []. rewrite app_nil_r. simpl. split_and!; try done. lia.
  - rewrite normLoop_cons, fmap_cons.
    generalize (normalizeOption raw). intros v.
    destruct (Js.truthyS v) eqn:Ht; cbn [negb].
    2: { destruct (IH seen result Hlen Hnd Hseen) as (extra & ? & ? & ? & ? & ?).
         exists extra. split_and!; try done. by apply sublist_cons. }
    case_bool_decide as Hin.
    { destruct (IH seen result Hlen Hnd Hseen) as (extra & ? & ? & ? & ? & ?).
      exists extra. split_and!; try done. by apply sublist_cons. }
    assert (Hnd' : NoDup (map Js.toLowerCase (result ++ [v]))).
    { rewrite map_app. simpl. apply NoDup_app. split_and!; [done| |].
      - intros k Hk ->%list_elem_of_singleton. apply Hin. by apply Hseen.
      - apply NoDup_singleton. }
    destruct (24 <=? length (result ++ [v]))%nat eqn:Hfull.
    + exists [v]. split_and!; try done.
      * apply sublist_skip, sublist_nil_l.
      * constructor; [by apply truthyS_true | constructor].
      * rewrite length_app in *. simpl in *. lia.
    + apply Nat.leb_gt in Hfull.
      destruct (IH ({[Js.toLowerCase v]} ∪ seen)
                  (result ++ [v]) Hfull Hnd')
        as (extra & Heq & Hsub & Hne & Hle & Hnd2).
      { intros k. rewrite map_app, elem_of_app, elem_of_union. simpl.
        rewrite list_elem_of_singleton, elem_of_singleton, Hseen. tauto. }
      exists (v :: extra). rewrite Heq.
      rewrite <- !app_assoc in *. simpl in *. split_and!; try done.
      * by apply sublist_skip.
      * constructor; [by apply truthyS_true | done].
Qed.

Lemma normLoop_start options :
  normalizeWheelOptions options `sublist_of` map normalizeOption options
  ∧ Forall (fun v => v ≠ EmptyString) (normalizeWheelOptions options)
  ∧ (length (normalizeWheelOptions options) ≤ 24)%nat
  ∧ NoDup (map Js.toLowerCase (normalizeWheelOptions options)).
Proof.
  destruct (normLoop_spec options ∅ []) as (extra & Heq & Hsub & Hne & Hle & Hnd).
  { simpl. lia. }
  { constructor. }
  { intros k. simpl. rewrite elem_of_empty. split; [done|].
    by intros ?%not_elem_of_nil. }
  unfold normalizeWheelOptions. rewrite Heq. simpl in *. by split_and!.
Qed.

(** X1. The normalised wheel options are at most 24, none is empty, each is
    the trimmed raw option cut to 80 characters, they stand in the order in
    which the raw list has them, and no two are equal up to letter case. *)
Theorem normalizeWheelOptions_spec options :
  (length (normalizeWheelOptions options) ≤ 24)%nat
  ∧ Forall (fun v => v ≠ EmptyString ∧ (String.length v ≤ 80)%nat)
      (normalizeWheelOptions options)
  ∧ normalizeWheelOptions options `sublist_of` map normalizeOption options
  ∧ NoDup (map Js.toLowerCase (normalizeWheelOptions options)).
Proof.
  destruct (normLoop_start options) as (Hsub & Hne & Hle & Hnd).
  split_and!; try done.
  apply Forall_forall. intros v Hv. split.
  - by apply (proj1 (Forall_forall _ _) Hne).
  - pose proof (elem_of_sublist _ _ _ Hv Hsub) as Hin.
    apply list_elem_of_fmap in Hin as (raw & -> & _). apply slice0_length.
Qed.

(** X2. A track candidate is accepted only with a URI of the track shape
    and a name; what is kept is trimmed and cut to the bounds of the
    server. *)
Theorem normalizeTrackCandidate_spec track t :
  normalizeTrackCandidate track = Some t →
  Js.startsWith (t_uri t) "spotify:track:" = true
  ∧ t_name t ≠ EmptyString
  ∧ (String.length (t_name t) ≤ 160)%nat
  ∧ (String.length (t_id t) ≤ 120)%nat
  ∧ (String.length (t_artists t) ≤ 220)%nat
  ∧ (String.length (t_albumImage t) ≤ 500)%nat
  ∧ ∃ raw, track = Some raw ∧ t_uri t = Js.trim (t_uri raw).
Proof.
  unfold normalizeTrackCandidate. destruct track as [raw|]; [|done].
  destruct (negb (Js.truthyS (Js.trim (t_uri raw))) || _) eqn:Hempty; [done|].
  destruct (Js.startsWith _ _) eqn:Hstart; [|done]. simpl.
  intros [= <-]. simpl. apply orb_false_iff in Hempty as [_ Hname].
  apply negb_false_iff, truthyS_true in Hname.
  split_and!; try done; try apply slice0_length. by exists raw.
Qed.

Lemma normalizeTrackCandidate_spec_witness :
  Js.startsWith "spotify:track:t1" "spotify:track:" = true
  ∧ t_name (mkTrack "t1" "spotify:track:t1" "Song" "Band" EmptyString)
    ≠ EmptyString.
Proof.
  destruct (normalizeTrackCandidate_spec
              (Some (mkTrack " t1" " spotify:track:t1 " "Song " "Band"
                       EmptyString))
              (mkTrack "t1" "spotify:track:t1" "Song" "Band" EmptyString)
              eq_refl) as (H1 & H2 & _).
  split; [exact H1 | exact H2].
Defined.

(** ** Invariants of every run *)

Section RunInvariantOn.
Variable words : list string.
Variable Q : string → Event → Prop.
Variable P : Room → Prop.
Hypothesis P_new : ∀ sid rid rpin uname ucolor ukey e,
  e = CREATE_ROOM rid rpin uname ucolor ukey
  ∨ e = JOIN_ROOM rid rpin uname ucolor ukey →
  Q sid e → P (newRoom sid rid rpin uname ucolor ukey).
Hypothesis P_handler : ∀ sid o e room,
  Q sid e → P room → P (handler words sid o e room).1.

Lemma step_invariant_on sid o e (rooms : gmap string Room) :
  Q sid e →
  map_Forall (fun _ room => P room) rooms →
  map_Forall (fun _ room => P room) (step words sid o e rooms).1
  ∧ snapshotsSatisfy P (step words sid o e rooms).2.
Proof.
  intros Hq Hall. unfold step. destruct (target e) as [rid|] eqn:Ht.
  - destruct (rooms !! rid) as [room|] eqn:Hroom; cbn [fst snd].
    + pose proof (P_handler sid o e room Hq (Hall _ _ Hroom)) as Hi.
      split; [by apply map_Forall_insert_2|].
      eapply snapshotsAre_satisfy; [exact Hi | apply handler_snapshots].
    + destruct e; cbn [onMissing fst snd];
        (split; [first [done | apply map_Forall_insert_2;
                               [by eapply P_new; [|exact Hq]; eauto | done]]|]);
        unfold snapshotsSatisfy; repeat apply Forall_cons_2;
        try apply Forall_nil_2; simpl; intros ? [= <-];
        by eapply P_new; [|exact Hq]; eauto.
  - cbn [fst snd]. split.
    + apply map_Forall_fmap. intros k room Hk. simpl.
      by apply P_handler, (Hall _ _ Hk).
    + apply Forall_concat, Forall_fmap, Forall_forall.
      intros [k room] Hk%elem_of_map_to_list. simpl.
      eapply snapshotsAre_satisfy; [|apply handler_snapshots].
      by apply P_handler, (Hall _ _ Hk).
Qed.

Lemma run_invariant_on inputs (rooms : gmap string Room) :
  Forall (fun i => Q (i_socket i) (i_event i)) inputs →
  map_Forall (fun _ room => P room) rooms →
  map_Forall (fun _ room => P room) (run words inputs rooms).1
  ∧ snapshotsSatisfy P (run words inputs rooms).2.
Proof.
  revert rooms. induction inputs as [|i inputs IH]; intros rooms Hq Hall.
  - split; [done | constructor].
  - apply Forall_cons in Hq as [Hq1 Hq]. cbn [run fst snd].
    destruct (step_invariant_on (i_socket i) (i_oracle i) (i_event i) rooms
                Hq1 Hall) as [Hall1 Hout1].
    destruct (IH _ Hq Hall1) as [Hall2 Hout2].
    split; [done|]. by apply Forall_app.
Qed.
End RunInvariantOn.

Section RunInvariant.
Variable words : list string.
Variable Q : string → Prop.
Variable P : Room → Prop.
Hypothesis P_new : ∀ sid rid rpin uname ucolor ukey,
  Q sid → P (newRoom sid rid rpin uname ucolor ukey).
Hypothesis P_handler : ∀ sid o e room,
  Q sid → P room → P (handler words sid o e room).1.

Lemma run_invariant inputs (rooms : gmap string Room) :
  Forall (fun i => Q (i_socket i)) inputs →
  map_Forall (fun _ room => P room) rooms →
  map_Forall (fun _ room => P room) (run words inputs rooms).1
  ∧ snapshotsSatisfy P (run words inputs rooms).2.
Proof.
  intros Hq. apply (run_invariant_on words (fun sid _ => Q sid) P); [| |done].
  - intros sid rid rpin uname ucolor ukey e _. apply P_new.
  - apply P_handler.
Qed.
End RunInvariant.

(** ** What the two synchronisation passes leave alone *)

Lemma syncWheelTurn_eq room :
  ∃ t, syncWheelTurn room = setGame (setWheelTurnUserKey t (game room)) room.
Proof.
  unfold syncWheelTurn. destruct (List.filter onWheel (users room)); [by eexists|].
  destruct (existsb _ _); [|by eexists].
  exists (wheelTurnUserKey (game room)). by destruct room as [? ? ? [] ? ?].
Qed.

Lemma length_updFirst p f us : length (updFirst p f us) = length us.
Proof.
  induction us as [|u us IH]; simpl; [done|]. destruct (p u); simpl; lia.
Qed.

Lemma length_sliceLast {A} n (l : list A) : (length (sliceLast n l) ≤ n)%nat.
Proof. unfold sliceLast. rewrite length_drop. lia. Qed.

Lemma length_capped {A} n (l : list A) :
  (length (if (n <? length l)%nat then sliceLast n l else l) ≤ n)%nat.
Proof.
  destruct (Nat.ltb_spec n (length l)); [apply length_sliceLast | lia].
Qed.

Lemma length_pushQueue entry q : (length (pushQueue entry q) ≤ MAX_MUSIC_QUEUE)%nat.
Proof. apply length_capped. Qed.

Lemma length_delete_le {A} i (l : list A) : (length (delete i l) ≤ length l)%nat.
Proof. apply sublist_length, sublist_delete. Qed.

Lemma normalizeWheelOptions_length options :
  (length (normalizeWheelOptions options) ≤ 24)%nat.
Proof. apply normLoop_start. Qed.

(** ** Control requests: what they can change, and their one answer *)

Lemma musicControl_changes rid action payload now user w :
  sameButSessionAndQueue (w_room w)
    (w_room (musicControl rid action payload now user w).2)
  ∧ ∀ outs, (musicControl rid action payload now user w).1 = inr outs →
            length (List.filter isAck outs) = 1%nat.
Proof.
  destruct w as [room rs fs]. run_monad. cbn [w_room w_refreshes w_fetches].
  repeat (case_match; simplify_eq; cbn [w_room w_refreshes w_fetches fst snd]).
  all: split; [|by intros outs [= <-]].
  all: unfold sameButSessionAndQueue; cbn; split_and!; eauto.
Qed.

(** ** Capacities *)

Lemma onMusicControlRequest_changes sid rid action payload now rs fs room :
  sameButSessionAndQueue room
    (onMusicControlRequest sid rid action payload now rs fs room).1.
Proof.
  assert (Hrefl : sameButSessionAndQueue room room).
  { unfold sameButSessionAndQueue. split_and!; eauto. }
  unfold onMusicControlRequest.
  destruct (findBySocket sid (users room)) as [user|]; [|done].
  destruct (_ || _); [done|].
  destruct (musicControl_changes rid action payload now user
              (mkWorld room rs fs)) as [Hsame _].
  by destruct (musicControl _ _ _ _ _ _) as [[err|outs] w].
Qed.

Section Capacities.
Variable words : list string.

Ltac open_syncs :=
  repeat match goal with
         | |- context [syncWheelTurn ?r] =>
             let t := fresh "t" in
             let E := fresh "E" in
             destruct (syncWheelTurn_eq r) as [t E]; rewrite E; clear E
         end;
  unfold rotateRoles, startRound, syncStatuses.

Ltac capped :=
  match goal with
  | |- context [length (if (?n <? length ?l)%nat then sliceLast ?n ?l else ?l)] =>
      pose proof (length_capped n l)
  end; lia.

Ltac bounded h :=
  let HB := fresh "HB" in
  intros HB; unfold h; repeat (case_match; cbn [fst]; try assumption);
  open_syncs; repeat case_match; unfold Bounded in *; simpl in *;
  rewrite ?length_map, ?length_updFirst, ?length_app; simpl;
  repeat match goal with
         | |- context [length (pushQueue ?e ?q)] =>
             pose proof (length_pushQueue e q); generalize dependent (pushQueue e q); intros
         | |- context [length (delete ?i ?l)] =>
             pose proof (length_delete_le i l); generalize dependent (delete i l); intros
         | |- context [length (List.filter ?f ?l)] =>
             pose proof (filter_length_le f l); generalize dependent (List.filter f l); intros
         end;
  try lia.

Lemma Bounded_handler sid o e room :
  Bounded room → Bounded (handler words sid o e room).1.
Proof.
  destruct e; cbn [handler]; try done.
  - (* JOIN_ROOM *)
    intros HB. unfold onJoinExisting.
    destruct (negb _); [done|].
    destruct (List.find _ _) as [user|].
    + open_syncs. repeat case_match; unfold Bounded in *; simpl in *;
        rewrite ?length_map, ?length_updFirst; try lia.
      all: match goal with
           | H : updFirst _ _ _ = _ |- _ =>
               apply (f_equal length) in H; rewrite length_updFirst in H;
               simpl in H
           end; lia.
    + destruct (Nat.leb_spec 2 (length (users room))); [done|].
      open_syncs. repeat case_match; unfold Bounded in *; simpl in *;
        rewrite ?length_map, ?length_app; simpl; lia.
  - bounded onDraw.
  - bounded onClearCanvasRequest.
  - bounded onGuess.
  - bounded onSkipRound.
  - bounded onRestartGame.
  - bounded onSetActiveGame.
  - bounded onClaimMusicHost.
  - bounded onReleaseMusicHost.
  - intros HB. unfold onMusicSuggestTrack.
    destruct (findBySocket sid (users room)) as [user|]; [|done].
    destruct (normalizeTrackCandidate track) as [normalized|]; [|done].
    cbn [fst]. unfold Bounded in *. simpl. capped.
  - bounded onMusicAcceptSuggestion.
  - bounded onMusicRejectSuggestion.
  - bounded onMusicAddToQueue.
  - bounded onSpotifyHostSessionUpdate.
  - bounded onSpotifyHostDeviceUpdate.
  - intros HB.
    destruct (onMusicControlRequest_changes sid rid action payload (now o)
                (refreshes o) (fetches o) room)
      as (_ & _ & Hu & Hg & Hn & _ & _ & _ & _ & _ & _ & Hs & _ & Hq).
    unfold Bounded in *. rewrite Hu, Hg, Hn, Hs.
    destruct Hq as [->|[next Hq]]; [done|]. rewrite Hq in HB. simpl in HB. lia.
  - intros HB. unfold onSetWheelOptions. repeat (case_match; try done).
    cbn [fst]. unfold Bounded in *. simpl.
    match goal with H : normalizeWheelOptions _ = _ |- _ =>
      pose proof (normalizeWheelOptions_length options) as Hl; rewrite H in Hl
    end. simpl in *. lia.
  - intros HB. unfold onAddLobbyNote.
    destruct (findBySocket sid (users room)) as [user|]; [|done].
    destruct (negb _); [done|].
    cbn [fst]. unfold Bounded in *. simpl. capped.
  - bounded onDeleteLobbyNote.
  - intros HB. unfold onSpinWheel. repeat (case_match; try done); cbn [fst].
    all: try (open_syncs; unfold Bounded in *; simpl in *; lia).
    all: match goal with H : normalizeWheelOptions ?x = _ |- _ =>
      pose proof (normalizeWheelOptions_length x) as Hl; rewrite H in Hl
         end.
    all: open_syncs; unfold Bounded in *; simpl in *; lia.
  - bounded onDisconnectRoom.
Qed.

Lemma Bounded_newRoom sid rid rpin uname ucolor ukey :
  Bounded (newRoom sid rid rpin uname ucolor ukey).
Proof. unfold Bounded, MAX_LOBBY_NOTES; simpl. lia. Qed.

(** X3. In every state and every snapshot of a run from the empty
    registry, a room has one or two members, at most 50 lobby notes, at
    most 100 suggestions, at most 200 queued tracks and between 1 and 24
    wheel options. *)
Theorem capacities_hold inputs :
  map_Forall (fun _ room => Bounded room) (run words inputs ∅).1
  ∧ snapshotsSatisfy Bounded (run words inputs ∅).2.
Proof.
  apply (run_invariant words (fun _ => True) Bounded).
  - intros. apply Bounded_newRoom.
  - intros. by apply Bounded_handler.
  - by apply Forall_forall.
  - apply map_Forall_empty.
Qed.
End Capacities.

(** ** Rooms, pins and members stay *)

Lemma extends_refl room : extends room room.
Proof. by split_and!. Qed.

Lemma extends_trans r1 r2 r3 : extends r1 r2 → extends r2 r3 → extends r1 r3.
Proof.
  intros (? & ? & ?) (? & ? & ?). split_and!; [congruence | congruence |].
  by etrans.
Qed.

Section Persistence.
Variable words : list string.

Ltac open_syncs :=
  repeat match goal with
         | |- context [syncWheelTurn ?r] =>
             let t := fresh "t" in
             let E := fresh "E" in
             destruct (syncWheelTurn_eq r) as [t E]; rewrite E; clear E
         end;
  unfold rotateRoles, startRound, syncStatuses.

Ltac extending h :=
  unfold h; repeat (case_match; simplify_eq; cbn [fst]; try apply extends_refl);
  open_syncs; repeat case_match; unfold extends, keys; simpl;
  rewrite ?map_map, ?map_updFirst by done; simpl;
  split_and!;
  first [done | reflexivity | rewrite ?map_app; by apply prefix_app_r].

Lemma extends_handler sid o e room :
  extends room (handler words sid o e room).1.
Proof.
  destruct e; cbn [handler]; try apply extends_refl.
  - extending onJoinExisting.
  - extending onDraw.
  - extending onClearCanvasRequest.
  - extending onGuess.
  - extending onSkipRound.
  - extending onRestartGame.
  - extending onSetActiveGame.
  - extending onClaimMusicHost.
  - extending onReleaseMusicHost.
  - extending onMusicSuggestTrack.
  - extending onMusicAcceptSuggestion.
  - extending onMusicRejectSuggestion.
  - extending onMusicAddToQueue.
  - extending onSpotifyHostSessionUpdate.
  - extending onSpotifyHostDeviceUpdate.
  - destruct (onMusicControlRequest_changes sid rid action payload (now o)
                (refreshes o) (fetches o) room) as (Hi & Hp & Hu & _).
    unfold extends, keys. by rewrite Hi, Hp, Hu.
  - extending onSetWheelOptions.
  - extending onAddLobbyNote.
  - extending onDeleteLobbyNote.
  - extending onSpinWheel.
  - extending onDisconnectRoom.
Qed.

Lemma step_keeps_room sid o e (rooms : gmap string Room) rid room :
  rooms !! rid = Some room →
  ∃ room', (step words sid o e rooms).1 !! rid = Some room'
           ∧ extends room room'.
Proof.
  intros Hroom. unfold step. destruct (target e) as [rid'|].
  - destruct (decide (rid' = rid)) as [->|Hne].
    + rewrite Hroom. cbn [fst]. rewrite lookup_insert_eq.
      eexists. split; [done | apply extends_handler].
    + exists room. split; [|apply extends_refl].
      destruct (rooms !! rid') as [other|]; cbn [fst].
      * by rewrite lookup_insert_ne.
      * destruct (onMissing sid e) as [[created|] outs]; cbn [fst];
          [by rewrite lookup_insert_ne | done].
  - cbn [fst]. rewrite lookup_fmap, Hroom. simpl.
    eexists. split; [done | apply extends_handler].
Qed.

(** X4. A room is never destroyed: whatever events follow, the room is
    still registered under its id, with the same pin, and with the members
    it had, in their join order, before any newer member. *)
Theorem rooms_persist inputs (rooms : gmap string Room) rid room :
  rooms !! rid = Some room →
  ∃ room', (run words inputs rooms).1 !! rid = Some room'
           ∧ extends room room'.
Proof.
  revert rooms room. induction inputs as [|i inputs IH]; intros rooms room Hr.
  - exists room. split; [done | apply extends_refl].
  - cbn [run fst].
    destruct (step_keeps_room (i_socket i) (i_oracle i) (i_event i) rooms rid
                room Hr) as (room1 & Hr1 & He1).
    destruct (IH _ _ Hr1) as (room' & Hr' & He').
    exists room'. split; [done | by eapply extends_trans].
Qed.
End Persistence.

Lemma rooms_persist_witness :
  ∃ room', (run someWords [joinBob "s2"; from "s1" DISCONNECT]
              {[ "R1" := newRoom "s1" "R1" "1234" "Ann" "red" (Some "A") ]}).1
             !! "R1" = Some room'
           ∧ extends (newRoom "s1" "R1" "1234" "Ann" "red" (Some "A")) room'.
Proof.
  apply (rooms_persist someWords [joinBob "s2"; from "s1" DISCONNECT]
           {[ "R1" := newRoom "s1" "R1" "1234" "Ann" "red" (Some "A") ]} "R1").
  reflexivity.
Defined.

(** ** The wheel turn *)

Lemma wheelKeys_view (us us' : list User) :
  map (fun u => (userKey u, socketId u, currentGame u)) us'
  = map (fun u => (userKey u, socketId u, currentGame u)) us →
  map userKey (List.filter onWheel us') = map userKey (List.filter onWheel us).
Proof.
  revert us'. induction us as [|u us IH]; intros [|u' us']; try done.
  cbn [map]. intros [= Hk Hs Hc Hrest]. specialize (IH _ Hrest).
  assert (Hw : onWheel u' = onWheel u).
  { unfold onWheel, connected. by rewrite Hs, Hc. }
  cbn [List.filter]. rewrite Hw. destruct (onWheel u); cbn [map]; congruence.
Qed.

Lemma turnValid_view room room' :
  wheelView room' = wheelView room → turnValid room → turnValid room'.
Proof.
  unfold wheelView, turnValid, wheelKeys. intros [= Hus Ht].
  by rewrite (wheelKeys_view _ _ Hus), Ht.
Qed.

Lemma turnValid_syncWheelTurn room : turnValid (syncWheelTurn room).
Proof.
  unfold turnValid, wheelKeys, syncWheelTurn.
  destruct (List.filter onWheel (users room)) as [|first rest] eqn:Hf.
  - simpl. by rewrite Hf.
  - destruct (existsb _ _) eqn:He; simpl; rewrite Hf; simpl.
    + apply existsb_exists in He as (u & Hu & Heq).
      apply eqo_true in Heq. rewrite Heq.
      change (userKey u ∈ map userKey (first :: rest)).
      by apply list_elem_of_In, in_map.
    + by left.
Qed.

Lemma bySocket_connected sid u :
  sid ≠ EmptyString → bySocket sid u = true → connected u = true.
Proof.
  unfold bySocket, connected. destruct (socketId u) as [s|]; [|done].
  intros Hne ->%String.eqb_eq. simpl. by apply truthyS_true.
Qed.

Section WheelTurn.
Variable words : list string.

Ltac turn_frame Hv :=
  eapply turnValid_view; [|exact Hv];
  unfold rotateRoles, startRound, syncStatuses, wheelView; simpl;
  rewrite ?map_map, ?map_updFirst by done; done.

Ltac turning h :=
  let Hv := fresh "Hv" in
  intros Hv; unfold h;
  repeat (case_match; simplify_eq; cbn [fst]; try assumption);
  first [apply turnValid_syncWheelTurn | turn_frame Hv].

Lemma turnValid_onSpinWheel sid rid rnd room :
  sid ≠ EmptyString → turnValid room →
  turnValid (onSpinWheel sid rid rnd room).1.
Proof.
  intros Hsid Hv. unfold onSpinWheel.
  destruct (findBySocket sid (users room)) as [spinner|] eqn:Hfind; [|done].
  destruct (isWheel (currentGame spinner)) eqn:Hw; [|done]. cbn [negb].
  destruct (normalizeWheelOptions _) as [|opt opts]; cbn [fst];
    [apply turnValid_syncWheelTurn|].
  apply find_some in Hfind as [Hin Hsock].
  assert (Hspin : userKey spinner ∈ wheelKeys room).
  { unfold wheelKeys. apply list_elem_of_In, in_map, filter_In.
    split; [done|]. unfold onWheel.
    by rewrite (bySocket_connected _ _ Hsid Hsock), Hw. }
  rewrite users_syncWheelTurn.
  unfold turnValid, wheelKeys in *. simpl. rewrite users_syncWheelTurn.
  destruct (List.filter onWheel (users room)) as [|w ws] eqn:Hf;
    [by apply not_elem_of_nil in Hspin|].
  cbn [map].
  match goal with |- (if ?c then _ else _) ∈ _ => destruct c end;
    [|exact Hspin].
  destruct (List.find _ (w :: ws)) as [next|] eqn:Hnext; [|exact Hspin].
  unfold Js.orElseO. destruct (Js.truthy (userKey next)); [|exact Hspin].
  apply find_some in Hnext as [Hnin _].
  change (userKey next ∈ map userKey (w :: ws)).
  by apply list_elem_of_In, in_map.
Qed.

Lemma turnValid_handler sid o e room :
  sid ≠ EmptyString → turnValid room →
  turnValid (handler words sid o e room).1.
Proof.
  intros Hsid. destruct e; cbn [handler]; try done.
  - intros Hv. unfold onJoinExisting.
    repeat (case_match; simplify_eq; cbn [fst]; try assumption);
      apply turnValid_syncWheelTurn.
  - turning onDraw.
  - turning onClearCanvasRequest.
  - turning onGuess.
  - turning onSkipRound.
  - turning onRestartGame.
  - turning onSetActiveGame.
  - turning onClaimMusicHost.
  - turning onReleaseMusicHost.
  - turning onMusicSuggestTrack.
  - turning onMusicAcceptSuggestion.
  - turning onMusicRejectSuggestion.
  - turning onMusicAddToQueue.
  - turning onSpotifyHostSessionUpdate.
  - turning onSpotifyHostDeviceUpdate.
  - intros Hv.
    destruct (onMusicControlRequest_changes sid rid action payload (now o)
                (refreshes o) (fetches o) room) as (_ & _ & Hu & Hg & _).
    eapply turnValid_view; [|exact Hv]. unfold wheelView. by rewrite Hu, Hg.
  - turning onSetWheelOptions.
  - turning onAddLobbyNote.
  - turning onDeleteLobbyNote.
  - by apply turnValid_onSpinWheel.
  - turning onDisconnectRoom.
Qed.

(** X5. In every state and every snapshot of a run from the empty registry
    (socket ids are never empty), the wheel turn is null when no connected
    member is on the WHEEL tab, and otherwise is the key of a connected
    member on the WHEEL tab. *)
Theorem wheel_turn_valid inputs :
  Forall (fun i => i_socket i ≠ EmptyString) inputs →
  map_Forall (fun _ room => turnValid room) (run words inputs ∅).1
  ∧ snapshotsSatisfy turnValid (run words inputs ∅).2.
Proof.
  intros Hsids.
  apply (run_invariant words (fun sid => sid ≠ EmptyString) turnValid);
    [| |done|apply map_Forall_empty].
  - intros sid rid rpin uname ucolor ukey _.
    unfold turnValid, wheelKeys, newRoom, onWheel. simpl.
    by rewrite andb_false_r.
  - intros. by apply turnValid_handler.
Qed.
End WheelTurn.

Lemma wheel_turn_valid_witness :
  snapshotsSatisfy turnValid
    (run someWords (bothOnWheel ++ [from "s1" DISCONNECT]) ∅).2.
Proof.
  apply (wheel_turn_valid someWords (bothOnWheel ++ [from "s1" DISCONNECT])).
  repeat constructor; discriminate.
Defined.

(** ** The derived status *)

Lemma statusOf_view g g' u u' :
  drawerUserKey g' = drawerUserKey g → guesserUserKey g' = guesserUserKey g →
  userKey u' = userKey u → socketId u' = socketId u →
  statusOf g' u' = statusOf g u.
Proof.
  intros Hd Hg Hk Hs. unfold statusOf, connected. by rewrite Hd, Hg, Hk, Hs.
Qed.

Lemma statusSynced_view room room' :
  statusView room' = statusView room → statusSynced room → statusSynced room'.
Proof.
  unfold statusView, statusSynced. intros [= Hus Hd Hg].
  revert Hus. generalize (users room') as us'. generalize (users room) as us.
  induction us as [|u us IH]; intros [|u' us']; simpl; try done.
  intros [= Hk Hs Hst Hrest] [[Hu Hne] Hall]%Forall_cons.
  constructor; [|by apply IH]. split; [|by rewrite Hs].
  rewrite Hst, Hu. symmetry. by apply statusOf_view.
Qed.

Lemma statusSynced_syncStatuses room :
  Forall (fun u => socketId u ≠ Some EmptyString) (users room) →
  statusSynced (syncStatuses room).
Proof.
  unfold statusSynced, syncStatuses. simpl. intros Hs. apply Forall_forall.
  intros u' (u & -> & Hin)%list_elem_of_fmap. simpl.
  split; [by apply statusOf_view|].
  by apply (proj1 (Forall_forall _ _) Hs).
Qed.

Lemma statusSynced_sockets room :
  statusSynced room →
  Forall (fun u => socketId u ≠ Some EmptyString) (users room).
Proof. intros H. eapply Forall_impl; [exact H|]. by intros u [_ ?]. Qed.

Lemma statusSynced_syncWheelTurn room :
  statusSynced room → statusSynced (syncWheelTurn room).
Proof.
  destruct (syncWheelTurn_eq room) as [t ->]. by apply statusSynced_view.
Qed.

Lemma Forall_updFirst (P : User → Prop) p f us :
  (∀ u, P u → P (f u)) → Forall P us → Forall P (updFirst p f us).
Proof.
  intros Hf. induction 1 as [|u us Hu Hus IH]; simpl; [constructor|].
  destruct (p u); constructor; auto.
Qed.

Lemma statusSynced_shows room : statusSynced room → statusOk room.
Proof.
  intros H. eapply Forall_impl; [exact H|]. clear H.
  intros u [Hst Hne]. unfold shows. rewrite Hst.
  unfold statusOf, connected, Js.truthy, Js.truthyS.
  destruct (socketId u) as [s|] eqn:Hs.
  - assert (negb (s =? EmptyString)%string = true) as ->.
    { destruct (String.eqb_spec s EmptyString) as [->|]; [done | done]. }
    destruct (Js.eqo (drawerUserKey (game room)) (userKey u)) eqn:Hd.
    { apply eqo_true in Hd. by split. }
    apply eqo_false in Hd.
    destruct (Js.eqo (guesserUserKey (game room)) (userKey u)) eqn:Hg.
    { apply eqo_true in Hg. by split_and!. }
    apply eqo_false in Hg. by split_and!.
  - by repeat destruct (Js.eqo _ _).
Qed.

Section Statuses.
Variable words : list string.

Ltac status_frame Hv :=
  eapply statusSynced_view; [|exact Hv];
  unfold statusView; simpl;
  rewrite ?users_syncWheelTurn, ?drawerUserKey_syncWheelTurn,
    ?guesserUserKey_syncWheelTurn, ?map_map, ?map_updFirst by done; done.

Ltac sockets Hv :=
  apply statusSynced_sockets in Hv; simpl;
  rewrite ?Forall_app, ?Forall_fmap;
  first [ exact Hv
        | by apply Forall_updFirst
        | split; [exact Hv | by repeat constructor]
        | eapply Forall_impl; [exact Hv | by intros ? ?] ].

Ltac statuses h :=
  let Hv := fresh "Hv" in
  intros Hv; unfold h, rotateRoles, startRound;
  repeat (case_match; simplify_eq; cbn [fst]; try assumption);
  first [ status_frame Hv
        | apply statusSynced_syncWheelTurn, statusSynced_syncStatuses;
          sockets Hv
        | apply statusSynced_syncStatuses; sockets Hv ].

Lemma statusSynced_onJoinExisting sid rid rpin uname ucolor ukey rnd room :
  sid ≠ EmptyString → statusSynced room →
  statusSynced (onJoinExisting words sid rid rpin uname ucolor ukey rnd room).1.
Proof.
  intros Hsid Hv. unfold onJoinExisting.
  assert (Hnew : Some sid ≠ Some EmptyString) by congruence.
  repeat (case_match; simplify_eq; cbn [fst]; try assumption);
    apply statusSynced_syncWheelTurn, statusSynced_syncStatuses;
    apply statusSynced_sockets in Hv; simpl;
    first [ by apply Forall_updFirst
          | apply Forall_app; split; [exact Hv | by repeat constructor] ].
Qed.

Lemma statusSynced_handler sid o e room :
  sid ≠ EmptyString → None ∉ keys room → statusSynced room →
  statusSynced (handler words sid o e room).1.
Proof.
  intros Hsid Hkeys. destruct e; cbn [handler]; try done.
  - by apply statusSynced_onJoinExisting.
  - statuses onDraw.
  - statuses onClearCanvasRequest.
  - intros Hv. unfold onGuess, rotateRoles.
    repeat (case_match; simplify_eq; cbn [fst]; try assumption);
      first [ status_frame Hv
            | apply statusSynced_syncStatuses; sockets Hv
            | idtac ].
    unfold statusSynced. simpl. apply Forall_forall.
    intros u' (u1 & -> & Hin)%list_elem_of_fmap.
    apply statusSynced_sockets in Hv.
    assert (Hall : Forall (fun u => socketId u ≠ Some EmptyString
                                    ∧ userKey u ≠ None) (users room)).
    { apply Forall_forall. intros x Hx. split.
      - by apply (proj1 (Forall_forall _ _) Hv).
      - intros Hnone. apply Hkeys. unfold keys. rewrite <- Hnone.
        by apply list_elem_of_fmap_2. }
    match type of Hin with
    | _ ∈ updFirst ?p ?f _ =>
        pose proof (Forall_updFirst
                      (fun u => socketId u ≠ Some EmptyString
                                ∧ userKey u ≠ None)
                      p f _ (fun u H => H) Hall) as Hall'
    end.
    destruct (proj1 (Forall_forall _ _) Hall' _ Hin) as [Hs Hk].
    split; [|exact Hs]. simpl. unfold statusOf. simpl.
    by destruct (userKey u1).
  - statuses onSkipRound.
  - statuses onRestartGame.
  - intros Hv. unfold onSetActiveGame.
    repeat (case_match; simplify_eq; cbn [fst]; try assumption).
    apply statusSynced_syncWheelTurn. status_frame Hv.
  - statuses onClaimMusicHost.
  - statuses onReleaseMusicHost.
  - statuses onMusicSuggestTrack.
  - statuses onMusicAcceptSuggestion.
  - statuses onMusicRejectSuggestion.
  - statuses onMusicAddToQueue.
  - statuses onSpotifyHostSessionUpdate.
  - statuses onSpotifyHostDeviceUpdate.
  - intros Hv.
    destruct (onMusicControlRequest_changes sid rid action payload (now o)
                (refreshes o) (fetches o) room) as (_ & _ & Hu & Hg & _).
    eapply statusSynced_view; [|exact Hv]. unfold statusView. by rewrite Hu, Hg.
  - statuses onSetWheelOptions.
  - statuses onAddLobbyNote.
  - statuses onDeleteLobbyNote.
  - statuses onSpinWheel.
  - statuses onDisconnectRoom.
Qed.

(** X6. In every state and every snapshot of a run from the empty registry
    in which no socket id is empty and no join carries a null user key,
    each member's status follows from connection and role: it is
    DISCONNECTED exactly when the member has no connection, whatever the
    role; a connected member shows DRAWING when its key is
    [drawerUserKey], else GUESSING when its key is [guesserUserKey], else
    WAITING. *)
Theorem statuses_derived inputs :
  Forall (fun i => i_socket i ≠ EmptyString ∧ keyed (i_event i)) inputs →
  map_Forall (fun _ room => statusOk room) (run words inputs ∅).1
  ∧ snapshotsSatisfy statusOk (run words inputs ∅).2.
Proof.
  intros Hsids.
  destruct (run_invariant_on words
              (fun sid e => sid ≠ EmptyString ∧ keyed e)
              (fun room => Inv room ∧ statusSynced room))
    with (inputs := inputs) (rooms := (∅ : gmap string Room))
    as [Hrooms Hsnaps]; [| |done|apply map_Forall_empty|].
  - intros sid rid rpin uname ucolor ukey e He [Hsid Hkey].
    assert (Hk : ukey ≠ None) by (by destruct He as [-> | ->]).
    split; [by apply Inv_newRoom|].
    unfold statusSynced, newRoom, newUser. simpl. constructor; [|constructor].
    unfold statusOf, connected. simpl.
    apply truthyS_true in Hsid as Ht. rewrite Ht.
    split; [by destruct ukey | congruence].
  - intros sid o e room [Hsid Hkey] [Hinv Hst].
    split; [by apply Inv_handler|].
    apply statusSynced_handler; [done | apply Hinv | done].
  - split.
    + eapply map_Forall_impl; [exact Hrooms|].
      intros ? ? [_ ?]. by apply statusSynced_shows.
    + eapply Forall_impl; [exact Hsnaps|].
      intros out H room Hout. by apply statusSynced_shows, H.
Qed.
End Statuses.

(** The theorem at a run in which Ann draws, Bob guesses and Ann's
    connection closes: the last snapshot shows Ann DISCONNECTED and Bob
    GUESSING. *)
Lemma statuses_derived_witness :
  snapshotsSatisfy statusOk
    (run someWords [joinAnn "s1"; joinBob "s2"; from "s1" DISCONNECT] ∅).2
  ∧ ∃ room,
      last (run someWords [joinAnn "s1"; joinBob "s2"; from "s1" DISCONNECT]
              ∅).2 = Some (To (Some "R1") (ROOM_STATE room))
      ∧ map status (users room) = [DISCONNECTED; GUESSING].
Proof.
  split.
  - apply (statuses_derived someWords
             [joinAnn "s1"; joinBob "s2"; from "s1" DISCONNECT]).
    repeat constructor; discriminate.
  - eexists. split; reflexivity.
Defined.

(** ** The music host and its credentials *)

Lemma findBySocket_key sid (us : list User) user :
  findBySocket sid us = Some user → userKey user ∈ map userKey us.
Proof.
  intros [Hin _]%find_some. by apply list_elem_of_In, in_map.
Qed.

Lemma hasToken_Some s : hasToken s = true → is_Some s.
Proof. destruct s; [by eexists | done]. Qed.

Section Host.
Variable words : list string.

Lemma hostOk_handler sid o e room :
  hostOk room → hostOk (handler words sid o e room).1.
Proof.
  intros Hv.
  assert (Hkeys : ∀ k, k ∈ keys room → k ∈ keys (handler words sid o e room).1).
  { intros k Hk. destruct (extends_handler words sid o e room)
      as (_ & _ & [extra ->]). apply elem_of_app. by left. }
  assert (Hframe : music (handler words sid o e room).1 = music room →
                   hostOk (handler words sid o e room).1).
  { intros Hm. destruct Hv as (H1 & H3). unfold hostOk. rewrite Hm.
    split_and!; try done. intros k Hk. by apply Hkeys, H3. }
  destruct e; cbn [handler] in *; try done.
  - apply Hframe. unfold onJoinExisting.
    repeat (case_match; simplify_eq; cbn [fst]; try done);
      by rewrite music_syncWheelTurn.
  - apply Hframe. unfold onDraw. by case_match.
  - apply Hframe. unfold onClearCanvasRequest. by case_match.
  - apply Hframe. unfold onGuess, rotateRoles.
    by repeat (case_match; simplify_eq; cbn [fst]; try done).
  - apply Hframe. unfold onSkipRound, rotateRoles. by case_match.
  - apply Hframe. unfold onRestartGame, startRound.
    repeat (case_match; simplify_eq; cbn [fst]; try done);
      by rewrite music_syncWheelTurn.
  - apply Hframe. unfold onSetActiveGame.
    repeat (case_match; simplify_eq; cbn [fst]; try done);
      by rewrite music_syncWheelTurn.
  - (* CLAIM_MUSIC_HOST *)
    unfold onClaimMusicHost in *.
    destruct (findBySocket sid (users room)) as [user|] eqn:Hu; [|done].
    destruct (blockingHost user room); [done|]. cbn [fst] in *.
    unfold hostOk. simpl. split.
    + intros Ht. split; [by apply hasToken_Some | by eexists].
    + intros k Hk. unfold keys. rewrite <- Hk. by eapply findBySocket_key.
  - (* RELEASE_MUSIC_HOST *)
    unfold onReleaseMusicHost in *.
    destruct (findBySocket sid (users room)) as [user|]; [|done].
    destruct (negb _); [done|]. unfold hostOk. simpl.
    split; done.
  - unfold onMusicSuggestTrack in *.
    repeat (case_match; simplify_eq; cbn [fst] in *; try done);
      unfold hostOk, keys in *; simpl in *; done.
  - unfold onMusicAcceptSuggestion in *.
    repeat (case_match; simplify_eq; cbn [fst] in *; try done);
      unfold hostOk, keys in *; simpl in *; done.
  - unfold onMusicRejectSuggestion in *.
    repeat (case_match; simplify_eq; cbn [fst] in *; try done);
      unfold hostOk, keys in *; simpl in *; done.
  - unfold onMusicAddToQueue in *.
    repeat (case_match; simplify_eq; cbn [fst] in *; try done);
      unfold hostOk, keys in *; simpl in *; done.
  - (* SPOTIFY_HOST_SESSION_UPDATE *)
    destruct Hv as (H1 & H3). unfold onSpotifyHostSessionUpdate in *.
    destruct (findBySocket sid (users room)) as [user|]; [|done].
    destruct (isHost user room) eqn:Hh; [|done]. cbn [negb fst] in *.
    destruct (hasToken session) eqn:Ht; unfold hostOk; simpl;
      (split; [|exact H3]); [|done].
    intros _. split; [by apply hasToken_Some | by eexists].
  - destruct Hv as (H1 & H3). unfold onSpotifyHostDeviceUpdate in *.
    repeat (case_match; simplify_eq; cbn [fst] in *; try done).
    unfold hostOk, keys in *; simpl in *. split; [|done].
    intros Ht. split; [by apply H1 | by eexists].
  - (* MUSIC_CONTROL_REQUEST *)
    destruct Hv as (H1 & H3).
    destruct (onMusicControlRequest_changes sid rid action payload (now o)
                (refreshes o) (fetches o) room)
      as (_ & _ & Hu & _ & _ & Hk & Hsock & _ & _ & Hf & _ & _ & Hs & _).
    unfold hostOk, keys. rewrite Hk, Hf, Hu, Hsock.
    destruct Hs as [->|[Hs Hs']]; [by split|].
    split; [|done]. intros Ht. split; [done | by apply H1].
  - apply Hframe. unfold onSetWheelOptions.
    by repeat (case_match; simplify_eq; cbn [fst]; try done).
  - apply Hframe. unfold onAddLobbyNote.
    by repeat (case_match; simplify_eq; cbn [fst]; try done).
  - apply Hframe. unfold onDeleteLobbyNote.
    by repeat (case_match; simplify_eq; cbn [fst]; try done).
  - apply Hframe. unfold onSpinWheel.
    repeat (case_match; simplify_eq; cbn [fst]; try done);
      cbn [music setGame]; by rewrite ?music_syncWheelTurn.
  - (* DISCONNECT *)
    destruct Hv as (H1 & H3). unfold onDisconnectRoom in *.
    destruct (findBySocket sid (users room)) as [user|]; [|done].
    cbn [fst] in *. unfold hostOk. rewrite music_syncWheelTurn.
    change (music (syncStatuses ?r)) with (music r). cbn [music setMusic].
    destruct (Js.eqo _ _); simpl; split_and!; try done;
      intros k Hk; by apply Hkeys, H3.
Qed.

End Host.

(** ** Lobby notes *)

Lemma slice0_cutTo n s : cutTo n s (Js.slice0 n s).
Proof.
  revert s. induction n as [|n IH]; intros s.
  - exists s. split; [by destruct s | by right].
  - destruct s as [|c s]; [exists EmptyString; by split; [|left]|].
    destruct (IH s) as (rest & Hs & Hrest). exists rest.
    change (Js.slice0 (S n) (String c s)) with (String c (Js.slice0 n s)).
    split; [exact (f_equal (String c) Hs)|].
    destruct Hrest as [->|Hlen]; [by left | right]. simpl. by rewrite Hlen.
Qed.

Lemma trim_blank text : allBlank text = true → Js.trim text = EmptyString.
Proof.
  intros H. unfold Js.trim. by rewrite (trimStart_allBlank _ H).
Qed.

Lemma trim_not_blank text :
  allBlank text = false → Js.trim text ≠ EmptyString.
Proof.
  intros Hb Ht. destruct (trim_trimmedTo text) as ((l & r & Hs & Hl & Hr) & _).
  rewrite Ht in Hs. change (String.append EmptyString r) with r in Hs.
  rewrite Hs, allBlank_app, Hl, Hr in Hb. done.
Qed.

Lemma last_capped {A} n (l : list A) x :
  (1 ≤ n)%nat →
  last (if (n <? length (l ++ [x]))%nat then sliceLast n (l ++ [x]) else l ++ [x])
  = Some x.
Proof.
  intros Hn. destruct (_ <? _)%nat; [|apply last_snoc].
  unfold sliceLast. rewrite length_app. simpl.
  rewrite drop_app_le by lia. apply last_snoc.
Qed.

(** X8. ADD_LOBBY_NOTE from a member: a text of white space only is
    ignored without an answer; any other text has a non-empty core between
    its leading and trailing white space, and that core, cut to its first
    220 characters, is appended as the last note, with the author's key,
    name and colour, and the room is broadcast. *)
Theorem add_note_appends sid rid text fresh now room user :
  findBySocket sid (users room) = Some user →
  (allBlank text = true →
   onAddLobbyNote sid rid text fresh now room = (room, []))
  ∧ (allBlank text = false →
     ∃ core, trimmedTo text core ∧ core ≠ EmptyString)
  ∧ (∀ core, trimmedTo text core → core ≠ EmptyString →
     ∃ content,
       cutTo 220 core content
       ∧ last (lobbyNotes (onAddLobbyNote sid rid text fresh now room).1)
         = Some (mkNote fresh (userKey user) (name user) (color user)
                   content now)
       ∧ (onAddLobbyNote sid rid text fresh now room).2
         = [To (Some rid)
              (ROOM_STATE (onAddLobbyNote sid rid text fresh now room).1)]).
Proof.
  intros Hu. unfold onAddLobbyNote, normalizeLobbyNote. rewrite Hu.
  split_and!.
  - intros Hb. by rewrite (trim_blank _ Hb).
  - intros Hb. exists (Js.trim text).
    split; [apply trim_trimmedTo | by apply trim_not_blank].
  - intros core Hcore Hne. rewrite (trimmedTo_trim _ _ Hcore).
    exists (Js.slice0 220 core). split; [apply slice0_cutTo|].
    assert (Ht : Js.truthyS (Js.slice0 220 core) = true).
    { destruct core as [|c rest]; [done|]. by apply truthyS_true. }
    rewrite Ht. cbn [negb fst snd]. split; [|done].
    cbn [lobbyNotes setLobbyNotes]. apply last_capped.
    unfold MAX_LOBBY_NOTES. lia.
Qed.

(** The theorem at two notes of Ann in [roundRoom]: a no-break space
    followed by two spaces is ignored, and "  hi " is stored as "hi". *)
Lemma add_note_appends_witness :
  onAddLobbyNote "s1" "R1" (String "160"%char "  ") "n1" 0 roundRoom
  = (roundRoom, [])
  ∧ cutTo 220 "hi" "hi"
  ∧ last (lobbyNotes (onAddLobbyNote "s1" "R1" "  hi " "n1" 0 roundRoom).1)
    = Some (mkNote "n1" (Some "A") "Ann" "red" "hi" 0).
Proof.
  pose (ann := mkUser (Some "A") (Some "s1") "Ann" "red" DRAWING 0 TabDrawing).
  split.
  - apply (proj1 (add_note_appends "s1" "R1" (String "160"%char "  ") "n1" 0
                    roundRoom ann eq_refl)).
    reflexivity.
  - destruct (proj2 (proj2 (add_note_appends "s1" "R1" "  hi " "n1" 0
                              roundRoom ann eq_refl)) "hi")
      as (content & Hcut & Hlast & _).
    + apply (trim_trimmedTo "  hi ").
    + discriminate.
    + vm_compute in Hlast. injection Hlast as <-. split; [exact Hcut|].
      reflexivity.
Defined.

Section Notes.
Variable words : list string.

Lemma lobbyNotes_handler sid o e room :
  (∀ rid text, e ≠ ADD_LOBBY_NOTE rid text) →
  (∀ rid note, e ≠ DELETE_LOBBY_NOTE rid note) →
  lobbyNotes (handler words sid o e room).1 = lobbyNotes room.
Proof.
  intros Ha Hd. destruct e; cbn [handler]; try done;
    try (exfalso; first [by eapply Ha | by eapply Hd]).
  all: try (unfold onJoinExisting, onDraw, onClearCanvasRequest, onGuess,
              onSkipRound, onRestartGame, onSetActiveGame, onClaimMusicHost,
              onReleaseMusicHost, onMusicSuggestTrack, onMusicAcceptSuggestion,
              onMusicRejectSuggestion, onMusicAddToQueue,
              onSpotifyHostSessionUpdate, onSpotifyHostDeviceUpdate,
              onSetWheelOptions, onSpinWheel, onDisconnectRoom,
              rotateRoles, startRound;
            repeat (case_match; simplify_eq; cbn [fst]; try done);
            cbn [lobbyNotes setGame]; by rewrite ?lobbyNotes_syncWheelTurn).
  by destruct (onMusicControlRequest_changes sid rid action payload (now o)
                 (refreshes o) (fetches o) room) as (_ & _ & _ & _ & Hn & _).
Qed.

(** X9. A lobby note leaves the board in two ways only: it is deleted by a
    connection bound to its author, naming its id, or it is the oldest note
    of a full board to which a note is added. *)
Theorem note_removal sid o e room n :
  (length (lobbyNotes room) ≤ MAX_LOBBY_NOTES)%nat →
  n ∈ lobbyNotes room →
  n ∈ lobbyNotes (handler words sid o e room).1
  ∨ (∃ rid user, e = DELETE_LOBBY_NOTE rid (n_id n)
                 ∧ findBySocket sid (users room) = Some user
                 ∧ userKey user = n_userKey n)
  ∨ (∃ rid text, e = ADD_LOBBY_NOTE rid text
                 ∧ length (lobbyNotes room) = MAX_LOBBY_NOTES
                 ∧ head (lobbyNotes room) = Some n).
Proof.
  intros Hlen Hn.
  destruct e; try (left; rewrite lobbyNotes_handler; done); cbn [handler].
  - (* ADD_LOBBY_NOTE *)
    unfold onAddLobbyNote.
    destruct (findBySocket sid (users room)) as [user|]; [|by left].
    destruct (negb _); [by left|]. cbn [fst lobbyNotes setLobbyNotes].
    rewrite length_app. simpl.
    destruct (Nat.ltb_spec MAX_LOBBY_NOTES (length (lobbyNotes room) + 1)).
    + assert (Hfull : length (lobbyNotes room) = MAX_LOBBY_NOTES) by lia.
      unfold sliceLast. rewrite length_app. simpl.
      replace (length (lobbyNotes room) + 1 - MAX_LOBBY_NOTES)%nat with 1%nat
        by lia.
      destruct (lobbyNotes room) as [|oldest rest]; [by apply not_elem_of_nil in Hn|].
      simpl. rewrite drop_0.
      apply elem_of_cons in Hn as [->|Hn].
      * right; right. by exists rid, text.
      * left. apply elem_of_app. by left.
    + left. apply elem_of_app. by left.
  - (* DELETE_LOBBY_NOTE *)
    unfold onDeleteLobbyNote.
    destruct (findBySocket sid (users room)) as [user|] eqn:Hu; [|by left].
    cbn [fst lobbyNotes setLobbyNotes].
    destruct (String.eqb (n_id n) note && Js.eqo (n_userKey n) (userKey user))
      eqn:Hdel.
    + apply andb_true_iff in Hdel as [<-%String.eqb_eq Hk%eqo_true].
      right; left. by exists rid, user.
    + left. apply list_elem_of_In, filter_In. split; [by apply list_elem_of_In|].
      by rewrite Hdel.
Qed.
End Notes.

Lemma note_removal_witness :
  mkNote "n1" (Some "A") "Ann" "red" "hi" 0
  ∈ lobbyNotes
      (handler someWords "s2" quiet (DELETE_LOBBY_NOTE "R1" "n1")
         (setLobbyNotes [mkNote "n1" (Some "A") "Ann" "red" "hi" 0] roundRoom)).1.
Proof.
  destruct (note_removal someWords "s2" quiet (DELETE_LOBBY_NOTE "R1" "n1")
              (setLobbyNotes [mkNote "n1" (Some "A") "Ann" "red" "hi" 0] roundRoom)
              (mkNote "n1" (Some "A") "Ann" "red" "hi" 0))
    as [H|[(r & u & _ & Hu & Hk)|(r & t & He & _)]].
  - vm_compute. lia.
  - by left.
  - exact H.
  - vm_compute in Hu. injection Hu as <-. discriminate Hk.
  - discriminate He.
Defined.

(** ** The queue and the control requests *)

Lemma musicControl_queue rid action payload now user w :
  (queue (music (w_room (musicControl rid action payload now user w).2))
   ≠ queue (music (w_room w)) →
   isHost user (w_room w) = true)
  ∧ ∀ outs next,
      (musicControl rid action payload now user w).1 = inr outs →
      dequeuedIn outs = Some next →
      isHost user (w_room w) = true
      ∧ queue (music (w_room w))
        = next :: queue (music (w_room (musicControl rid action payload now
                                          user w).2))
      ∧ outs = [To (Some rid)
                  (ROOM_STATE (w_room (musicControl rid action payload now
                                         user w).2));
                Ack (ReplyOk (Dequeued next))].
Proof.
  destruct w as [room rs fs]. run_monad. cbn [w_room w_refreshes w_fetches].
  repeat (case_match; simplify_eq; cbn [w_room w_refreshes w_fetches fst snd]).
  all: split; [try done|try by intros outs next [= <-]].
  all: try (intros _; by apply negb_false_iff).
  all: intros outs next' [= <-] [= <-]; cbn; split_and!; try done;
    by apply negb_false_iff.
Qed.

Section Queue.
Variable words : list string.

(** X10. Whatever the event, the queue of accepted tracks changes only when
    the event comes from a connection bound to the music host. *)
Theorem queue_changes_by_host_only sid o e room :
  queue (music (handler words sid o e room).1) ≠ queue (music room) →
  ∃ user, findBySocket sid (users room) = Some user
          ∧ isHost user room = true.
Proof.
  destruct e; cbn [handler]; try done.
  all: try (unfold onJoinExisting, onDraw, onClearCanvasRequest, onGuess,
              onSkipRound, onRestartGame, onSetActiveGame, onClaimMusicHost,
              onReleaseMusicHost, onMusicSuggestTrack, onMusicRejectSuggestion,
              onSpotifyHostSessionUpdate, onSpotifyHostDeviceUpdate,
              onSetWheelOptions, onAddLobbyNote, onDeleteLobbyNote,
              onSpinWheel, onDisconnectRoom, rotateRoles, startRound;
            repeat (case_match; simplify_eq; cbn [fst]; try done);
            cbn [music setGame]; rewrite ?music_syncWheelTurn;
            cbn [music setGame setMusic queue]; by repeat case_match).
  - unfold onMusicAcceptSuggestion.
    destruct (findBySocket sid (users room)) as [user|]; [|done].
    destruct (isHost user room) eqn:Hh; [by eexists | done].
  - unfold onMusicAddToQueue.
    destruct (findBySocket sid (users room)) as [user|]; [|done].
    destruct (isHost user room) eqn:Hh; [by eexists | done].
  - unfold onMusicControlRequest.
    destruct (findBySocket sid (users room)) as [user|]; [|done].
    destruct (_ || _); [done|].
    destruct (musicControl_queue rid action payload (now o) user
                (mkWorld room (refreshes o) (fetches o))) as [Hq _].
    destruct (musicControl _ _ _ _ _ _) as [[err|outs] w]; cbn in *;
      intros Hne; exists user; by split; [|apply Hq].
Qed.

(** X11. A control request from any connection is answered exactly once,
    and it leaves the room as it was except for the stored session, which
    a token refresh may replace, and the queue, whose head it may take. *)
Theorem control_request_answers_once sid rid action payload now rs fs room :
  length (List.filter isAck
            (onMusicControlRequest sid rid action payload now rs fs room).2)
  = 1%nat
  ∧ sameButSessionAndQueue room
      (onMusicControlRequest sid rid action payload now rs fs room).1.
Proof.
  split; [|apply onMusicControlRequest_changes].
  unfold onMusicControlRequest.
  destruct (findBySocket sid (users room)) as [user|]; [|done].
  destruct (_ || _); [done|].
  destruct (musicControl_changes rid action payload now user
              (mkWorld room rs fs)) as [_ Hone].
  destruct (musicControl _ _ _ _ _ _) as [[err|outs] w]; cbn in *;
    [done | by apply Hone].
Qed.

(** X12. When PLAY_QUEUED_NEXT answers with a track, the request came from
    the host, that track was the head of the queue and exactly it has been
    taken off, and the room is broadcast before the answer. *)
Theorem play_queued_next_takes_head sid rid action payload now rs fs room next :
  dequeuedIn (onMusicControlRequest sid rid action payload now rs fs room).2
  = Some next →
  (∃ user, findBySocket sid (users room) = Some user
           ∧ isHost user room = true)
  ∧ queue (music room)
    = next :: queue (music (onMusicControlRequest sid rid action payload now
                              rs fs room).1)
  ∧ (onMusicControlRequest sid rid action payload now rs fs room).2
    = [To (Some rid)
         (ROOM_STATE (onMusicControlRequest sid rid action payload now rs fs
                        room).1);
       Ack (ReplyOk (Dequeued next))].
Proof.
  unfold onMusicControlRequest.
  destruct (findBySocket sid (users room)) as [user|]; [|done].
  destruct (_ || _); [done|].
  destruct (musicControl_queue rid action payload now user
              (mkWorld room rs fs)) as [_ Hd].
  destruct (musicControl _ _ _ _ _ _) as [[err|outs] w]; cbn in *; [done|].
  intros Hnext. destruct (Hd outs next eq_refl Hnext) as (Hh & Hq & Ho).
  split_and!; [by exists user | done | done].
Qed.
End Queue.

Lemma queue_changes_by_host_only_witness :
  ∃ user, findBySocket "s1"
            (users (setMusic (setQueue [] (music hostedRoom)) hostedRoom))
          = Some user
          ∧ isHost user (setMusic (setQueue [] (music hostedRoom)) hostedRoom)
            = true.
Proof.
  apply (queue_changes_by_host_only someWords "s1" quiet
           (MUSIC_ADD_TO_QUEUE "R1" (Some song))).
  vm_compute. discriminate.
Defined.

Lemma play_queued_next_takes_head_witness :
  let entry := mkQueueEntry "q-1" song (Some "A") "Ann" (Some "A") 0 in
  let room := setMusic (setQueue [entry] (music hostedRoom)) hostedRoom in
  queue (music room)
  = entry :: queue (music (onMusicControlRequest "s1" "R1" "PLAY_QUEUED_NEXT"
                             (mkPayload EmptyString EmptyString) 0 []
                             [NoContent] room).1).
Proof.
  intros entry room.
  apply (play_queued_next_takes_head "s1" "R1" "PLAY_QUEUED_NEXT"
           (mkPayload EmptyString EmptyString) 0 [] [NoContent] room entry).
  reflexivity.
Defined.

(** ** Suggestions *)

Lemma list_find_middle pre sg post :
  Forall (fun s => suggestionId s ≠ suggestionId sg) pre →
  list_find (fun s => suggestionId s = suggestionId sg) (pre ++ sg :: post)
  = Some (length pre, sg).
Proof.
  intros Hpre. apply list_find_Some. split_and!.
  - by apply list_lookup_middle.
  - done.
  - intros j y Hj Hlt. rewrite lookup_app_l in Hj by done.
    rewrite Forall_lookup in Hpre. by apply (Hpre j).
Qed.

Lemma last_pushQueue entry q : last (pushQueue entry q) = Some entry.
Proof. apply last_capped. unfold MAX_MUSIC_QUEUE. lia. Qed.

Lemma pushQueue_room entry q :
  (length q < MAX_MUSIC_QUEUE)%nat → pushQueue entry q = q ++ [entry].
Proof.
  intros Hlen. unfold pushQueue. rewrite length_app. simpl.
  destruct (Nat.ltb_spec MAX_MUSIC_QUEUE (length q + 1)); [lia | done].
Qed.

(** X13. When the host accepts a suggestion, the first entry with that id
    leaves the list of suggestions, the others stay in their order, and the
    track is appended to the queue under the name of the member who
    suggested it; the new room is broadcast. *)
Theorem accept_moves_suggestion sid rid fresh now room host pre sg post :
  findBySocket sid (users room) = Some host →
  isHost host room = true →
  suggestions (music room) = pre ++ sg :: post →
  Forall (fun s => suggestionId s ≠ suggestionId sg) pre →
  let res := onMusicAcceptSuggestion sid rid (suggestionId sg) fresh now room in
  suggestions (music res.1) = pre ++ post
  ∧ last (queue (music res.1)) = Some (acceptedEntry fresh now host sg)
  ∧ ((length (queue (music room)) < MAX_MUSIC_QUEUE)%nat →
     queue (music res.1)
     = queue (music room) ++ [acceptedEntry fresh now host sg])
  ∧ res.2 = [To (Some rid) (ROOM_STATE res.1)].
Proof.
  intros Hu Hh Hs Hpre. unfold onMusicAcceptSuggestion.
  rewrite Hu, Hh, Hs, list_find_middle by done.
  cbn [negb fst snd music setMusic suggestions queue setQueue setSuggestions].
  split_and!.
  - apply delete_middle.
  - apply last_pushQueue.
  - apply pushQueue_room.
  - done.
Qed.

Lemma accept_moves_suggestion_witness :
  let room := setMusic (setSuggestions [mkSuggestion "sg-1" song (Some "B") "Bob" 0]
                          (music hostedRoom)) hostedRoom in
  suggestions (music (onMusicAcceptSuggestion "s1" "R1" "sg-1" "id" 7 room).1)
  = [].
Proof.
  intros room.
  apply (accept_moves_suggestion "s1" "R1" "id" 7 room
           (mkUser (Some "A") (Some "s1") "Ann" "red" DRAWING 0 TabDrawing)
           [] (mkSuggestion "sg-1" song (Some "B") "Bob" 0) []);
    [reflexivity | reflexivity | reflexivity | constructor].
Defined.

Section Suggestions.
Variable words : list string.


End Suggestions.


(** ** The token of a provider call *)

(** X15. A call to the music provider is made only with a non-empty access
    token that the room stores at that moment: either the stored session
    was good for more than 30 s, or it has just been replaced by the answer
    of a granted refresh.  The provider is asked for a refresh only when the
    stored token is not good for more than 30 s, and the session is all that
    the call writes to the room. *)
Theorem provider_call_token now w :
  let res := spotifyHostFetch now w in
  (w_fetches res.2 ≠ w_fetches w →
   ∃ s, hostSession (music (w_room res.2)) = Some s
        ∧ accessToken s ≠ EmptyString
        ∧ ((hostSession (music (w_room w)) = Some s ∧ freshAt now s
            ∧ w_refreshes res.2 = w_refreshes w)
           ∨ (∃ old answer,
                hostSession (music (w_room w)) = Some old
                ∧ w_refreshes w = answer :: w_refreshes res.2
                ∧ refreshed now old answer = Some s)))
  ∧ (w_refreshes res.2 ≠ w_refreshes w →
     ∃ old, hostSession (music (w_room w)) = Some old ∧ ¬ freshAt now old)
  ∧ w_room res.2
    = setMusic (setHostSession (hostSession (music (w_room res.2)))
                  (music (w_room w))) (w_room w).
Proof.
  destruct w as [[rid pin us g [k sk nm dev has cl ss sgs q] notes] rs fs].
  run_monad. unfold hasToken, freshAt. cbn [w_room w_refreshes w_fetches].
  repeat (case_match; simplify_eq;
          cbn [w_room w_refreshes w_fetches fst snd music hostSession
                 setMusic setHostSession accessToken expiresAt] in * ).
  all: split_and!; try done.
  all: repeat match goal with
       | H : negb _ = false |- _ => apply negb_false_iff in H
       | H : _ || _ = false |- _ => apply orb_false_iff in H as [? ?]
       | H : Js.truthyS _ = true |- _ => apply truthyS_true in H
       | H : (_ <=? _) = true |- _ => apply Z.leb_le in H
       | H : (_ <=? _) = false |- _ => apply Z.leb_gt in H
       end.
  all: intros _; eexists; (split; [reflexivity|]).
  all: try (intros [_ ?]; lia).
  all: cbn [accessToken expiresAt] in *; (split; [done|]).
  all: first [ left; by split_and! | right; by do 2 eexists ].
Qed.

(** ** The live role ids *)

Lemma liveOk_view room room' :
  liveView room' = liveView room → liveOk room → liveOk room'.
Proof.
  unfold liveView, liveOk, boundTo. intros [= Hb Hd Hdi Hg Hgi].
  by rewrite Hb, Hd, Hdi, Hg, Hgi.
Qed.

Lemma bindings_syncStatuses room :
  bindings (syncStatuses room) = bindings room.
Proof. unfold bindings, syncStatuses. simpl. by rewrite map_map. Qed.

Lemma liveOk_syncStatuses room : liveOk room → liveOk (syncStatuses room).
Proof.
  apply liveOk_view. unfold liveView. by rewrite bindings_syncStatuses.
Qed.

Lemma liveOk_syncWheelTurn room : liveOk room → liveOk (syncWheelTurn room).
Proof. destruct (syncWheelTurn_eq room) as [t ->]. by apply liveOk_view. Qed.

Lemma boundTo_None role room : boundTo role None room.
Proof. by intros s. Qed.

Lemma boundTo_member u room :
  u ∈ users room → boundTo (userKey u) (socketId u) room.
Proof.
  intros Hin s Hs. apply list_elem_of_fmap. exists u. by rewrite Hs.
Qed.

Lemma boundTo_find role us room :
  users room = us →
  boundTo role (Js.orNull (findByKey role us ≫= socketId)) room.
Proof.
  intros <- s Hs. unfold findByKey in Hs.
  destruct (List.find _ _) as [u|] eqn:Hf; [|done].
  apply find_some in Hf as [Hin He]. apply eqo_true in He as ->.
  apply (boundTo_member u); [by apply list_elem_of_In|].
  simpl in Hs. unfold Js.orNull in Hs. by destruct (Js.truthy _).
Qed.

Lemma elem_of_updFirst_other p f (us : list User) u :
  u ∈ us → p u = false → u ∈ updFirst p f us.
Proof.
  induction us as [|x us IH]; simpl; [done|].
  intros [-> | Hin]%elem_of_cons Hp.
  - rewrite Hp. by left.
  - destruct (p x); [by right | right; by apply IH].
Qed.

Lemma elem_of_updFirst_found p f (us : list User) u :
  List.find p us = Some u → f u ∈ updFirst p f us.
Proof.
  induction us as [|x us IH]; simpl; [done|].
  destruct (p x); [intros [= ->]; by left | right; by apply IH].
Qed.

Section LiveIds.
Variable words : list string.

Lemma liveOk_rotateRoles rnd room : liveOk (rotateRoles words rnd room).
Proof.
  unfold rotateRoles. apply liveOk_syncStatuses. by split; apply boundTo_find.
Qed.

Lemma liveOk_startRound rnd room : liveOk (startRound words rnd room).
Proof.
  unfold startRound.
  destruct (List.filter connected (users room)) as [|u1 [|u2 rest]] eqn:Hf;
    apply liveOk_syncStatuses; try (split; apply boundTo_None).
  assert (∀ u, u ∈ u1 :: u2 :: rest → u ∈ users room) as Hin.
  { intros u Hu. rewrite <- Hf in Hu.
    by apply list_elem_of_In, filter_In in Hu as [?%list_elem_of_In _]. }
  split; apply boundTo_member, Hin; [by left | by right; left].
Qed.

Ltac live_frame Hv :=
  eapply liveOk_view; [|exact Hv];
  unfold liveView, bindings; simpl;
  rewrite ?users_syncWheelTurn, ?drawerUserKey_syncWheelTurn,
    ?guesserUserKey_syncWheelTurn, ?map_map, ?map_updFirst by done; done.

Ltac lives h :=
  let Hv := fresh "Hv" in
  intros Hv; unfold h;
  repeat (case_match; simplify_eq; cbn [fst]; try assumption);
  first [ apply liveOk_syncWheelTurn, liveOk_startRound
        | apply liveOk_rotateRoles
        | live_frame Hv ].

Lemma liveOk_onJoinExisting sid rid rpin uname ucolor ukey rnd room :
  liveOk room →
  liveOk (onJoinExisting words sid rid rpin uname ucolor ukey rnd room).1.
Proof.
  intros [Hd Hg]. unfold onJoinExisting.
  destruct (negb _); [done|].
  set (admitted := match List.find _ _ with Some _ => _ | None => _ end).
  assert (∀ room1, admitted = Some room1 → liveOk room1) as Hadm.
  { subst admitted. intros room1.
    destruct (List.find _ _) as [user|] eqn:Hf.
    - intros [= <-]. pose proof Hf as [_ Hk%eqo_true]%find_some.
      assert (∀ role live,
                boundTo role live room →
                boundTo role
                  (if Js.eqo role (userKey user) then Some sid else live)
                  (setUsers
                     (updFirst (fun u => Js.eqo (userKey u) ukey)
                        (setSocketId (Some sid)) (users room)) room)) as Hb.
      { intros role live Hrole s.
        destruct (Js.eqo role (userKey user)) eqn:He.
        - intros [= <-]. apply eqo_true in He as ->.
          apply list_elem_of_fmap. exists (setSocketId (Some sid) user).
          split; [done|]. by apply elem_of_updFirst_found.
        - intros Hl. pose proof (Hrole s Hl) as Hin.
          apply list_elem_of_fmap in Hin as (u & [= Hku Hsu] & Hin).
          apply list_elem_of_fmap. exists u. split; [by rewrite Hku, Hsu|].
          apply elem_of_updFirst_other; [done|].
          apply eqo_false. apply eqo_false in He. congruence. }
      split; cbn [game setGame].
      + specialize (Hb _ _ Hd).
        destruct (Js.eqo (drawerUserKey (game room)) (userKey user)) eqn:E1;
          destruct (Js.eqo (guesserUserKey _) (userKey user)) eqn:E2;
          cbn [drawerUserKey drawerId setDrawerId setGuesserId] in *;
          rewrite ?E1 in *; exact Hb.
      + specialize (Hb _ _ Hg).
        destruct (Js.eqo (drawerUserKey (game room)) (userKey user)) eqn:E1;
          cbn [guesserUserKey setDrawerId];
          destruct (Js.eqo (guesserUserKey _) (userKey user)) eqn:E2;
          cbn [guesserUserKey guesserId setDrawerId setGuesserId] in *;
          exact Hb.
    - destruct (_ <=? _)%nat; [done|]. intros [= <-].
      split; intros s Hs; [pose proof (Hd s Hs) as Hin
                          |pose proof (Hg s Hs) as Hin];
        unfold bindings; simpl;
        rewrite map_app; apply elem_of_app; by left. }
  destruct admitted as [room1|]; [|done]. specialize (Hadm room1 eq_refl).
  cbn [fst]. apply liveOk_syncWheelTurn, liveOk_syncStatuses.
  destruct (users room1) as [|u1 [|u2 [|]]] eqn:Hus; try done.
  destruct (negb _); [|done]. cbn [fst].
  split; cbn [game setGame drawerUserKey drawerId guesserUserKey guesserId];
    [apply (boundTo_member u1)|apply (boundTo_member u2)];
    cbn [users setGame]; rewrite Hus; [by left | by right; left].
Qed.

Lemma liveOk_onDisconnectRoom sid room :
  liveOk room → liveOk (onDisconnectRoom sid room).1.
Proof.
  intros [Hd Hg]. unfold onDisconnectRoom.
  destruct (findBySocket sid (users room)) as [user|] eqn:Hu; [|done].
  cbn [fst]. apply liveOk_syncWheelTurn, liveOk_syncStatuses.
  assert (∀ role live,
            boundTo role live room →
            boundTo role (if Js.eqs live sid then None else live)
              (setUsers (updFirst (bySocket sid) (setSocketId None)
                           (users room)) room)) as Hb.
  { intros role live Hrole s.
    destruct (Js.eqs live sid) eqn:He; [done|].
    intros Hl. pose proof (Hrole s Hl) as Hin.
    apply list_elem_of_fmap in Hin as (u & [= Hku Hsu] & Hin).
    apply list_elem_of_fmap. exists u. split; [by rewrite Hku, Hsu|].
    apply elem_of_updFirst_other; [done|].
    unfold bySocket. rewrite <- Hsu. subst live. exact He. }
  split.
  - specialize (Hb _ _ Hd).
    destruct (Js.eqs (drawerId (game room)) sid) eqn:E1;
      cbn [game setGame setMusic drawerId guesserId setDrawerId];
      destruct (Js.eqs (guesserId (game room)) sid) eqn:E2; exact Hb.
  - specialize (Hb _ _ Hg).
    destruct (Js.eqs (drawerId (game room)) sid) eqn:E1;
      cbn [game setGame setMusic drawerId guesserId setDrawerId];
      destruct (Js.eqs (guesserId (game room)) sid) eqn:E2; exact Hb.
Qed.

Lemma liveOk_handler sid o e room :
  liveOk room → liveOk (handler words sid o e room).1.
Proof.
  destruct e; cbn [handler]; try done.
  - apply liveOk_onJoinExisting.
  - lives onDraw.
  - lives onClearCanvasRequest.
  - intros Hv. unfold onGuess.
    repeat (case_match; simplify_eq; cbn [fst]; try assumption);
      try apply liveOk_rotateRoles; try live_frame Hv.
    split; apply boundTo_None.
  - lives onSkipRound.
  - lives onRestartGame.
  - intros Hv. unfold onSetActiveGame.
    repeat (case_match; simplify_eq; cbn [fst]; try assumption).
    apply liveOk_syncWheelTurn. live_frame Hv.
  - lives onClaimMusicHost.
  - lives onReleaseMusicHost.
  - lives onMusicSuggestTrack.
  - lives onMusicAcceptSuggestion.
  - lives onMusicRejectSuggestion.
  - lives onMusicAddToQueue.
  - lives onSpotifyHostSessionUpdate.
  - lives onSpotifyHostDeviceUpdate.
  - intros Hv.
    destruct (onMusicControlRequest_changes sid rid action payload (now o)
                (refreshes o) (fetches o) room) as (_ & _ & Hu & Hg & _).
    eapply liveOk_view; [|exact Hv]. unfold liveView, bindings.
    by rewrite Hu, Hg.
  - lives onSetWheelOptions.
  - lives onAddLobbyNote.
  - lives onDeleteLobbyNote.
  - intros Hv. unfold onSpinWheel.
    repeat (case_match; simplify_eq; cbn [fst]; try assumption);
      try (by apply liveOk_syncWheelTurn).
    all: apply liveOk_syncWheelTurn in Hv; eapply liveOk_view; [|exact Hv];
      done.
  - apply liveOk_onDisconnectRoom.
Qed.

Lemma run_liveOk inputs :
  map_Forall (fun _ room => liveOk room) (run words inputs ∅).1
  ∧ snapshotsSatisfy liveOk (run words inputs ∅).2.
Proof.
  apply (run_invariant words (fun _ => True) liveOk);
    [| |by apply Forall_true|apply map_Forall_empty].
  - intros. split; apply boundTo_None.
  - intros. by apply liveOk_handler.
Qed.

(** X16. In every state and every snapshot of a run from the empty
    registry, a live role id ([drawerId], [guesserId]) that is set is the
    connection of a member whose key is the role's key. *)
Theorem live_ids_bound inputs :
  map_Forall (fun _ room => liveOk room) (run words inputs ∅).1
  ∧ snapshotsSatisfy liveOk (run words inputs ∅).2.
Proof. apply run_liveOk. Qed.

(** X17. In a room that a run from the empty registry reaches, a DRAW or a
    CLEAR_CANVAS_REQUEST that changes or sends anything comes from the
    connection of a member who holds the drawer's key, and a GUESS or a
    SKIP_ROUND that changes or sends anything from the connection of a
    member who holds the guesser's key. *)
Theorem canvas_and_guess_by_role_holder inputs rid room sid o e :
  (run words inputs ∅).1 !! rid = Some room →
  handler words sid o e room ≠ (room, []) →
  ((∃ r s, e = DRAW r s) ∨ (∃ r, e = CLEAR_CANVAS_REQUEST r) →
   ∃ u, u ∈ users room ∧ socketId u = Some sid
        ∧ drawerUserKey (game room) = userKey u)
  ∧ ((∃ r g, e = GUESS r g) ∨ (∃ r, e = SKIP_ROUND r) →
     ∃ u, u ∈ users room ∧ socketId u = Some sid
          ∧ guesserUserKey (game room) = userKey u).
Proof.
  intros Hroom Hact.
  destruct (run_liveOk inputs) as [Hall _].
  destruct (Hall _ _ Hroom) as [Hd Hg].
  assert (∀ role live, boundTo role live room → Js.eqs live sid = true →
            ∃ u, u ∈ users room ∧ socketId u = Some sid
                 ∧ role = userKey u) as Hb.
  { intros role live Hrole ->%eqs_true.
    pose proof (Hrole sid eq_refl) as Hin.
    apply list_elem_of_fmap in Hin as (u & [= -> Hs] & Hin). by exists u. }
  split.
  - intros [(r & s & ->) | (r & ->)]; cbn [handler] in Hact;
      apply (Hb _ _ Hd);
      [unfold onDraw in Hact | unfold onClearCanvasRequest in Hact];
      by destruct (Js.eqs _ sid).
  - intros [(r & g & ->) | (r & ->)]; cbn [handler] in Hact;
      apply (Hb _ _ Hg);
      [unfold onGuess in Hact | unfold onSkipRound in Hact];
      unfold guessAccepted in Hact;
      destruct (Js.eqs (guesserId (game room)) sid); try done;
      by rewrite andb_false_r in Hact.
Qed.
End LiveIds.

Lemma canvas_and_guess_by_role_holder_witness :
  ∃ u, u ∈ users roundRoom ∧ socketId u = Some "s1"
       ∧ drawerUserKey (game roundRoom) = userKey u.
Proof.
  apply (canvas_and_guess_by_role_holder someWords
           [joinAnn "s1"; joinBob "s2"] "R1" roundRoom "s1" quiet
           (DRAW "R1" "stroke")).
  - apply roundRoom_reachable.
  - vm_compute. discriminate.
  - left. by exists "R1", "stroke".
Defined.

(** ** Reconnection *)

Lemma find_key_updFirst (p : User → bool) f ukey us user :
  (∀ u, userKey (f u) = userKey u) →
  List.find (fun u => Js.eqo (userKey u) ukey) us = Some user →
  ∃ user', List.find (fun u => Js.eqo (userKey u) ukey)
             (updFirst p f us) = Some user'
           ∧ userKey user' = userKey user.
Proof.
  intros Hf. induction us as [|x us IH]; simpl; [done|].
  destruct (p x) eqn:Hp; simpl.
  - rewrite Hf. destruct (Js.eqo (userKey x) ukey).
    + intros [= <-]. eexists. by rewrite Hf.
    + intros Hfind. by exists user.
  - destruct (Js.eqo (userKey x) ukey); [intros [= <-]; by eexists | done].
Qed.

Lemma find_key_map f ukey (us : list User) user :
  (∀ u, userKey (f u) = userKey u) →
  List.find (fun u => Js.eqo (userKey u) ukey) us = Some user →
  List.find (fun u => Js.eqo (userKey u) ukey) (map f us)
  = Some (f user).
Proof.
  intros Hf. induction us as [|x us IH]; simpl; [done|].
  rewrite Hf. destruct (Js.eqo (userKey x) ukey); [by intros [= <-] | done].
Qed.

Lemma find_socket_key sid us user :
  findBySocket sid us = Some user →
  ∃ first, List.find (fun u => Js.eqo (userKey u) (userKey user)) us
           = Some first ∧ userKey first = userKey user.
Proof.
  intros [Hin _]%find_some.
  destruct (List.find _ us) as [first|] eqn:Hf.
  - exists first. split; [done|].
    by apply find_some in Hf as [_ ?%eqo_true].
  - eapply find_none in Hf; [|exact Hin]. simpl in Hf.
    by rewrite eqo_refl in Hf.
Qed.

Lemma scores_map f (us : list User) :
  (∀ u, userKey (f u) = userKey u) → (∀ u, points (f u) = points u) →
  map (fun u => (userKey u, points u)) (map f us)
  = map (fun u => (userKey u, points u)) us.
Proof.
  intros Hk Hp. rewrite map_map. apply map_ext. intros u. by rewrite Hk, Hp.
Qed.

Section Reconnection.
Variable words : list string.

Lemma rejoin_finds_round sid rid uname ucolor ukey rnd room user :
  List.find (fun u => Js.eqo (userKey u) ukey) (users room) = Some user →
  Js.truthy (drawerUserKey (game room)) = true →
  let back := onJoinExisting words sid rid (pin room) uname ucolor ukey rnd
                room in
  scores back.1 = scores room
  ∧ roundOf back.1 = roundOf room
  ∧ (ukey, Some sid) ∈ bindings back.1
  ∧ (drawerUserKey (game room) = ukey →
     drawerId (game back.1) = Some sid
     ∧ (Js.truthy (currentWord (game room)) = true →
        To (Some sid) (ASSIGN_WORD (currentWord (game room))) ∈ back.2))
  ∧ (guesserUserKey (game room) = ukey →
     guesserId (game back.1) = Some sid)
  ∧ To (Some sid) (CANVAS_STATE (strokes (game room))) ∈ back.2
  ∧ To (Some rid) (ROOM_STATE back.1) ∈ back.2.
Proof.
  intros Hfind Hround. pose proof Hfind as [_ Hk%eqo_true]%find_some.
  unfold onJoinExisting. rewrite String.eqb_refl, Hfind, Hk. cbn [negb].
  destruct (Js.eqo (drawerUserKey (game room)) ukey) eqn:Ed;
    cbn [guesserUserKey setDrawerId];
    destruct (Js.eqo (guesserUserKey (game room)) ukey) eqn:Eg.
  all: set (us := updFirst _ _ _).
  all: match goal with
       | |- context [setGame ?g (setUsers ?u ?r)] =>
           set (room1 := setGame g (setUsers u r))
       end.
  all: assert (users room1 = us) as Hus by done.
  all: assert (drawerUserKey (game room1) = drawerUserKey (game room)
               ∧ currentWord (game room1) = currentWord (game room)
               ∧ strokes (game room1) = strokes (game room)
               ∧ roundOf room1 = roundOf room) as (Hd' & Hw' & Hs' & Hro)
         by done.
  all: set (started := match users room1 with
                       | [u1; u2] => _ | _ => _ end).
  all: assert (started = (room1, [])) as ->
         by (subst started; rewrite Hd', Hround;
             by destruct (users room1) as [|u1 [|u2 [|]]]).
  all: cbn [fst snd app].
  all: match goal with
       | |- context [syncWheelTurn ?r] =>
           destruct (syncWheelTurn_eq r) as [t ->]
       end.
  all: unfold syncStatuses; cbn [game setGame setUsers users];
    rewrite Hw', Hd', Hs', Hus, Ed.
  all: split_and!;
    [ unfold scores at 1; cbn [users setGame setUsers];
      rewrite scores_map by done; subst us; by rewrite map_updFirst
    | by rewrite <- Hro
    | unfold bindings; cbn [users setGame setUsers]; rewrite map_map;
      cbn [userKey socketId setStatus]; apply list_elem_of_fmap;
      exists (setSocketId (Some sid) user); split; [by rewrite <- Hk|];
      subst us; by apply elem_of_updFirst_found
    | intros Hd%eqo_true; rewrite Hd in Ed;
      first [ discriminate
            | split; [done | intros ->; cbn [andb app];
                             apply list_elem_of_here] ]
    | intros Hg%eqo_true; rewrite Hg in Eg; first [discriminate | done]
    | apply elem_of_app; right; apply list_elem_of_here
    | apply elem_of_app; right; do 2 apply list_elem_of_further;
      apply list_elem_of_here ].
Qed.

Lemma disconnect_keeps_round sid room user :
  findBySocket sid (users room) = Some user →
  let away := (onDisconnectRoom sid room).1 in
  scores away = scores room ∧ roundOf away = roundOf room
  ∧ pin away = pin room
  ∧ ∃ gone, List.find (fun u => Js.eqo (userKey u) (userKey user))
              (users away) = Some gone.
Proof.
  intros Hu. destruct (find_socket_key _ _ _ Hu) as (first & Hfirst & Hkey).
  destruct (find_key_updFirst (bySocket sid) (setSocketId None) _ _ _
              (fun _ => eq_refl) Hfirst) as (gone & Hgone & Hkg).
  unfold onDisconnectRoom. rewrite Hu. cbn [fst].
  match goal with
  | |- context [syncWheelTurn ?r] =>
      destruct (syncWheelTurn_eq r) as [t ->]
  end.
  unfold syncStatuses. cbn [game setGame setUsers setMusic users pin].
  split_and!.
  - unfold scores at 1. cbn [users setGame setUsers].
    rewrite scores_map by done. by rewrite map_updFirst.
  - unfold roundOf. cbn [game setGame].
    by destruct (Js.eqs (drawerId _) sid), (Js.eqs (guesserId _) sid).
  - done.
  - eexists. apply find_key_map; [done | exact Hgone].
Qed.

(** X18. A member whose connection drops during a round and who joins
    again with the same key (and the room's pin) from a new connection finds
    the round as it was: the scores, the two role keys, the word, the canvas
    log and the wrong-guess counter are unchanged, the role of the member is
    bound to the new connection, the canvas log is sent to it, and so is the
    word when the member is the drawer. *)
Theorem reconnect_restores_round sid sid' rid uname ucolor rnd room user :
  findBySocket sid (users room) = Some user →
  Js.truthy (drawerUserKey (game room)) = true →
  let away := (onDisconnectRoom sid room).1 in
  let back := onJoinExisting words sid' rid (pin room) uname ucolor
                (userKey user) rnd away in
  scores back.1 = scores room
  ∧ roundOf back.1 = roundOf room
  ∧ (userKey user, Some sid') ∈ bindings back.1
  ∧ (drawerUserKey (game room) = userKey user →
     drawerId (game back.1) = Some sid'
     ∧ (Js.truthy (currentWord (game room)) = true →
        To (Some sid') (ASSIGN_WORD (currentWord (game room))) ∈ back.2))
  ∧ (guesserUserKey (game room) = userKey user →
     guesserId (game back.1) = Some sid')
  ∧ To (Some sid') (CANVAS_STATE (strokes (game room))) ∈ back.2
  ∧ To (Some rid) (ROOM_STATE back.1) ∈ back.2.
Proof.
  intros Hu Hround away back.
  destruct (disconnect_keeps_round sid room user Hu)
    as (Hsc & Hro & Hpin & gone & Hgone).
  fold away in Hsc, Hro, Hpin, Hgone.
  pose proof Hro as [= Hd Hg Hw Hs Hc].
  assert (Js.truthy (drawerUserKey (game away)) = true) as Hround'
    by by rewrite Hd.
  pose proof (rejoin_finds_round sid' rid uname ucolor (userKey user) rnd
                away gone Hgone Hround') as Hback.
  rewrite Hpin in Hback. fold back in Hback.
  destruct Hback as (H1 & H2 & H3 & H4 & H5 & H6 & H7).
  rewrite Hsc in H1. rewrite Hro in H2. rewrite Hd, Hw in H4.
  rewrite Hg in H5. rewrite Hs in H6. done.
Qed.
End Reconnection.

Lemma reconnect_restores_round_witness :
  let back := onJoinExisting someWords "s3" "R1" "1234" "Ann" "red" (Some "A") 0
                (onDisconnectRoom "s1" roundRoom).1 in
  scores back.1 = scores roundRoom ∧ roundOf back.1 = roundOf roundRoom.
Proof.
  intros back.
  destruct (reconnect_restores_round someWords "s1" "s3" "R1" "Ann" "red" 0
              roundRoom
              (mkUser (Some "A") (Some "s1") "Ann" "red" DRAWING 0 TabDrawing)
              eq_refl eq_refl) as (H1 & H2 & _).
  split; [exact H1 | exact H2].
Defined.

(** ** The result of a spin *)

Lemma randomIndex_lt rnd n : (0 < n)%nat → (randomIndex rnd n < n)%nat.
Proof.
  intros Hn. unfold randomIndex. destruct (Nat.eqb_spec n 0); [lia|].
  by apply Nat.mod_upper_bound.
Qed.

Lemma find_other_key k (us : list User) :
  match List.find (fun u => negb (Js.eqo (userKey u) k)) us with
  | Some next => next ∈ us ∧ userKey next ≠ k
  | None => ∀ u, u ∈ us → userKey u = k
  end.
Proof.
  destruct (List.find _ us) as [next|] eqn:Hf.
  - apply find_some in Hf as [Hin Hne]. split; [by apply list_elem_of_In|].
    by apply negb_true_iff, eqo_false in Hne.
  - intros u Hin%list_elem_of_In. eapply find_none in Hf; [|exact Hin].
    by apply negb_false_iff, eqo_true in Hf.
Qed.

Lemma elem_of_filter_onWheel u (us : list User) :
  u ∈ List.filter onWheel us ↔ u ∈ us ∧ onWheel u = true.
Proof. rewrite !list_elem_of_In. apply filter_In. Qed.

(** X19. A WHEEL_RESULT comes from a member on the WHEEL tab and names that
    member as the spinner; its index is within the options that the room
    holds after the spin (the stored options, normalised) and its prompt is
    the option at that index; the snapshot follows it.  The turn then goes
    to the spinner when no eligible member has another key, and otherwise,
    when member keys and the socket id are not empty, to an eligible member
    with another key. *)
Theorem spin_result sid rid rnd room p i k :
  To (Some rid) (WHEEL_RESULT p i k) ∈ (onSpinWheel sid rid rnd room).2 →
  let room' := (onSpinWheel sid rid rnd room).1 in
  (∃ spinner, findBySocket sid (users room) = Some spinner
              ∧ userKey spinner = k ∧ currentGame spinner = TabWheel)
  ∧ wheelOptions (game room')
    = normalizeWheelOptions (wheelOptions (game room))
  ∧ (i < length (wheelOptions (game room')))%nat
  ∧ p = wheelOptions (game room') !! i
  ∧ (onSpinWheel sid rid rnd room).2
    = [To (Some rid) (WHEEL_RESULT p i k); To (Some rid) (ROOM_STATE room')]
  ∧ ((∀ u, u ∈ users room → onWheel u = true → userKey u = k) →
     wheelTurnUserKey (game room') = k)
  ∧ (sid ≠ EmptyString →
     Forall (fun u => ∃ key, userKey u = Some key ∧ key ≠ EmptyString)
       (users room) →
     (∃ u, u ∈ users room ∧ onWheel u = true ∧ userKey u ≠ k) →
     ∃ next, next ∈ users room ∧ onWheel next = true ∧ userKey next ≠ k
             ∧ wheelTurnUserKey (game room') = userKey next).
Proof.
  unfold onSpinWheel.
  destruct (findBySocket sid (users room)) as [spinner|] eqn:Hu;
    [|by intros ?%elem_of_nil].
  destruct (isWheel (currentGame spinner)) eqn:Htab;
    [|by intros ?%elem_of_nil]. cbn [negb].
  destruct (syncWheelTurn_eq room) as [t ->].
  cbn [game setGame users wheelOptions setWheelTurnUserKey].
  destruct (normalizeWheelOptions (wheelOptions (game room)))
    as [|opt opts] eqn:Hn; [by intros ?%elem_of_nil|].
  cbn [fst snd]. intros Hin.
  assert (p = (opt :: opts) !! randomIndex rnd (length (opt :: opts))
          ∧ i = randomIndex rnd (length (opt :: opts))
          ∧ k = userKey spinner) as (-> & -> & ->).
  { apply elem_of_cons in Hin as [[= -> -> ->] | Hin]; [done|].
    by apply elem_of_cons in Hin as [[=] | ?%elem_of_nil]. }
  clear Hin.
  cbn [game setGame wheelOptions setWheelOptions setWheelTurnUserKey
         wheelTurnUserKey].
  pose proof (find_other_key (userKey spinner)
                (List.filter onWheel (users room))) as Hfind.
  split_and!.
  - exists spinner. split_and!; [done | done | by destruct (currentGame spinner)].
  - done.
  - apply randomIndex_lt. simpl. lia.
  - done.
  - done.
  - intros Hall. destruct (2 <=? _)%nat; [|done].
    destruct (List.find _ _) as [next|]; [|done].
    destruct Hfind as [[Hnext Hw]%elem_of_filter_onWheel Hne].
    by destruct Hne; apply Hall.
  - intros Hsid Hkeys (other & Hother & Hw & Hne).
    assert (spinner ∈ List.filter onWheel (users room)) as Hs.
    { apply find_some in Hu as [Hin Hb]. apply elem_of_filter_onWheel.
      split; [by apply list_elem_of_In|]. unfold onWheel.
      by rewrite (bySocket_connected sid), Htab. }
    assert (other ∈ List.filter onWheel (users room)) as Ho
      by by apply elem_of_filter_onWheel.
    destruct (Nat.leb_spec 2 (length (List.filter onWheel (users room))))
      as [_ | Hshort].
    + destruct (List.find _ _) as [next|].
      * destruct Hfind as [[Hnext Hwn]%elem_of_filter_onWheel Hnk].
        exists next. split_and!; try done.
        rewrite Forall_forall in Hkeys. unfold Js.orElseO.
        destruct (Hkeys _ Hnext) as (key & Hkey & Hne').
        rewrite Hkey. simpl.
        by rewrite (proj2 (truthyS_true _) Hne').
      * by destruct Hne; apply Hfind.
    + destruct (List.filter onWheel (users room)) as [|x [|y rest]];
        [by apply elem_of_nil in Hs| |simpl in Hshort; lia].
      apply list_elem_of_singleton in Hs, Ho. congruence.
Qed.

Lemma spin_result_witness :
  ∃ spinner, findBySocket "s2" (users wheelRoom) = Some spinner
             ∧ userKey spinner = Some "B" ∧ currentGame spinner = TabWheel.
Proof.
  apply (spin_result "s2" "R1" 0 wheelRoom (Some "Movie night pick") 0
           (Some "B")).
  vm_compute. apply list_elem_of_here.
Defined.

(** ** A room without a round *)

Lemma canvasOk_view room room' :
  drawerUserKey (game room') = drawerUserKey (game room) →
  strokes (game room') = strokes (game room) →
  canvasOk room → canvasOk room'.
Proof. unfold canvasOk. by intros -> ->. Qed.

Lemma canvasOk_empty room : strokes (game room) = [] → canvasOk room.
Proof. by intros ? ?. Qed.

Lemma canvasOk_syncWheelTurn room : canvasOk room → canvasOk (syncWheelTurn room).
Proof. destruct (syncWheelTurn_eq room) as [t ->]. by apply canvasOk_view. Qed.

Lemma idle_of_invariants room :
  Inv room → liveOk room → canvasOk room → idleClean room.
Proof.
  intros (_ & Hkeys & Hroles) [Hd Hg] Hc Hnone.
  destruct Hroles as [(_ & Hgk & Hw) | (d & k & Hdk & _)]; [|congruence].
  assert (Hbound : ∀ s, (None, Some s) ∉ bindings room).
  { intros s (u & [= Hk _] & Hin)%list_elem_of_fmap. apply Hkeys.
    unfold keys. rewrite Hk. by apply list_elem_of_fmap_2. }
  split_and!; [done | done | by apply Hc | |].
  - destruct (drawerId (game room)) as [s|] eqn:Hs; [|done].
    destruct (Hbound s). rewrite <- Hnone. by apply Hd.
  - destruct (guesserId (game room)) as [s|] eqn:Hs; [|done].
    destruct (Hbound s). rewrite <- Hgk. by apply Hg.
Qed.

Section Idle.
Variable words : list string.

Ltac canvas_frame Hv :=
  eapply canvasOk_view; [| |exact Hv]; simpl;
  rewrite ?drawerUserKey_syncWheelTurn; done.

Ltac canvases h :=
  let Hv := fresh "Hv" in
  intros _ Hv; unfold h, rotateRoles, startRound;
  repeat (case_match; simplify_eq; cbn [fst]; try assumption);
  first [ apply canvasOk_syncWheelTurn; by apply canvasOk_empty
        | by apply canvasOk_empty
        | apply canvasOk_syncWheelTurn; canvas_frame Hv
        | canvas_frame Hv ].

Lemma canvasOk_handler sid o e room :
  keyed e → None ∉ keys room →
  liveOk room → canvasOk room → canvasOk (handler words sid o e room).1.
Proof.
  intros Hkeyed Hkeys. destruct e; cbn [handler]; try done.
  - intros _ Hv. unfold onJoinExisting.
    repeat (case_match; simplify_eq; cbn [fst]; try assumption).
    all: apply canvasOk_syncWheelTurn.
    all: try (eapply canvasOk_view; [| |exact Hv]; done).
    all: intros Hnone; exfalso; simpl in Hnone.
    all: match goal with
         | H : users _ = [_; _] |- _ =>
             apply (f_equal (map userKey)) in H; simpl in H;
             rewrite ?map_updFirst, ?map_app in H by done; simpl in H
         end.
    all: apply Hkeys; unfold keys.
    all: match goal with
         | H : _ = [_; _] |- _ =>
             rewrite Hnone in H;
             destruct (map userKey (users room)) as [|a [|b l]];
             simplify_eq/=; apply list_elem_of_here
         end.
  - intros [Hd _] Hv. unfold onDraw.
    destruct (Js.eqs (drawerId (game room)) sid) eqn:He; [|done].
    apply eqs_true in He. pose proof (Hd sid He) as Hb.
    cbn [negb fst]. intros Hnone. simpl in Hnone. exfalso.
    rewrite Hnone in Hb.
    apply list_elem_of_fmap in Hb as (u & [= Hk _] & Hin). apply Hkeys.
    unfold keys. rewrite Hk. by apply list_elem_of_fmap_2.
  - canvases onClearCanvasRequest.
  - canvases onGuess.
  - canvases onSkipRound.
  - canvases onRestartGame.
  - canvases onSetActiveGame.
  - canvases onClaimMusicHost.
  - canvases onReleaseMusicHost.
  - canvases onMusicSuggestTrack.
  - canvases onMusicAcceptSuggestion.
  - canvases onMusicRejectSuggestion.
  - canvases onMusicAddToQueue.
  - canvases onSpotifyHostSessionUpdate.
  - canvases onSpotifyHostDeviceUpdate.
  - intros _ Hv.
    destruct (onMusicControlRequest_changes sid rid action payload (now o)
                (refreshes o) (fetches o) room) as (_ & _ & _ & Hg & _).
    eapply canvasOk_view; [| |exact Hv]; by rewrite Hg.
  - canvases onSetWheelOptions.
  - canvases onAddLobbyNote.
  - canvases onDeleteLobbyNote.
  - intros _ Hv. unfold onSpinWheel.
    repeat (case_match; simplify_eq; cbn [fst]; try assumption);
      try (by apply canvasOk_syncWheelTurn).
    all: apply canvasOk_syncWheelTurn in Hv; eapply canvasOk_view;
      [| |exact Hv]; done.
  - intros _ Hv. unfold onDisconnectRoom.
    repeat (case_match; simplify_eq; cbn [fst]; try assumption).
    all: apply canvasOk_syncWheelTurn; eapply canvasOk_view; [| |exact Hv];
      done.
Qed.

(** X20. In every state and every snapshot of a run from the empty
    registry in which no join carries a null user key, a room without a
    drawer key holds nothing of a round: no guesser key, no word, an empty
    canvas log and no live role id. *)
Theorem idle_room_is_clean inputs :
  Forall (fun i => keyed (i_event i)) inputs →
  map_Forall (fun _ room => idleClean room) (run words inputs ∅).1
  ∧ snapshotsSatisfy idleClean (run words inputs ∅).2.
Proof.
  intros Hkeyed.
  destruct (run_invariant_on words (fun _ e => keyed e)
              (fun room => Inv room ∧ liveOk room ∧ canvasOk room))
    with (inputs := inputs) (rooms := (∅ : gmap string Room)) as [Hall Hout].
  - intros sid rid rpin uname ucolor ukey e He Hkey.
    assert (Hk : ukey ≠ None) by (by destruct He as [-> | ->]).
    split_and!; [by apply Inv_newRoom | by split; apply boundTo_None | done].
  - intros sid o e room Hkey (Hi & Hl & Hc). split_and!;
      [by apply Inv_handler | by apply liveOk_handler
      | apply canvasOk_handler; [done | apply Hi | done | done]].
  - exact Hkeyed.
  - apply map_Forall_empty.
  - split.
    + intros rid room Hroom. destruct (Hall rid room Hroom) as (? & ? & ?).
      by apply idle_of_invariants.
    + eapply Forall_impl; [exact Hout|]. intros out Hsnap room Hroom.
      destruct (Hsnap room Hroom) as (? & ? & ?). by apply idle_of_invariants.
Qed.
End Idle.

(** The theorem at the run in which Bob reaches the cap: the room it leaves
    has no drawer key, and with it no guesser key, no word, no stroke and no
    live role id. *)
Lemma idle_room_is_clean_witness :
  Forall (fun i => keyed (i_event i)) bobWins
  ∧ ∃ room, (run someWords bobWins ∅).1 !! "R1" = Some room
            ∧ drawerUserKey (game room) = None
            ∧ guesserUserKey (game room) = None
            ∧ currentWord (game room) = None
            ∧ strokes (game room) = []
            ∧ drawerId (game room) = None ∧ guesserId (game room) = None.
Proof.
  assert (Hkeyed : Forall (fun i => keyed (i_event i)) bobWins)
    by (repeat (constructor; try done)).
  split; [exact Hkeyed|].
  destruct ((run someWords bobWins ∅).1 !! "R1") as [room|] eqn:Hroom;
    [|by vm_compute in Hroom].
  exists room. split; [done|].
  pose proof (proj1 (idle_room_is_clean someWords bobWins Hkeyed) _ _ Hroom)
    as Hidle.
  assert (Hnone : drawerUserKey (game room) = None)
    by (vm_compute in Hroom; by injection Hroom as <-).
  destruct (Hidle Hnone) as (? & ? & ? & ? & ?). by split_and!.
Defined.

(** ** Who is told the word *)

Lemma musicControl_silent rid action payload now user w outs :
  (musicControl rid action payload now user w).1 = inr outs →
  Forall (fun out => isAssign out = false) outs.
Proof.
  destruct w as [room rs fs]. run_monad. cbn [w_room w_refreshes w_fetches].
  repeat (case_match; simplify_eq; cbn [w_room w_refreshes w_fetches fst snd]).
  all: intros [= <-]; by repeat constructor.
Qed.

Lemma wordToDrawer_silent room outs :
  Forall (fun out => isAssign out = false) outs → wordToDrawer room outs.
Proof. intros Hs. eapply Forall_impl; [exact Hs|]. by intros out ->. Qed.

Lemma wordToDrawer_assignWord room : wordToDrawer room (assignWord room).
Proof.
  unfold assignWord. destruct (Js.truthy _); by repeat constructor.
Qed.

Lemma wordToDrawer_view room room' outs :
  drawerId (game room') = drawerId (game room) →
  currentWord (game room') = currentWord (game room) →
  wordToDrawer room outs → wordToDrawer room' outs.
Proof. unfold wordToDrawer. by intros -> ->. Qed.

Lemma wordToDrawer_syncWheelTurn room outs :
  wordToDrawer room outs → wordToDrawer (syncWheelTurn room) outs.
Proof. destruct (syncWheelTurn_eq room) as [t ->]. by apply wordToDrawer_view. Qed.

Lemma wordHeld_view room room' :
  view room' = view room → wordHeld room → wordHeld room'.
Proof.
  unfold view, wordHeld. intros [= Hk Hd Hg Hw]. by rewrite Hk, Hd, Hg, Hw.
Qed.

Lemma truthy_not_None (o : option string) : Js.truthy o = true → o ≠ None.
Proof. by destruct o. Qed.

Section Word.
Variable words : list string.

Lemma wordHeld_rotateRoles rnd room :
  wordHeld room → currentWord (game room) ≠ None →
  wordHeld (rotateRoles words rnd room).
Proof.
  intros Hheld Hw. destruct (Hheld Hw) as [Hd Hg]. unfold rotateRoles.
  eapply wordHeld_view; [apply view_syncStatuses|]. by intros _.
Qed.

Lemma wordHeld_startRound rnd room : wordHeld (startRound words rnd room).
Proof.
  unfold startRound.
  destruct (List.filter connected (users room)) as [|u1 [|u2 rest]] eqn:Hf;
    (eapply wordHeld_view; [apply view_syncStatuses|]); try done.
  assert (∀ u, u ∈ u1 :: u2 :: rest → userKey u ∈ keys room) as Hin.
  { intros u Hu. rewrite <- Hf in Hu.
    apply list_elem_of_In, filter_In in Hu as [?%list_elem_of_In _].
    by apply list_elem_of_fmap_2. }
  intros _. split; apply Hin; [by left | by right; left].
Qed.

Ltac held_frame Hv :=
  eapply wordHeld_view; [|exact Hv];
  autorewrite with roomview; unfold view, keys; simpl;
  autorewrite with roomview; rewrite ?map_updFirst by done; done.

Ltac held h :=
  let Hv := fresh "Hv" in
  intros Hv; unfold h;
  repeat (case_match; simplify_eq; cbn [fst]; try assumption);
  held_frame Hv.

Lemma wordHeld_onJoinExisting sid rid rpin uname ucolor ukey rnd room :
  wordHeld room →
  wordHeld (onJoinExisting words sid rid rpin uname ucolor ukey rnd room).1.
Proof.
  intros Hv. unfold onJoinExisting.
  destruct (negb (String.eqb (pin room) rpin)); [done|].
  match goal with
  | |- context [match ?a with Some _ => _ | None => (room, _) end] =>
      assert (Hadm : ∀ room1, a = Some room1 → wordHeld room1);
        [|destruct a as [room1|]]
  end.
  { intros room1.
    destruct (List.find _ _) as [user|] eqn:Hfind.
    - intros [= <-]. repeat case_match; held_frame Hv.
    - destruct (2 <=? length (users room))%nat; [done|]. intros [= <-].
      intros Hw. destruct (Hv Hw) as [Hd Hg]. unfold keys. simpl.
      rewrite map_app. split; apply elem_of_app; by left. }
  2: done.
  specialize (Hadm room1 eq_refl). simpl.
  eapply wordHeld_view; [apply view_syncWheelTurn|].
  eapply wordHeld_view; [apply view_syncStatuses|].
  destruct (users room1) as [|u1 [|u2 [|]]] eqn:Hus; simpl; try done.
  destruct (negb (Js.truthy (drawerUserKey (game room1)))); simpl; [|done].
  intros _. unfold keys. simpl. rewrite Hus. simpl.
  split; [by left | by right; left].
Qed.

Lemma wordHeld_handler sid o e room :
  wordHeld room → wordHeld (handler words sid o e room).1.
Proof.
  destruct e; cbn [handler]; try done.
  - apply wordHeld_onJoinExisting.
  - held onDraw.
  - held onClearCanvasRequest.
  - intros Hv. unfold onGuess.
    destruct (guessAccepted sid room) eqn:Hacc; simpl; [|done].
    apply guessAccepted_roles in Hacc as (Hw%truthy_not_None & _).
    destruct (currentWord (game room)) as [word|] eqn:Hword; [|done].
    destruct (guessMatches guess word); simpl.
    + destruct (findByKey _ _) as [guesser|]; [|done].
      destruct (MAX_SCORE <=? _); simpl; [by intros ?|].
      apply wordHeld_rotateRoles; [held_frame Hv | simpl; congruence].
    + destruct (MAX_WRONG_GUESSES <=? _); simpl;
        [apply wordHeld_rotateRoles; [held_frame Hv | simpl; congruence]
        | held_frame Hv].
  - intros Hv. unfold onSkipRound.
    destruct (guessAccepted sid room) eqn:Hacc; simpl; [|done].
    apply guessAccepted_roles in Hacc as (Hw%truthy_not_None & _).
    by apply wordHeld_rotateRoles.
  - intros Hv. unfold onRestartGame.
    destruct (findBySocket sid (users room)); cbn [fst]; [|done].
    eapply wordHeld_view; [apply view_syncWheelTurn|].
    apply wordHeld_startRound.
  - held onSetActiveGame.
  - held onClaimMusicHost.
  - held onReleaseMusicHost.
  - held onMusicSuggestTrack.
  - held onMusicAcceptSuggestion.
  - held onMusicRejectSuggestion.
  - held onMusicAddToQueue.
  - held onSpotifyHostSessionUpdate.
  - held onSpotifyHostDeviceUpdate.
  - intros Hv.
    destruct (onMusicControlRequest_changes sid rid action payload (now o)
                (refreshes o) (fetches o) room) as (_ & _ & Hu & Hg & _).
    eapply wordHeld_view; [|exact Hv]. unfold view, keys. by rewrite Hu, Hg.
  - held onSetWheelOptions.
  - held onAddLobbyNote.
  - held onDeleteLobbyNote.
  - held onSpinWheel.
  - held onDisconnectRoom.
Qed.

Lemma run_wordHeld inputs :
  map_Forall (fun _ room => wordHeld room) (run words inputs ∅).1
  ∧ snapshotsSatisfy wordHeld (run words inputs ∅).2.
Proof.
  apply (run_invariant words (fun _ => True) wordHeld);
    [| |by apply Forall_true|apply map_Forall_empty].
  - intros. by intros ?.
  - intros. by apply wordHeld_handler.
Qed.

Ltac silent h :=
  unfold h; repeat (case_match; simplify_eq; cbn [fst snd]);
  apply wordToDrawer_silent; by repeat constructor.

Lemma wordToDrawer_onJoinExisting sid rid rpin uname ucolor ukey rnd room :
  wordHeld room →
  wordToDrawer (onJoinExisting words sid rid rpin uname ucolor ukey rnd room).1
    (onJoinExisting words sid rid rpin uname ucolor ukey rnd room).2.
Proof.
  intros Hheld. unfold onJoinExisting.
  destruct (negb _); [by repeat constructor|].
  destruct (List.find _ _) as [user|] eqn:Hfind.
  - pose proof Hfind as [_ Hk%eqo_true]%find_some. rewrite Hk.
    set (us := updFirst _ _ _).
    set (g' := if Js.eqo (guesserUserKey _) ukey then _ else _).
    assert (drawerUserKey g' = drawerUserKey (game room)
            ∧ (drawerUserKey (game room) = ukey →
               drawerId g' = Some sid)) as [Hd' Hid'].
    { subst g'. split.
      - by destruct (Js.eqo (drawerUserKey _) ukey),
             (Js.eqo (guesserUserKey _) ukey).
      - intros Hd. rewrite Hd, eqo_refl.
        by destruct (Js.eqo _ ukey). }
    assert (∀ u1 rest, us = u1 :: rest → userKey u1 = ukey →
                       socketId u1 = Some sid) as Hfirst.
    { subst us. destruct (users room) as [|x xs]; [done|]. simpl.
      destruct (Js.eqo (userKey x) ukey) eqn:Hx.
      - by intros u1 rest [= <- _] _.
      - apply eqo_false in Hx. by intros u1 rest [= <- _] ?. }
    cbn [users setGame setUsers game].
    destruct us as [|u1 [|u2 [|]]] eqn:Hus; cbn [fst snd app];
      try destruct (negb (Js.truthy (drawerUserKey g'))); cbn [fst snd app].
    all: apply wordToDrawer_syncWheelTurn.
    all: unfold wordToDrawer, syncStatuses;
      cbn [game setGame setUsers drawerId currentWord drawerUserKey].
    all: repeat (apply Forall_app; split); repeat apply Forall_cons_2;
      try apply Forall_nil_2; try done.
    all: destruct (Js.truthy _ && Js.eqo _ ukey) eqn:Hc;
      repeat apply Forall_cons_2; try apply Forall_nil_2; try done.
    all: intros _; apply andb_prop in Hc as [_ Hc%eqo_true].
    all: first [ rewrite Hid' by congruence; done
               | simpl in Hc; by rewrite (Hfirst _ _ eq_refl Hc) ].
  - destruct (_ <=? _)%nat; [by repeat constructor|].
    apply find_key_None in Hfind.
    cbn [users setUsers game].
    destruct (users room ++ _) as [|u1 [|u2 [|]]] eqn:Hus; cbn [fst snd app];
      try destruct (negb (Js.truthy (drawerUserKey (game room)))) eqn:Hidle;
      cbn [fst snd app].
    all: apply wordToDrawer_syncWheelTurn.
    all: unfold wordToDrawer, syncStatuses;
      cbn [game setGame setUsers drawerId currentWord drawerUserKey].
    all: repeat (apply Forall_app; split); repeat apply Forall_cons_2;
      try apply Forall_nil_2; try done.
    all: destruct (Js.truthy _ && Js.eqo _ ukey) eqn:Hc;
      repeat apply Forall_cons_2; try apply Forall_nil_2; try done.
    all: intros _;
      apply andb_prop in Hc as [Hw%truthy_not_None Hc%eqo_true].
    all: try (destruct (Hheld Hw) as [Hin _]; rewrite Hc in Hin;
              by destruct Hfind).
    simpl in Hc. destruct Hfind.
    destruct (users room) as [|x [|y ?]]; simplify_eq/=;
      apply list_elem_of_here.
Qed.

Lemma wordToDrawer_handler sid o e room :
  wordHeld room →
  wordToDrawer (handler words sid o e room).1 (handler words sid o e room).2.
Proof.
  intros Hinv. destruct e; cbn [handler]; try by repeat constructor.
  - by apply wordToDrawer_onJoinExisting.
  - silent onDraw.
  - silent onClearCanvasRequest.
  - unfold onGuess, skipOuts.
    repeat (case_match; simplify_eq; cbn [fst snd]);
      try (apply wordToDrawer_silent; by repeat constructor).
    all: unfold wordToDrawer; repeat (apply Forall_app; split);
      try apply wordToDrawer_assignWord; by repeat constructor.
  - unfold onSkipRound, skipOuts.
    repeat (case_match; simplify_eq; cbn [fst snd]);
      try (apply wordToDrawer_silent; by repeat constructor).
    all: unfold wordToDrawer; repeat (apply Forall_app; split);
      try apply wordToDrawer_assignWord; by repeat constructor.
  - unfold onRestartGame.
    repeat (case_match; simplify_eq; cbn [fst snd]);
      try (apply wordToDrawer_silent; by repeat constructor).
    all: unfold wordToDrawer; repeat (apply Forall_app; split);
      try apply wordToDrawer_assignWord; by repeat constructor.
  - silent onSetActiveGame.
  - silent onClaimMusicHost.
  - silent onReleaseMusicHost.
  - silent onMusicSuggestTrack.
  - silent onMusicAcceptSuggestion.
  - silent onMusicRejectSuggestion.
  - silent onMusicAddToQueue.
  - silent onSpotifyHostSessionUpdate.
  - silent onSpotifyHostDeviceUpdate.
  - unfold onMusicControlRequest.
    destruct (findBySocket sid (users room)) as [user|];
      [|by repeat constructor].
    destruct (_ || _); [by repeat constructor|].
    pose proof (musicControl_silent rid action payload (now o) user
                  (mkWorld room (refreshes o) (fetches o))) as Hs.
    destruct (musicControl _ _ _ _ _ _) as [[err|outs] w]; cbn [fst snd] in *;
      apply wordToDrawer_silent; [by repeat constructor | by apply Hs].
  - silent onSetWheelOptions.
  - silent onAddLobbyNote.
  - silent onDeleteLobbyNote.
  - silent onSpinWheel.
  - silent onDisconnectRoom.
Qed.

(** X21. In a room that a run from the empty registry reaches, whatever the
    event, every message that carries the word is addressed to the live id
    of the drawer as the handler leaves it, and carries the word that the
    room then holds: the word is never emitted to the room or to the
    sender as such. *)
Theorem word_goes_to_drawer inputs rid room sid o e out :
  (run words inputs ∅).1 !! rid = Some room →
  out ∈ (handler words sid o e room).2 →
  isAssign out = true →
  out = To (drawerId (game (handler words sid o e room).1))
          (ASSIGN_WORD (currentWord (game (handler words sid o e room).1))).
Proof.
  intros Hroom Hin Hout.
  destruct (run_wordHeld inputs) as [Hall _].
  pose proof (wordToDrawer_handler sid o e room (Hall _ _ Hroom)) as Hw.
  unfold wordToDrawer in Hw. rewrite Forall_forall in Hw. by apply Hw.
Qed.
End Word.

Lemma word_goes_to_drawer_witness :
  To (Some "s2") (ASSIGN_WORD (Some "cat"))
  = To (drawerId (game (handler someWords "s2" quiet (SKIP_ROUND "R1")
                          roundRoom).1))
      (ASSIGN_WORD (currentWord (game (handler someWords "s2" quiet
                                         (SKIP_ROUND "R1") roundRoom).1))).
Proof.
  apply (word_goes_to_drawer someWords [joinAnn "s1"; joinBob "s2"] "R1"
           roundRoom "s2" quiet (SKIP_ROUND "R1")).
  - apply roundRoom_reachable.
  - vm_compute. apply list_elem_of_further, list_elem_of_here.
  - reflexivity.
Defined.

(** ** What is broadcast is what is stored *)

Section Broadcast.
Variable words : list string.

(** X22. Every snapshot that the handling of one event sends, to the room
    or to the sender, is a room of the registry as that event leaves it: no
    client is shown an intermediate state. *)
Theorem broadcast_is_stored sid o e (rooms : gmap string Room) out r :
  out ∈ (step words sid o e rooms).2 →
  snapshotOf out = Some r →
  ∃ rid, (step words sid o e rooms).1 !! rid = Some r.
Proof.
  unfold step. destruct (target e) as [rid|] eqn:Ht.
  - destruct (rooms !! rid) as [room|] eqn:Hroom; cbn [fst snd].
    + intros Hin Hsnap.
      pose proof (handler_snapshots words sid o e room) as Hs.
      unfold snapshotsAre in Hs. rewrite Forall_forall in Hs.
      rewrite (Hs out Hin r Hsnap). exists rid. apply lookup_insert_eq.
    + destruct e; cbn [onMissing fst snd]; intros Hin Hsnap;
        repeat (apply elem_of_cons in Hin as [-> | Hin]);
        try (by apply elem_of_nil in Hin); simplify_eq/=;
        eexists; apply lookup_insert_eq.
  - cbn [fst snd]. intros Hin Hsnap.
    apply list_elem_of_In, in_concat in Hin as (outs & Houts & Hin).
    apply list_elem_of_In in Houts, Hin.
    apply list_elem_of_fmap in Houts as ([k room] & -> & Hk).
    apply elem_of_map_to_list in Hk. cbn [snd] in Hin.
    pose proof (handler_snapshots words sid o e room) as Hs.
    unfold snapshotsAre in Hs. rewrite Forall_forall in Hs.
    rewrite (Hs out Hin r Hsnap). exists k. by rewrite lookup_fmap, Hk.
Qed.
End Broadcast.

Lemma broadcast_is_stored_witness :
  ∃ rid, (step someWords "s1" quiet DISCONNECT {[ "R1" := roundRoom ]}).1
           !! rid = Some aloneRoom.
Proof.
  apply (broadcast_is_stored someWords "s1" quiet DISCONNECT
           {[ "R1" := roundRoom ]} (To (Some "R1") (ROOM_STATE aloneRoom))).
  - vm_compute. apply list_elem_of_here.
  - reflexivity.
Defined.

(** ** Connections that are bound to no member *)

Lemma outsider_has_no_role sid room :
  liveOk room → findBySocket sid (users room) = None →
  Js.eqs (drawerId (game room)) sid = false
  ∧ Js.eqs (guesserId (game room)) sid = false.
Proof.
  intros [Hd Hg] Hnone.
  assert (∀ role live, boundTo role live room → Js.eqs live sid = false) as Hb.
  { intros role live Hrole. apply eqs_false. intros Hlive.
    pose proof (Hrole sid Hlive) as Hin.
    apply list_elem_of_fmap in Hin as (u & [= _ Hs] & Hin).
    eapply find_none in Hnone; [|by apply list_elem_of_In].
    unfold bySocket in Hnone. rewrite <- Hs in Hnone.
    by rewrite String.eqb_refl in Hnone. }
  split; [by apply (Hb _ _ Hd) | by apply (Hb _ _ Hg)].
Qed.

Section Outsiders.
Variable words : list string.

(** X23. In a room that a run from the empty registry reaches, an event
    other than JOIN_ROOM from a connection that is bound to no member of the
    room changes nothing and sends nothing; a control request is answered
    with the error that the user is not found. *)
Theorem outsider_changes_nothing inputs rid room sid o e :
  (run words inputs ∅).1 !! rid = Some room →
  findBySocket sid (users room) = None →
  (∀ r p n c k, e ≠ JOIN_ROOM r p n c k) →
  (handler words sid o e room).1 = room
  ∧ ((handler words sid o e room).2 = []
     ∨ (∃ r a p, e = MUSIC_CONTROL_REQUEST r a p)
       ∧ (handler words sid o e room).2 = [Ack (ReplyFail UserNotFound)]).
Proof.
  intros Hroom Hnone Hjoin.
  destruct (run_liveOk words inputs) as [Hall _].
  destruct (outsider_has_no_role sid room (Hall _ _ Hroom) Hnone) as [Hd Hg].
  destruct e; cbn [handler];
    unfold onDraw, onClearCanvasRequest, onGuess, onSkipRound, guessAccepted,
      onRestartGame, onSetActiveGame, onClaimMusicHost, onReleaseMusicHost,
      onMusicSuggestTrack, onMusicAcceptSuggestion, onMusicRejectSuggestion,
      onMusicAddToQueue, onSpotifyHostSessionUpdate,
      onSpotifyHostDeviceUpdate, onMusicControlRequest, onSetWheelOptions,
      onAddLobbyNote, onDeleteLobbyNote, onSpinWheel, onDisconnectRoom;
    rewrite ?Hnone, ?Hd, ?Hg, ?andb_false_r; cbn [negb fst snd];
    try (split; [done | by left]).
  - by destruct (Hjoin rid0 rpin uname ucolor ukey).
  - destruct (parseTab tab); by split; [|left].
  - split; [done|]. right. split; [by eexists _, _, _ | done].
Qed.
End Outsiders.

Lemma outsider_changes_nothing_witness :
  (handler someWords "s9" quiet (RESTART_GAME "R1") roundRoom).1 = roundRoom
  ∧ ((handler someWords "s9" quiet (RESTART_GAME "R1") roundRoom).2 = []
     ∨ (∃ r a p, RESTART_GAME "R1" = MUSIC_CONTROL_REQUEST r a p)
       ∧ (handler someWords "s9" quiet (RESTART_GAME "R1") roundRoom).2
         = [Ack (ReplyFail UserNotFound)]).
Proof.
  apply (outsider_changes_nothing someWords [joinAnn "s1"; joinBob "s2"] "R1"
           roundRoom "s9" quiet (RESTART_GAME "R1")).
  - apply roundRoom_reachable.
  - reflexivity.
  - discriminate.
Defined.

(** ** The step of a score *)

Section ScoreStep.
Variable words : list string.

Lemma onGuess_scores sid rid guess rnd room word p :
  guessAccepted sid room = true →
  currentWord (game room) = Some word →
  guessMatches guess word = true →
  pointsOf (guesserUserKey (game room)) room = Some p →
  pointsOf (guesserUserKey (game room))
    (onGuess words sid rid guess rnd room).1 = Some (p + 1).
Proof.
  intros Hacc Hw Hm Hp. unfold onGuess. rewrite Hacc, Hw, Hm. cbn [negb].
  unfold pointsOf in Hp.
  destruct (findByKey _ _) as [guesser|] eqn:Hfind; [|done].
  simpl in Hp. injection Hp as <-.
  set (g := guesserUserKey (game room)) in *.
  assert (Hpts : ∀ r,
            scores r = scores (setUsers
                (updFirst (fun u => Js.eqo g (userKey u))
                   (setPoints (points guesser + 1)) (users room)) room) →
            pointsOf g r = Some (points guesser + 1)).
  { intros r Hr. rewrite (pointsOf_scores g _ _ Hr). unfold pointsOf.
    cbn [users setUsers]. rewrite findByKey_updFirst_same by done.
    by rewrite Hfind. }
  destruct (MAX_SCORE <=? points guesser + 1); cbn [fst]; apply Hpts.
  - unfold scores. simpl. by rewrite map_map.
  - by autorewrite with roomview.
Qed.

(** X24. In one step of the server the points of a member stay, or go up
    by exactly one on a GUESS that matches the word (trimmed, and up to the
    case of the letters), sent by the live connection of the guesser while
    that member holds the guesser's key, or are set to 0 by RESTART_GAME;
    when the new score reaches the cap the round state is cleared in the
    same step and the member is recorded as the winner.  Conversely, an
    accepted GUESS that matches the word gives the guesser exactly one
    point. *)
Theorem points_step sid o e (rooms : gmap string Room) rid room room' k p :
  rooms !! rid = Some room →
  (step words sid o e rooms).1 !! rid = Some room' →
  pointsOf k room = Some p →
  (pointsOf k room' = Some p
   ∨ (pointsOf k room' = Some (p + 1)
      ∧ (∃ guess word, e = GUESS rid guess
                       ∧ currentWord (game room) = Some word
                       ∧ matchesWord guess word)
      ∧ guesserUserKey (game room) = k
      ∧ guesserId (game room) = Some sid
      ∧ (MAX_SCORE ≤ p + 1 →
         roundCleared room' ∧ winnerUserKey (game room') = k))
   ∨ (pointsOf k room' = Some 0 ∧ e = RESTART_GAME rid))
  ∧ (∀ guess word,
       e = GUESS rid guess →
       guessAccepted sid room = true →
       currentWord (game room) = Some word →
       matchesWord guess word →
       guesserUserKey (game room) = k →
       pointsOf k room' = Some (p + 1)).
Proof.
  intros Hroom Hstep Hp. split.
  - destruct (step_room _ _ _ _ _ _ _ _ Hroom Hstep) as [->|[-> Ht]];
      [by left|].
    destruct e; try (left; rewrite <- Hp; apply pointsOf_scores;
                     by apply scores_handler).
    + left. by apply pointsOf_onJoinExisting.
    + destruct Ht as [[= ->]|[=]]. cbn [handler].
      destruct (pointsOf_onGuess words sid rid guess (rnd o) room k p Hp)
        as [?|(? & ? & ? & (word & ? & Hm) & ?)]; [by left|].
      apply guessMatches_matchesWord in Hm.
      right; left. split_and!; eauto.
    + destruct Ht as [[= ->]|[=]]. cbn [handler].
      destruct (pointsOf_onRestartGame words sid rid (rnd o) room k p Hp);
        [by left | right; by right].
  - intros guess word -> Hacc Hw Hm%guessMatches_matchesWord <-.
    unfold step in Hstep. cbn [target] in Hstep. rewrite Hroom in Hstep.
    cbn [fst] in Hstep. rewrite lookup_insert_eq in Hstep.
    injection Hstep as <-. cbn [handler].
    by apply (onGuess_scores sid rid guess (rnd o) room word).
Qed.
End ScoreStep.

(** The theorem at Bob's first guess in the room of Ann and Bob: " Cat "
    matches the word "cat", and Bob goes from no point to one. *)
Lemma points_step_witness :
  ∃ room room',
    (run someWords [joinAnn "s1"; joinBob "s2"] ∅).1 !! "R1" = Some room
    ∧ (step someWords "s2" quiet (GUESS "R1" " Cat ")
         (run someWords [joinAnn "s1"; joinBob "s2"] ∅).1).1 !! "R1"
      = Some room'
    ∧ pointsOf (Some "B") room = Some 0
    ∧ matchesWord " Cat " "cat"
    ∧ pointsOf (Some "B") room' = Some 1.
Proof.
  destruct ((run someWords [joinAnn "s1"; joinBob "s2"] ∅).1 !! "R1")
    as [room|] eqn:Hroom; [|by vm_compute in Hroom].
  destruct ((step someWords "s2" quiet (GUESS "R1" " Cat ")
               (run someWords [joinAnn "s1"; joinBob "s2"] ∅).1).1 !! "R1")
    as [room'|] eqn:Hroom'; [|by vm_compute in Hroom'].
  exists room, room'.
  assert (Hp : pointsOf (Some "B") room = Some 0).
  { vm_compute in Hroom. injection Hroom as <-. reflexivity. }
  assert (Hm : matchesWord " Cat " "cat").
  { apply guessMatches_matchesWord. reflexivity. }
  split_and!; try done.
  apply (proj2 (points_step someWords "s2" quiet (GUESS "R1" " Cat ") _ "R1"
                  room room' (Some "B") 0 Hroom Hroom' Hp) " Cat " "cat");
    try done; vm_compute in Hroom; by injection Hroom as <-.
Defined.

(** ** The roles in the runs in which every member has a key *)

(** X26. In every snapshot of a run from the empty registry in which no
    join carries a null user key, the drawer and guesser keys are either
    both null or two distinct keys of registered members, and a word is
    held only while both are set. *)
Theorem snapshot_roles_keyed words inputs :
  Forall (fun i => keyed (i_event i)) inputs →
  snapshotsSatisfy rolesOk (run words inputs ∅).2.
Proof. apply run_rolesOk. Qed.

(** The theorem at the run in which Ann and Bob join: the last snapshot has
    Ann as drawer and Bob as guesser. *)
Lemma snapshot_roles_keyed_witness :
  Forall (fun i => keyed (i_event i)) [joinAnn "s1"; joinBob "s2"]
  ∧ rolesOk roundRoom
  ∧ drawerUserKey (game roundRoom) = Some "A"
  ∧ guesserUserKey (game roundRoom) = Some "B".
Proof.
  assert (Hkeyed : Forall (fun i => keyed (i_event i))
                     [joinAnn "s1"; joinBob "s2"])
    by (repeat (constructor; try done)).
  split; [exact Hkeyed|]. split; [|done].
  pose proof (snapshot_roles_keyed someWords _ Hkeyed) as Hs.
  unfold snapshotsSatisfy in Hs. rewrite Forall_forall in Hs.
  apply (Hs (To (Some "R1") (ROOM_STATE roundRoom))); [|done].
  vm_compute. do 5 apply list_elem_of_further. apply list_elem_of_here.
Defined.

(** ** Control requests with the awaits in the open *)

Lemma drain_settled n now rs fs room outs :
  drain n now rs fs (room, outs, None) = (room, outs).
Proof. by destruct n. Qed.

Lemma drain_api k now rs r fs room outs rid purpose :
  drain (S k) now rs (r :: fs) (room, outs, Some (AwaitsApi rid purpose))
  = match resume (AwaitsApi rid purpose) (Api r) now room with
    | Some (room', outs', next) =>
        drain k now rs fs (room', outs ++ outs', next)
    | None => (room, outs)
    end.
Proof. done. Qed.

Lemma drain_api_failed k now rs room outs rid purpose :
  drain (S k) now rs [] (room, outs, Some (AwaitsApi rid purpose))
  = (room, outs ++ [Ack (ReplyFail (Thrown "fetch failed"))]).
Proof. simpl. apply drain_settled. Qed.

Lemma drain_token k now r rs fs room outs rid refresh purpose :
  drain (S k) now (r :: rs) fs
    (room, outs, Some (AwaitsToken rid refresh purpose))
  = match resume (AwaitsToken rid refresh purpose) (Token r) now room with
    | Some (room', outs', next) =>
        drain k now rs fs (room', outs ++ outs', next)
    | None => (room, outs)
    end.
Proof. done. Qed.

Lemma drain_token_failed k now fs room outs rid refresh purpose :
  drain (S k) now [] fs (room, outs, Some (AwaitsToken rid refresh purpose))
  = (room, outs ++ [Ack (ReplyFail (Thrown "fetch failed"))]).
Proof. simpl. apply drain_settled. Qed.

Lemma drain_seg k now rs fs (seg : Segment) :
  (let '(room', outs', next) := seg in
   drain k now rs fs (room', [] ++ outs', next))
  = drain k now rs fs seg.
Proof. by destruct seg as [[? ?] ?]. Qed.

Ltac drain_one :=
  rewrite ?drain_api, ?drain_api_failed, ?drain_token, ?drain_token_failed;
  cbn [resume failWith app negb].

Lemma callApi_drain n rid now purpose room rs fs :
  purpose ≠ ForToggle →
  drain (S (S n)) now rs fs (callApi rid now purpose room)
  = match spotifyHostFetch now (mkWorld room rs fs) with
    | (inl e, w) => (w_room w, [Ack (ReplyFail e)])
    | (inr data, w) => settled (finish rid now purpose data (w_room w))
    end.
Proof.
  intros Hp.
  assert (Hfin : ∀ k data r rs' fs',
            drain k now rs' fs' (finish rid now purpose data r)
            = settled (finish rid now purpose data r)).
  { intros k data r rs' fs'. destruct purpose; try done; unfold finish;
      repeat case_match; apply drain_settled. }
  assert (Hlast : ∀ k r rs' fs',
            drain (S k) now rs' fs' (r, [], Some (AwaitsApi rid purpose))
            = match fs' with
              | [] => (r, [Ack (ReplyFail (Thrown "fetch failed"))])
              | NoContent :: _ => settled (finish rid now purpose None r)
              | NotOk st :: _ => (r, [Ack (ReplyFail (ApiFailed st))])
              | Json b :: _ => settled (finish rid now purpose (Some b) r)
              | NetworkError msg :: _ => (r, [Ack (ReplyFail (Thrown msg))])
              end).
  { intros k r rs' fs'. destruct fs' as [|[| | |] fs']; drain_one;
      rewrite ?drain_settled; try done.
    - destruct (finish rid now purpose None r) as [[r' o'] nx] eqn:Hf.
      rewrite <- Hf. apply Hfin.
    - destruct (finish rid now purpose (Some body) r) as [[r' o'] nx] eqn:Hf.
      rewrite <- Hf. apply Hfin. }
  unfold callApi. run_monad. cbn [w_room w_refreshes w_fetches].
  destruct (hostSession (music room)) as [session|] eqn:Hs; [|done].
  unfold hasToken.
  destruct (Js.truthyS (accessToken session)) eqn:Ha; cbn [negb]; [|done].
  destruct (now <=? expiresAt session - 30000).
  { cbn [w_room w_refreshes w_fetches hasToken]. rewrite Ha. cbn [negb].
    rewrite Hlast. by destruct fs as [|[| | |] fs]. }
  destruct (negb (Js.truthy (clientId (music room)))
            || negb (Js.truthyS (refreshToken session))); [done|].
  destruct rs as [|[|acc r e] rs]; drain_one; rewrite ?drain_settled;
    try done.
  cbn [w_room w_refreshes w_fetches hasToken accessToken music setMusic].
  destruct (Js.truthyS acc); cbn [negb failWith app];
    [|by rewrite drain_settled].
  rewrite Hlast. by destruct fs as [|[| | |] fs].
Qed.

Lemma toggle_drain rid now room rs fs :
  drain 4 now rs fs (callApi rid now ForToggle room)
  = match spotifyHostFetch now (mkWorld room rs fs) with
    | (inl e, w) => (w_room w, [Ack (ReplyFail e)])
    | (inr _, w) =>
        match spotifyHostFetch now w with
        | (inl e, w') => (w_room w', [Ack (ReplyFail e)])
        | (inr _, w') => (w_room w', [Ack (ReplyOk NoData)])
        end
    end.
Proof.
  assert (Hnext : ∀ n r rs' fs' data,
            drain (S (S n)) now rs' fs' (finish rid now ForToggle data r)
            = match spotifyHostFetch now (mkWorld r rs' fs') with
              | (inl e, w') => (w_room w', [Ack (ReplyFail e)])
              | (inr _, w') => (w_room w', [Ack (ReplyOk NoData)])
              end).
  { intros n r rs' fs' data. cbn [finish].
    rewrite callApi_drain by done.
    by destruct (spotifyHostFetch now _) as [[e|d] w]. }
  set (K := fun w => match spotifyHostFetch now w with
                     | (inl e, w') => (w_room w', [Ack (ReplyFail e)])
                     | (inr _, w') => (w_room w', [Ack (ReplyOk NoData)])
                     end) in *.
  change (drain 4 now rs fs (callApi rid now ForToggle room)
          = match spotifyHostFetch now (mkWorld room rs fs) with
            | (inl e, w) => (w_room w, [Ack (ReplyFail e)])
            | (inr _, w) => K w
            end).
  unfold callApi. run_monad.
  cbn [w_room w_refreshes w_fetches].
  destruct (hostSession (music room)) as [session|] eqn:Hs; [|done].
  unfold hasToken.
  destruct (Js.truthyS (accessToken session)) eqn:Ha; cbn [negb]; [|done].
  destruct (now <=? expiresAt session - 30000).
  { cbn [w_room w_refreshes w_fetches hasToken]. rewrite Ha. cbn [negb].
    destruct fs as [|[| | |] fs]; drain_one; rewrite ?drain_settled;
      try done; by rewrite drain_seg, Hnext. }
  destruct (negb (Js.truthy (clientId (music room)))
            || negb (Js.truthyS (refreshToken session))); [done|].
  destruct rs as [|[|acc r e] rs]; drain_one; rewrite ?drain_settled;
    try done.
  cbn [w_room w_refreshes w_fetches hasToken accessToken music setMusic].
  destruct (Js.truthyS acc); cbn [negb failWith app];
    [|by rewrite drain_settled].
  destruct fs as [|[| | |] fs]; drain_one; rewrite ?drain_settled;
    try done; by rewrite drain_seg, Hnext.
Qed.

(** X27. A control request whose answers are at hand is the request cut at
    its awaits, each answer arriving at once and the clock standing still:
    the handler of the runs, [onMusicControlRequest], leaves the room and
    sends the messages of [startMusicControl] followed by [resume] on the
    listed answers. *)
Theorem control_request_staged sid rid action payload now rs fs room :
  onMusicControlRequest sid rid action payload now rs fs room
  = drain 4 now rs fs (startMusicControl sid rid action payload now room).
Proof.
  unfold onMusicControlRequest, startMusicControl.
  destruct (findBySocket sid (users room)) as [user|]; [|done].
  destruct (_ || _); [done|].
  unfold musicControl, failWith, replyWith.
  repeat (destruct (String.eqb action _); cbn [orb]).
  - rewrite callApi_drain by done. unfold bind at 1.
    destruct (spotifyHostFetch now _) as [[e|data] w]; [done|].
    cbn [finish]. by destruct data as [[[it|] playing ts]|].
  - destruct (negb (Js.truthyS _)); [done|].
    rewrite callApi_drain by done. unfold bind at 1.
    by destruct (spotifyHostFetch now _) as [[e|data] w].
  - destruct (negb (Js.truthyS _)); [done|].
    rewrite callApi_drain by done. unfold bind at 1.
    by destruct (spotifyHostFetch now _) as [[e|data] w].
  - unfold bind at 1, getRoom at 1. cbn [w_room].
    destruct (negb (isHost user room)); [done|].
    destruct (queue (music room)) as [|next rest]; [done|].
    rewrite callApi_drain by done. unfold bind, putRoom, getRoom.
    cbn [w_room w_refreshes w_fetches].
    by destruct (spotifyHostFetch now _) as [[e|data] w].
  - rewrite toggle_drain. unfold bind.
    destruct (spotifyHostFetch now _) as [[e|data] w]; [done|].
    by destruct (spotifyHostFetch now w) as [[e'|data'] w'].
  - rewrite callApi_drain by done. unfold bind at 1.
    by destruct (spotifyHostFetch now _) as [[e|data] w].
  - rewrite callApi_drain by done. unfold bind at 1.
    by destruct (spotifyHostFetch now _) as [[e|data] w].
  - done.
Qed.

(** ** Invariants of the server with suspended requests *)

Lemma onlySessionAndQueue_refl room : onlySessionAndQueue room room.
Proof. unfold onlySessionAndQueue. split_and!; eauto. Qed.

Lemma callApi_changes rid now purpose room :
  (callApi rid now purpose room).1.1 = room
  ∧ Forall (fun o => snapshotOf o = None) (callApi rid now purpose room).1.2.
Proof.
  unfold callApi, failWith. repeat case_match; by repeat constructor.
Qed.

Lemma finish_changes rid now purpose data room :
  (finish rid now purpose data room).1.1 = room
  ∧ snapshotsAre room (finish rid now purpose data room).1.2.
Proof.
  destruct purpose; cbn [finish]; unfold replyWith;
    try (split; [done|]; repeat constructor; simpl; intros; by simplify_eq).
  { destruct data as [[[it|] playing ts]|]; (split; [done|]);
      repeat constructor; simpl; intros; by simplify_eq. }
  destruct (callApi_changes rid now ForPlay room) as [Hr Ho].
  split; [done|]. eapply Forall_impl; [exact Ho|]. by intros o -> r.
Qed.

Lemma startMusicControl_changes sid rid action payload now room :
  onlySessionAndQueue room
    (startMusicControl sid rid action payload now room).1.1
  ∧ Forall (fun o => snapshotOf o = None)
      (startMusicControl sid rid action payload now room).1.2.
Proof.
  unfold startMusicControl, failWith, replyWith.
  repeat (case_match; try (split; [apply onlySessionAndQueue_refl
                                  |by repeat constructor])).
  all: match goal with
       | |- context [callApi ?r ?n ?p ?rm] =>
           destruct (callApi_changes r n p rm) as [-> Ho]
       end.
  all: split; [|done].
  all: try apply onlySessionAndQueue_refl.
  unfold onlySessionAndQueue. simpl. split_and!; eauto.
Qed.

Lemma resume_changes p a now room seg :
  resume p a now room = Some seg →
  onlySessionAndQueue room seg.1.1 ∧ snapshotsAre seg.1.1 seg.1.2.
Proof.
  destruct p as [rid refresh purpose|rid purpose], a as [[|acc r e]|[| | |]|];
    cbn [resume]; unfold failWith; try done.
  all: try (intros [= <-]; split; [apply onlySessionAndQueue_refl|];
            repeat constructor; simpl; intros; by simplify_eq).
  - destruct (negb (Js.truthyS acc)); intros [= <-]; simpl.
    all: split; [|repeat constructor; simpl; intros; by simplify_eq].
    all: unfold onlySessionAndQueue; simpl; split_and!; eauto.
  - intros [= <-]. destruct (finish_changes rid now purpose None room)
      as [-> Ho]. split; [apply onlySessionAndQueue_refl | done].
  - intros [= <-]. destruct (finish_changes rid now purpose (Some body) room)
      as [-> Ho]. split; [apply onlySessionAndQueue_refl | done].
Qed.

Section ServeInvariant.
Variable words : list string.
Variable Q : string → Event → Prop.
Variable P : Room → Prop.
Hypothesis P_new : ∀ sid rid rpin uname ucolor ukey e,
  e = CREATE_ROOM rid rpin uname ucolor ukey
  ∨ e = JOIN_ROOM rid rpin uname ucolor ukey →
  Q sid e → P (newRoom sid rid rpin uname ucolor ukey).
Hypothesis P_handler : ∀ sid o e room,
  Q sid e → P room → P (handler words sid o e room).1.
Hypothesis P_segment : ∀ room room',
  onlySessionAndQueue room room' → P room → P room'.

Lemma serve_invariant x (s : ServerState) :
  match x with
  | Arrives i => Q (i_socket i) (i_event i)
  | Answers _ _ _ => True
  end →
  map_Forall (fun _ room => P room) (s_rooms s) →
  map_Forall (fun _ room => P room) (s_rooms (serve words x s).1)
  ∧ snapshotsSatisfy P (serve words x s).2.
Proof.
  intros Hq Hall. destruct x as [i|n a now]; cbn [serve].
  - assert (Hstep : map_Forall (fun _ room => P room)
                      (step words (i_socket i) (i_oracle i) (i_event i)
                         (s_rooms s)).1
                    ∧ snapshotsSatisfy P
                        (step words (i_socket i) (i_oracle i) (i_event i)
                           (s_rooms s)).2).
    { by apply (step_invariant_on words Q P P_new P_handler). }
    destruct (i_event i); try exact Hstep.
    destruct (s_rooms s !! rid) as [room|] eqn:Hroom;
      [|split; [done | by repeat constructor]].
    destruct (startMusicControl_changes (i_socket i) rid action payload
                (now (i_oracle i)) room) as [Hsame Hquiet].
    destruct (startMusicControl _ _ _ _ _ _) as [[room' outs] p].
    cbn [fst snd] in *. split.
    + apply map_Forall_insert_2; [|done].
      eapply P_segment; [exact Hsame | by apply (Hall rid)].
    + eapply Forall_impl; [exact Hquiet|]. by intros o -> r.
  - destruct (s_pending s !! n) as [p|]; [|by split; [|constructor]].
    destruct (s_rooms s !! p_room p) as [room|] eqn:Hroom;
      [|by split; [|constructor]].
    destruct (resume p a now room) as [[[room' outs] next]|] eqn:Hres;
      [|by split; [|constructor]].
    destruct (resume_changes _ _ _ _ _ Hres) as [Hsame Hsnap].
    cbn [fst snd] in *.
    assert (HP : P room')
      by (eapply P_segment; [exact Hsame | by apply (Hall (p_room p))]).
    split; [by apply map_Forall_insert_2|].
    by eapply snapshotsAre_satisfy.
Qed.

Lemma serveAll_invariant xs (s : ServerState) :
  Forall (fun x => match x with
                   | Arrives i => Q (i_socket i) (i_event i)
                   | Answers _ _ _ => True
                   end) xs →
  map_Forall (fun _ room => P room) (s_rooms s) →
  map_Forall (fun _ room => P room) (s_rooms (serveAll words xs s).1)
  ∧ snapshotsSatisfy P (serveAll words xs s).2.
Proof.
  revert s. induction xs as [|x xs IH]; intros s Hq Hall.
  - split; [done | constructor].
  - apply Forall_cons in Hq as [Hq1 Hq]. cbn [serveAll fst snd].
    destruct (serve_invariant x s Hq1 Hall) as [Hall1 Hout1].
    destruct (IH _ Hq Hall1) as [Hall2 Hout2].
    split; [done|]. by apply Forall_app.
Qed.
End ServeInvariant.

Lemma hostOk_segment room room' :
  onlySessionAndQueue room room' → hostOk room → hostOk room'.
Proof.
  intros (_ & _ & Hu & _ & _ & Hk & Hsock & _ & _ & Hf & _ & _ & Hs & _)
    [H1 H3].
  unfold hostOk, keys. rewrite Hk, Hf, Hu, Hsock. split; [|done].
  intros Ht. destruct (H1 Ht) as [Hsess Hsocket]. split; [|done].
  by destruct Hs as [-> | ?].
Qed.

(** X7. The ready flag is set only while a credential bundle is stored and
    a host connection is recorded, and a host key that is set is the key of
    a registered member of the room.  This holds in every state and every
    snapshot of a run from the empty registry, and it still holds when the
    control requests are suspended at their awaits and the provider's
    answers arrive between other events, in any order. *)
Theorem host_credentials_consistent words :
  (∀ inputs,
     map_Forall (fun _ room => hostOk room) (run words inputs ∅).1
     ∧ snapshotsSatisfy hostOk (run words inputs ∅).2)
  ∧ (∀ arrivals,
       map_Forall (fun _ room => hostOk room)
         (s_rooms (serveAll words arrivals idle).1)
       ∧ snapshotsSatisfy hostOk (serveAll words arrivals idle).2).
Proof.
  assert (Hnew : ∀ sid rid rpin uname ucolor ukey,
            hostOk (newRoom sid rid rpin uname ucolor ukey)).
  { intros. unfold hostOk. simpl. split; done. }
  split.
  - intros inputs. apply (run_invariant words (fun _ => True) hostOk).
    + intros. apply Hnew.
    + intros. by apply hostOk_handler.
    + by apply Forall_forall.
    + apply map_Forall_empty.
  - intros arrivals.
    apply (serveAll_invariant words (fun _ _ => True) hostOk).
    + intros. apply Hnew.
    + intros. by apply hostOk_handler.
    + apply hostOk_segment.
    + apply Forall_forall. intros x _. by destruct x.
    + apply map_Forall_empty.
Qed.

(** X28. A session can come back after a release.  Ann hosts with a
    session that has run out and sends a control request, which awaits a
    new token; she releases the host role, which clears the session; then
    the token arrives and the suspended request stores the new session in
    the room, which has no host.  When Bob then claims the role, the room
    is broadcast as ready, with him as host of the session that Ann's
    token refreshed. *)
Theorem session_returns_after_release :
  s_pending (serveAll someWords refreshUnderWay idle).1
  = [AwaitsToken "R1" "refresh" ForCurrentTrack]
  ∧ ∃ room,
      last (serveAll someWords tokenAfterRelease idle).2
      = Some (To (Some "R1") (ROOM_STATE room))
      ∧ hostUserKey (music room) = Some "B"
      ∧ hasHostSession (music room) = true
      ∧ hostSession (music room)
        = Some (mkSession "new" "refresh" 3800000).
Proof.
  split; [vm_compute; reflexivity|].
  eexists. split; [vm_compute; reflexivity|]. by split_and!.
Qed.

(** ** The room invariants with suspended requests *)

Lemma segment_views room room' :
  onlySessionAndQueue room room' →
  users room' = users room ∧ game room' = game room.
Proof. by intros (_ & _ & ? & ? & _). Qed.

Lemma Bounded_segment room room' :
  onlySessionAndQueue room room' → Bounded room → Bounded room'.
Proof.
  intros (_ & _ & Hu & Hg & Hn & _ & _ & _ & _ & _ & _ & Hs & _ & Hq) HB.
  unfold Bounded in *. rewrite Hu, Hg, Hn, Hs.
  destruct Hq as [->|[next Hq]]; [done|]. rewrite Hq in HB. simpl in HB. lia.
Qed.

(** X29. The invariants of the rooms do not depend on the provider
    answering at once.  With the control requests suspended at their
    awaits and the answers arriving between other events, in any order, in
    every state and every snapshot of a run from the empty registry in
    which no socket id is empty and no join carries a null user key: the
    role keys are both null or two distinct member keys, with a word only
    while they are set; the capacities hold; the wheel turn is an eligible
    member's; the statuses follow from connection and role; a live role id
    is the connection of the member with the role; and a room without a
    drawer holds nothing of a round. *)
Theorem invariants_with_suspended_requests words arrivals :
  Forall wellFormed arrivals →
  let good room :=
    rolesOk room ∧ Bounded room ∧ turnValid room ∧ statusOk room
    ∧ liveOk room ∧ idleClean room in
  map_Forall (fun _ room => good room)
    (s_rooms (serveAll words arrivals idle).1)
  ∧ snapshotsSatisfy good (serveAll words arrivals idle).2.
Proof.
  intros Hwf good.
  pose (P := fun room => Inv room ∧ Bounded room ∧ turnValid room
                         ∧ statusSynced room ∧ liveOk room ∧ canvasOk room).
  assert (Hgood : ∀ room, P room → good room).
  { intros room (Hi & Hb & Ht & Hs & Hl & Hc). unfold good. split_and!.
    - by apply Inv_rolesOk.
    - done.
    - done.
    - by apply statusSynced_shows.
    - done.
    - by apply idle_of_invariants. }
  destruct (serveAll_invariant words
              (fun sid e => sid ≠ EmptyString ∧ keyed e) P)
    with (xs := arrivals) (s := idle) as [Hall Hout].
  - intros sid rid rpin uname ucolor ukey e He [Hsid Hkey].
    assert (Hk : ukey ≠ None) by (by destruct He as [-> | ->]).
    unfold P. split_and!.
    + by apply Inv_newRoom.
    + apply Bounded_newRoom.
    + unfold turnValid, wheelKeys, newRoom, onWheel. simpl.
      by rewrite andb_false_r.
    + unfold statusSynced, newRoom, newUser. simpl.
      constructor; [|constructor]. unfold statusOf, connected. simpl.
      apply truthyS_true in Hsid as Ht. rewrite Ht.
      split; [by destruct ukey | congruence].
    + by split; apply boundTo_None.
    + done.
  - intros sid o e room [Hsid Hkey] (Hi & Hb & Ht & Hs & Hl & Hc).
    unfold P. split_and!.
    + by apply Inv_handler.
    + by apply Bounded_handler.
    + by apply turnValid_handler.
    + apply statusSynced_handler; [done | apply Hi | done].
    + by apply liveOk_handler.
    + apply canvasOk_handler; [done | apply Hi | done | done].
  - intros room room' Hseg (Hi & Hb & Ht & Hs & Hl & Hc).
    destruct (segment_views _ _ Hseg) as [Hu Hg].
    unfold P. split_and!.
    + eapply Inv_view; [|exact Hi]. unfold view, keys. by rewrite Hu, Hg.
    + by eapply Bounded_segment.
    + eapply turnValid_view; [|exact Ht]. unfold wheelView. by rewrite Hu, Hg.
    + eapply statusSynced_view; [|exact Hs]. unfold statusView.
      by rewrite Hu, Hg.
    + eapply liveOk_view; [|exact Hl]. unfold liveView, bindings.
      by rewrite Hu, Hg.
    + eapply canvasOk_view; [| |exact Hc]; by rewrite Hg.
  - eapply Forall_impl; [exact Hwf|]. by intros [i|n a t].
  - apply map_Forall_empty.
  - split.
    + eapply map_Forall_impl; [exact Hall|]. intros ? ?. apply Hgood.
    + eapply Forall_impl; [exact Hout|].
      intros out H room Hroom. by apply Hgood, H.
Qed.

(** The theorem at the run in which Ann releases the host role while her
    request awaits a token: every snapshot of the run is good. *)
Lemma invariants_with_suspended_requests_witness :
  Forall wellFormed tokenAfterRelease
  ∧ snapshotsSatisfy
      (fun room => rolesOk room ∧ Bounded room ∧ turnValid room
                   ∧ statusOk room ∧ liveOk room ∧ idleClean room)
      (serveAll someWords tokenAfterRelease idle).2.
Proof.
  assert (Hwf : Forall wellFormed tokenAfterRelease).
  { repeat (constructor; try done). }
  split; [exact Hwf|].
  apply (invariants_with_suspended_requests someWords tokenAfterRelease Hwf).
Defined.

(** ** C4: guesses *)

Lemma findByKey_member k (us : list User) :
  k ∈ map userKey us → is_Some (findByKey k us).
Proof.
  intros (u & -> & Hin)%list_elem_of_fmap. unfold findByKey.
  destruct (List.find _ us) as [found|] eqn:Hf; [by eexists|].
  eapply find_none in Hf; [|by apply list_elem_of_In]. simpl in Hf.
  by rewrite eqo_refl in Hf.
Qed.

(** C4. A GUESS that is not from the connection bound to the guesser role,
    or that comes while no word is active, does nothing.  An accepted guess
    is judged correct exactly when it matches the word: once the white
    space at its two ends is cut off, it is the word letter by letter, a
    capital counting as its small letter.  (The guesser key of an accepted
    guess is a member's key in every room that a run from the empty
    registry reaches.) *)
Theorem C4_guess_judgement words sid rid guess rnd room :
  (onGuess words sid rid guess rnd room ≠ (room, []) →
   guesserId (game room) = Some sid
   ∧ ∃ word, currentWord (game room) = Some word ∧ word ≠ EmptyString)
  ∧ (∀ word guesser,
       guessAccepted sid room = true →
       currentWord (game room) = Some word →
       findByKey (guesserUserKey (game room)) (users room) = Some guesser →
       judgedCorrect (onGuess words sid rid guess rnd room).2 = true
       ↔ matchesWord guess word)
  ∧ (∀ inputs r,
       (run words inputs ∅).1 !! r = Some room →
       guessAccepted sid room = true →
       is_Some (findByKey (guesserUserKey (game room)) (users room))).
Proof.
  split_and!.
  - unfold onGuess. destruct (guessAccepted sid room) eqn:Hacc; [|done].
    intros _. apply guessAccepted_roles in Hacc as (Hw & _ & _ & Hid).
    split; [done|]. destruct (currentWord (game room)) as [word|]; [|done].
    exists word. split; [done|]. by intros ->.
  - intros word guesser Hacc Hw Hfind.
    rewrite <- guessMatches_matchesWord. unfold onGuess.
    rewrite Hacc, Hw. cbn [negb].
    destruct (guessMatches guess word); cbn [negb].
    + rewrite Hfind. by destruct (MAX_SCORE <=? _).
    + destruct (MAX_WRONG_GUESSES <=? _); cbn [snd].
      * by rewrite judgedCorrect_skipOuts.
      * done.
  - intros inputs r Hroom Hacc.
    apply guessAccepted_roles in Hacc as (Hw%truthy_not_None & _).
    destruct (run_wordHeld words inputs) as [Hall _].
    destruct (Hall _ _ Hroom Hw) as [_ Hg]. by apply findByKey_member.
Qed.

(** The theorem at Bob's guesses for the word "cat": "  CaT " is judged
    correct, "cart" is not. *)
Lemma C4_guess_judgement_witness :
  judgedCorrect (onGuess someWords "s2" "R1" "  CaT " 0 roundRoom).2 = true
  ∧ judgedCorrect (onGuess someWords "s2" "R1" "cart" 0 roundRoom).2 ≠ true.
Proof.
  pose (bob := mkUser (Some "B") (Some "s2") "Bob" "blue" GUESSING 0
                 TabDrawing).
  split.
  - apply (proj1 (proj2 (C4_guess_judgement someWords "s2" "R1" "  CaT " 0
                            roundRoom))
             "cat" bob eq_refl eq_refl eq_refl).
    exists "CaT". split; [|reflexivity].
    split_and!.
    + exists "  ", " ". by split_and!.
    + by intros c rest [= <- _].
    + intros [|? [|? [|? [|? ?]]]] c; by intros [=]; subst.
  - intros Hyes.
    apply (proj1 (proj2 (C4_guess_judgement someWords "s2" "R1" "cart" 0
                            roundRoom))
             "cat" bob eq_refl eq_refl eq_refl) in Hyes
      as (core & Hcore & Hsame).
    apply trimmedTo_trim in Hcore. vm_compute in Hcore. subst core.
    by vm_compute in Hsame.
Defined.
